(** * Transcript-to-JSON agents: provider rotation, retry policy, registry,
      JSON salvage and the batch pipeline.

    A shallow embedding of [base/provider.py], [llm/gemini.py],
    [llm/openai.py], [llm/manager.py], [utils/optimizer.py],
    [utils/logger.py], [utils/update_json_start_time.py] and
    [workflows/transcript_to_json.py], followed by the properties of the
    specification that were checked against it. *)

From Stdlib Require Import Ascii String DecimalString QArith Lqa.
From stdpp Require Import gmap strings list fin_maps.

Local Open Scope nat_scope.
Set Warnings "-register-all".

(** ** Python values used by the code *)

(** A Python [str] is kept as the list of the bytes of its UTF-8 encoding.
    The markers, suffixes and fences the code looks for are all ASCII, and
    a match of an ASCII pattern in the UTF-8 bytes is a match in the text.
    Lengths and slices count characters, not bytes: [PyStr.len] and
    [PyStr.slice_to] below. *)
Abbreviation str := (list ascii).

Definition lit (s : string) : str := list_ascii_of_string s.

(** Exceptions: the class and the message [str(e)]. *)
Inductive exn_class :=
  | IndexError | ValueError | Exception | FileNotFoundError | JSONDecodeError
  | RecursionError | UnicodeEncodeError | OSError.

Record exn := Exn { exn_kind : exn_class; exn_msg : str }.

(** What [except json.JSONDecodeError] catches. *)
Definition is_decode_error (e : exn) : bool :=
  match exn_kind e with JSONDecodeError => true | _ => false end.

Inductive result (A : Type) :=
  | Ok (a : A)
  | Raise (e : exn).
Arguments Ok {A} a.
Arguments Raise {A} e.

Module PyStr.

(** [str.lower()] on the ASCII letters; bytes of multi-byte characters are
    left as they are. *)
Definition lower_char (c : ascii) : ascii :=
  let n := nat_of_ascii c in
  if (65 <=? n) && (n <=? 90) then ascii_of_nat (n + 32) else c.

Definition lower (s : str) : str := map lower_char s.

Fixpoint startswith (pre s : str) : bool :=
  match pre, s with
  | [], _ => true
  | _ :: _, [] => false
  | a :: pre', b :: s' => if Ascii.eqb a b then startswith pre' s' else false
  end.

Definition endswith (s suf : str) : bool := startswith (rev suf) (rev s).

(** [sub in s] *)
Fixpoint contains (sub s : str) : bool :=
  startswith sub s ||
  match s with
  | [] => false
  | _ :: s' => contains sub s'
  end.

(** [s.replace(old, new)] for a non-empty [old]: scan from the left, and
    at each occurrence emit [new] and skip the rest of the occurrence.
    [skip] counts the characters of the current occurrence still to drop. *)
Fixpoint replace_go (old new : str) (skip : nat) (s : str) : str :=
  match s with
  | [] => []
  | c :: s' =>
      match skip with
      | S k => replace_go old new k s'
      | O =>
          if startswith old s
          then new ++ replace_go old new (length old - 1) s'
          else c :: replace_go old new 0 s'
      end
  end.

Definition replace (s old new : str) : str := replace_go old new 0 s.

(** [str.isspace] on one ASCII character: tab, line feed, vertical tab,
    form feed, carriage return, the four separators 0x1c-0x1f and space. *)
Definition isspace (c : ascii) : bool :=
  let n := nat_of_ascii c in
  ((9 <=? n) && (n <=? 13)) || ((28 <=? n) && (n <=? 31)) || (n =? 32).

Fixpoint lstrip (s : str) : str :=
  match s with
  | [] => []
  | c :: s' => if isspace c then lstrip s' else s
  end.

Definition rstrip (s : str) : str := rev (lstrip (rev s)).

Definition strip (s : str) : str := rstrip (lstrip s).

(** [len(s)] and [s[:n]] count characters.  In the UTF-8 bytes a character
    is one byte that is not a continuation byte, followed by its
    continuation bytes (the bytes 0x80 to 0xBF). *)
Definition is_continuation (c : ascii) : bool :=
  let n := nat_of_ascii c in (128 <=? n) && (n <? 192).

Fixpoint len (s : str) : nat :=
  match s with
  | [] => 0
  | c :: s' => if is_continuation c then len s' else S (len s')
  end.

(** [s[:n]]: the bytes of the first [n] characters. *)
Fixpoint slice_to (n : nat) (s : str) : str :=
  match s with
  | [] => []
  | c :: s' =>
      if is_continuation c then c :: slice_to n s'
      else match n with
           | O => []
           | S k => c :: slice_to k s'
           end
  end.

(** [s.split(sep)] for a one-character separator. *)
Fixpoint split_go (sep : ascii) (cur : str) (s : str) : list str :=
  match s with
  | [] => [rev cur]
  | c :: s' =>
      if Ascii.eqb c sep then rev cur :: split_go sep [] s'
      else split_go sep (c :: cur) s'
  end.

Definition split (s : str) (sep : ascii) : list str := split_go sep [] s.

(** [posixpath.join(a, b)] *)
Definition path_join (a b : str) : str :=
  if startswith (lit "/") b then b
  else if (match a with [] => true | _ => false end) || endswith a (lit "/")
       then a ++ b
       else a ++ lit "/" ++ b.

End PyStr.

(** ** base/provider.py *)

Record BaseLLMProvider := {
  api_keys : list str;
  model_name : str;
  current_key_index : nat
}.

(** [BaseLLMProvider.__init__] *)
Definition init_provider (keys : list str) (model : str) : BaseLLMProvider :=
  {| api_keys := keys; model_name := model; current_key_index := 0 |}.

Definition set_index (p : BaseLLMProvider) (i : nat) : BaseLLMProvider :=
  {| api_keys := api_keys p; model_name := model_name p;
     current_key_index := i |}.

(** [get_next_key]: read the key at the counter, then advance the counter
    modulo the number of keys.  With no key at all the subscript raises. *)
Definition get_next_key (p : BaseLLMProvider) : result (str * BaseLLMProvider) :=
  match api_keys p !! current_key_index p with
  | None => Raise (Exn IndexError (lit "list index out of range"))
  | Some key =>
      Ok (key, set_index p ((current_key_index p + 1) mod length (api_keys p)))
  end.

(** The calls of all the callers of one instance, in the order in which
    they reach [get_next_key]: each caller gets its key, and the one
    provider state is threaded through. *)
Fixpoint serve_callers {C : Type} (callers : list C) (p : BaseLLMProvider)
  : list (C * result str) * BaseLLMProvider :=
  match callers with
  | [] => ([], p)
  | c :: rest =>
      match get_next_key p with
      | Raise e =>
          let '(out, p') := serve_callers rest p in ((c, Raise e) :: out, p')
      | Ok (key, p1) =>
          let '(out, p') := serve_callers rest p1 in ((c, Ok key) :: out, p')
      end
  end.

(** ** llm/gemini.py and llm/openai.py *)

(** The two concrete providers. *)
Inductive variant := Gemini | OpenAI.

(** A provider instance: the base fields and the retry tunables that
    [__init__] copies from the module constants [MAX_RETRIES],
    [RETRY_BASE_DELAY] and [RETRY_JITTER_MAX] (read from the environment
    when the module is loaded; 5, 1.0 and 0.5 by default).  Seconds are
    kept as exact rationals. *)
Record Provider := {
  kind : variant;
  base : BaseLLMProvider;
  base_url : option str;
  max_retries : nat;
  retry_base_delay : Q;
  jitter_max : Q
}.

Record retry_config := {
  MAX_RETRIES : nat;
  RETRY_BASE_DELAY : Q;
  RETRY_JITTER_MAX : Q
}.

Definition default_retry_config : retry_config :=
  {| MAX_RETRIES := 5; RETRY_BASE_DELAY := 1; RETRY_JITTER_MAX := 1 # 2 |}.

Definition GeminiProvider (cfg : retry_config) (keys : list str) (model : str)
  : Provider :=
  {| kind := Gemini; base := init_provider keys model; base_url := None;
     max_retries := MAX_RETRIES cfg;
     retry_base_delay := RETRY_BASE_DELAY cfg;
     jitter_max := RETRY_JITTER_MAX cfg |}.

Definition OpenAIProvider (cfg : retry_config) (keys : list str) (model : str)
    (url : option str) : Provider :=
  {| kind := OpenAI; base := init_provider keys model; base_url := url;
     max_retries := MAX_RETRIES cfg;
     retry_base_delay := RETRY_BASE_DELAY cfg;
     jitter_max := RETRY_JITTER_MAX cfg |}.

Definition with_base (P : Provider) (b : BaseLLMProvider) : Provider :=
  {| kind := kind P; base := b; base_url := base_url P;
     max_retries := max_retries P;
     retry_base_delay := retry_base_delay P;
     jitter_max := jitter_max P |}.

Definition provider_name (k : variant) : str :=
  match k with Gemini => lit "gemini" | OpenAI => lit "openai" end.

(** The keywords of the [any(keyword in error_msg ...)] test of each
    provider. *)
Definition retry_keywords (k : variant) : list str :=
  match k with
  | Gemini => [lit "rate"; lit "quota"; lit "429"; lit "500"; lit "503"]
  | OpenAI => [lit "rate"; lit "limit"; lit "429"; lit "500"; lit "503"]
  end.

(** [error_msg = str(e).lower()] followed by the keyword test. *)
Definition is_retryable (k : variant) (msg : str) : bool :=
  existsb (fun keyword => PyStr.contains keyword (PyStr.lower msg))
          (retry_keywords k).

(** What is sent to the backend, and what comes back: a response with its
    text and token counts, or an exception with its message. *)
Inductive backend_request :=
  | GenerateContent (model contents : str) (temperature : Q)
      (max_output_tokens : nat)
  | ChatCompletion (model : str) (messages : list (str * str))
      (temperature : Q) (max_tokens : nat).

Inductive backend_reply :=
  | Reply (text : str) (input_tokens output_tokens total_tokens : option nat)
  | Fail (msg : str).

Inductive status := success | rate_limited | error | failed_after_retries.

(** The arguments of [log_api_call] (durations and prompt lengths left out). *)
Record attempt_record := {
  r_provider : str;
  r_model : str;
  r_status : status;
  r_input_tokens : option nat;
  r_output_tokens : option nat;
  r_total_tokens : option nat;
  r_error : option str;
  r_api_key_index : nat;
  r_response_preview : option str
}.

(** What one [generate] call does to the outside, in order. *)
Inductive event :=
  | EvCall (attempt : nat) (key : str) (req : backend_request)
  | EvLog (r : attempt_record)
  | EvSleep (seconds : Q).

Definition nl : ascii := ascii_of_nat 10.

Definition truthy_str (s : option str) : bool :=
  match s with Some (_ :: _) => true | _ => false end.

Definition full_prompt (system_instruction : option str) (prompt : str) : str :=
  match system_instruction with
  | Some (c :: s) => (c :: s) ++ [nl; nl] ++ prompt
  | _ => prompt
  end.

Definition build_request (P : Provider) (b : BaseLLMProvider)
    (prompt : str) (system_instruction : option str)
    (temperature : Q) (max_tokens : nat) : backend_request :=
  match kind P with
  | Gemini =>
      GenerateContent (model_name b) (full_prompt system_instruction prompt)
        temperature max_tokens
  | OpenAI =>
      ChatCompletion (model_name b)
        (match system_instruction with
         | Some (c :: s) => [(lit "system", c :: s)]
         | _ => []
         end ++ [(lit "user", prompt)])
        temperature max_tokens
  end.

Definition empty_response_msg (k : variant) : str :=
  match k with
  | Gemini => lit "Gemini trả về response trống hoặc bị block (Safety)"
  | OpenAI => lit "OpenAI trả về response trống"
  end.

Definition str_of_nat (n : nat) : str :=
  lit (DecimalString.NilEmpty.string_of_uint (Nat.to_uint n)).

Definition api_error (k : variant) (msg : str) : exn :=
  Exn Exception
    (match k with
     | Gemini => lit "Gemini API Error: "
     | OpenAI => lit "OpenAI API Error: "
     end ++ msg).

Definition exhausted_error (k : variant) (n : nat) : exn :=
  Exn Exception
    (match k with Gemini => lit "Gemini: " | OpenAI => lit "OpenAI: " end
     ++ lit "Đã thử " ++ str_of_nat n ++ lit " lần nhưng thất bại").

Definition exhausted_detail (k : variant) (n : nat) : str :=
  lit "Failed after " ++ str_of_nat n ++
  match k with Gemini => lit " retries" | OpenAI => lit " attempts" end.

(** [random.uniform(a, b)] is [a + (b - a) * random()]; [u] is the draw. *)
Definition uniform (a b u : Q) : Q := (a + (b - a) * u)%Q.

(** The sleep after a retryable failure of attempt [attempt]. *)
Definition wait_time (P : Provider) (attempt : nat) (u : Q) : Q :=
  (retry_base_delay P * inject_Z (Z.of_nat (2 ^ (attempt - 1)))
   + uniform 0 (jitter_max P) u)%Q.

Definition log_record (P : Provider) (b : BaseLLMProvider) (st : status)
    (tok : option nat * option nat * option nat)
    (err preview : option str) : attempt_record :=
  {| r_provider := provider_name (kind P);
     r_model := model_name b;
     r_status := st;
     r_input_tokens := tok.1.1;
     r_output_tokens := tok.1.2;
     r_total_tokens := tok.2;
     r_error := err;
     r_api_key_index := current_key_index b;
     r_response_preview := preview |}.

Section Generate.
(** The outside world of one [generate] call: the backend's answer to
    each attempt, and the draw of [random()] after each attempt. *)
Variable backend : nat → str → backend_request → backend_reply.
Variable rnd : nat → Q.

Variable P : Provider.
Variables (prompt : str) (system_instruction : option str).
Variables (temperature : Q) (max_tokens : nat).

(** The body of [for attempt in range(1, self.max_retries + 1)], with
    [todo] iterations left, followed by the code after the loop.  Every
    record reads [self.current_key_index] when it is written.  The
    per-attempt client of the OpenAI provider, closed in its [finally], has
    no part in what follows and is left out. *)
Fixpoint attempt_loop (todo attempt : nat) (b : BaseLLMProvider)
  : result str * BaseLLMProvider * list event :=
  match todo with
  | O =>
      (Raise (exhausted_error (kind P) (max_retries P)), b,
       [EvLog (log_record P b failed_after_retries (None, None, None)
                 (Some (exhausted_detail (kind P) (max_retries P))) None)])
  | S todo' =>
      match get_next_key b with
      | Raise e => (Raise e, b, [])
      | Ok (api_key, b1) =>
          let req := build_request P b1 prompt system_instruction
                       temperature max_tokens in
          let call := EvCall attempt api_key req in
          let on_error (msg : str) :=
            if is_retryable (kind P) msg then
              let '(r, b2, evs) := attempt_loop todo' (S attempt) b1 in
              (r, b2,
               call
               :: EvLog (log_record P b1 rate_limited (None, None, None)
                           (Some msg) None)
               :: EvSleep (wait_time P attempt (rnd attempt))
               :: evs)
            else
              (Raise (api_error (kind P) msg), b1,
               [call;
                EvLog (log_record P b1 error (None, None, None)
                         (Some msg) None)])
          in
          match backend attempt api_key req with
          | Reply (c :: text) i o t =>
              (Ok (c :: text), b1,
               [call;
                EvLog (log_record P b1 success (i, o, t) None
                         (Some (c :: text)))])
          | Reply [] _ _ _ => on_error (empty_response_msg (kind P))
          | Fail msg => on_error msg
          end
      end
  end.

(** [generate]: the text or the exception, the provider with its counter
    advanced, and the events in order. *)
Definition generate : result str * Provider * list event :=
  let '(r, b, evs) := attempt_loop (max_retries P) 1 (base P) in
  (r, with_base P b, evs).

End Generate.

(** Readings of an event list. *)
Definition calls (evs : list event) : list (nat * str) :=
  omap (fun ev => match ev with EvCall n key _ => Some (n, key) | _ => None end)
       evs.

Definition sleeps (evs : list event) : list Q :=
  omap (fun ev => match ev with EvSleep d => Some d | _ => None end) evs.

Definition records (evs : list event) : list attempt_record :=
  omap (fun ev => match ev with EvLog r => Some r | _ => None end) evs.

(** The failure an attempt ends in, if any: the exception of the backend,
    or the [ValueError] raised for an empty response. *)
Definition failure_of (k : variant) (reply : backend_reply) : option str :=
  match reply with
  | Reply (_ :: _) _ _ _ => None
  | Reply [] _ _ _ => Some (empty_response_msg k)
  | Fail msg => Some msg
  end.

(** What follows attempt [n] in the event list, given the backend's reply to
    it: [last] is the number of the last attempt allowed and [logged] the
    key index written in the record. *)
Definition after_call (P : Provider) (rnd : nat → Q) (last n logged : nat)
    (reply : backend_reply) (post : list event) : Prop :=
  match failure_of (kind P) reply with
  | None =>
      ∃ rec, post = [EvLog rec] ∧ r_status rec = success ∧
             r_api_key_index rec = logged
  | Some msg =>
      if is_retryable (kind P) msg then
        ∃ rec rest,
          post = EvLog rec :: EvSleep (wait_time P n (rnd n)) :: rest ∧
          r_status rec = rate_limited ∧ r_error rec = Some msg ∧
          r_api_key_index rec = logged ∧
          ((n < last ∧ ∃ key' req' post', rest = EvCall (S n) key' req' :: post') ∨
           (n = last ∧ ∃ rec', rest = [EvLog rec'] ∧
                                r_status rec' = failed_after_retries))
      else
        ∃ rec, post = [EvLog rec] ∧ r_status rec = error ∧
               r_error rec = Some msg ∧ r_api_key_index rec = logged
  end.

(** [close] of both concrete providers: [pass]. *)
Definition provider_close (P : Provider) : result unit := Ok tt.

(** ** llm/manager.py *)

(** [self.providers] (a dict, kept in insertion order) and
    [self.default_provider]. *)
Record LLMManager := {
  providers : list (str * Provider);
  default_provider : str
}.

(** [name in d] and [d[name]] on a dict kept in insertion order. *)
Fixpoint dict_get {V : Type} (d : list (str * V)) (name : str) : option V :=
  match d with
  | [] => None
  | (k, v) :: rest => if decide (k = name) then Some v else dict_get rest name
  end.

(** [os.getenv(name, default)] *)
Definition getenv (env : str → option str) (name default : str) : str :=
  match env name with Some v => v | None => default end.

Definition nonempty (s : str) : bool :=
  match s with [] => false | _ :: _ => true end.

(** [[k.strip() for k in s.split(",") if k.strip()]] *)
Definition parse_keys (s : str) : list str :=
  List.filter nonempty (map PyStr.strip (PyStr.split s ","%char)).

Definition no_provider_msg : str :=
  lit "Không tìm thấy API key cho bất kỳ provider nào!" ++ [nl] ++
  lit "Hãy set ít nhất một trong các biến môi trường:" ++ [nl] ++
  lit "  - GEMINI_API_KEYS=key1,key2" ++ [nl] ++
  lit "  - OPENAI_API_KEYS=key1,key2".

Section LoadProviders.
(** The retry constants of the two provider modules, and the process
    environment. *)
Variables (gemini_cfg openai_cfg : retry_config).
Variable env : str → option str.

(** The registrations of [_load_providers], Gemini first. *)
Definition loaded_providers : list (str * Provider) :=
  (let keys := parse_keys (getenv env (lit "GEMINI_API_KEYS") []) in
   if nonempty (getenv env (lit "GEMINI_API_KEYS") []) && negb (bool_decide (keys = []))
   then [(lit "gemini",
          GeminiProvider gemini_cfg keys
            (getenv env (lit "GEMINI_MODEL") (lit "gemini-2.0-flash-exp")))]
   else [])
  ++
  (let keys := parse_keys (getenv env (lit "OPENAI_API_KEYS") []) in
   if nonempty (getenv env (lit "OPENAI_API_KEYS") []) && negb (bool_decide (keys = []))
   then [(lit "openai",
          OpenAIProvider openai_cfg keys
            (getenv env (lit "OPENAI_MODEL") (lit "gpt-4o-mini"))
            (env (lit "OPENAI_BASE_URL")))]
   else []).

(** [LLMManager.__init__]: load, fail when nothing was loaded, choose the
    default. *)
Definition _load_providers : result LLMManager :=
  match loaded_providers with
  | [] => Raise (Exn ValueError no_provider_msg)
  | (first, _) :: _ =>
      let default :=
        PyStr.lower (getenv env (lit "DEFAULT_AI_PROVIDER") (lit "gemini")) in
      Ok {| providers := loaded_providers;
            default_provider :=
              match dict_get loaded_providers default with
              | Some _ => default
              | None => first
              end |}
  end.
End LoadProviders.

(** [", ".join(names)] *)
Fixpoint join_names (names : list str) : str :=
  match names with
  | [] => []
  | [n] => n
  | n :: rest => n ++ lit ", " ++ join_names rest
  end.

(** [get_provider]: [provider or self.default_provider], then the lookup. *)
Definition get_provider (m : LLMManager) (provider : option str)
  : result Provider :=
  let provider_name :=
    match provider with
    | Some (c :: s) => c :: s
    | _ => default_provider m
    end in
  match dict_get (providers m) provider_name with
  | None =>
      Raise (Exn ValueError
               (lit "Provider '" ++ provider_name ++ lit "' không có sẵn." ++
                [nl] ++ lit "Available: " ++
                join_names (map fst (providers m))))
  | Some P => Ok P
  end.

Definition get_available_providers (m : LLMManager) : list str :=
  map fst (providers m).

(** [close_all]: [await provider.close()] on each value of the dict in
    turn, with nothing around the call: an exception of [close] leaves the
    loop.  [close] is the method of the instances held; the result lists the
    providers whose [close] was called, in order. *)
Fixpoint close_all {Pv : Type} (close : Pv → result unit)
    (owned : list (str * Pv)) : list str * result unit :=
  match owned with
  | [] => ([], Ok tt)
  | (name, p) :: rest =>
      match close p with
      | Raise e => ([name], Raise e)
      | Ok _ =>
          let '(called, r) := close_all close rest in (name :: called, r)
      end
  end.

(** ** JSON values and [json.loads] *)

(** What [json.loads] returns: [JNull] is Python's [None]; an object keeps
    its members in the order of the text. *)
Inductive json :=
  | JNull
  | JBool (b : bool)
  | JNum (z : Z)
  | JStr (s : str)
  | JArr (items : list json)
  | JObj (members : list (str * json)).

(** Python truth value of a decoded document ([if not data]). *)
Definition truthy (j : json) : bool :=
  match j with
  | JNull => false
  | JBool b => b
  | JNum z => negb (z =? 0)%Z
  | JStr s => nonempty s
  | JArr items => match items with [] => false | _ => true end
  | JObj members => match members with [] => false | _ => true end
  end.

(** A reference decoder for the JSON grammar, used where a concrete
    [json.loads] is needed.  It reads whole documents with objects, arrays,
    strings with the one-letter escapes, integers, [true], [false] and
    [null]; it gives up ([None], for the [JSONDecodeError]) on anything else,
    which includes numbers with a fraction or an exponent and [\u] escapes. *)
Module JsonRef.

Inductive token :=
  | TLBrace | TRBrace | TLBracket | TRBracket | TColon | TComma
  | TString (s : str) | TNumber (z : Z) | TTrue | TFalse | TNull.

Inductive kword := KwTrue | KwFalse | KwNull.

Definition spelling (k : kword) : str :=
  match k with
  | KwTrue => lit "true" | KwFalse => lit "false" | KwNull => lit "null"
  end.

Definition kword_token (k : kword) : token :=
  match k with KwTrue => TTrue | KwFalse => TFalse | KwNull => TNull end.

(** The scanner reads one character at a time.  Strings and digits are
    accumulated in reverse. *)
Inductive lstate :=
  | LStart
  | LString (acc : str)
  | LEscape (acc : str)
  | LNumber (negative : bool) (digits : str)
  | LKeyword (k : kword) (seen : nat).

Definition is_json_space (c : ascii) : bool :=
  let n := nat_of_ascii c in (n =? 32) || (n =? 9) || (n =? 10) || (n =? 13).

Definition is_digit (c : ascii) : bool :=
  let n := nat_of_ascii c in (48 <=? n) && (n <=? 57).

Definition digit_value (c : ascii) : Z := Z.of_nat (nat_of_ascii c - 48).

(** [digits] is reversed: the last digit read comes first. *)
Fixpoint digits_value (digits : str) : Z :=
  match digits with
  | [] => 0
  | c :: more => (digit_value c + 10 * digits_value more)%Z
  end.

(** An integer literal: at least one digit, and no leading zero. *)
Definition number_token (negative : bool) (digits : str) : option token :=
  match rev digits with
  | [] => None
  | first :: more =>
      if (nat_of_ascii first =? 48) && nonempty more then None
      else Some (TNumber (if negative then (- digits_value digits)%Z
                          else digits_value digits))
  end.

Definition escape_char (c : ascii) : option ascii :=
  match nat_of_ascii c with
  | 34 => Some c           (* quote *)
  | 92 => Some c           (* backslash *)
  | 47 => Some c           (* slash *)
  | 98 => Some (ascii_of_nat 8)
  | 102 => Some (ascii_of_nat 12)
  | 110 => Some (ascii_of_nat 10)
  | 114 => Some (ascii_of_nat 13)
  | 116 => Some (ascii_of_nat 9)
  | _ => None
  end.

Definition step_start (c : ascii) : option (list token * lstate) :=
  if is_json_space c then Some ([], LStart)
  else if is_digit c then Some ([], LNumber false [c])
  else
    match nat_of_ascii c with
    | 123 => Some ([TLBrace], LStart)
    | 125 => Some ([TRBrace], LStart)
    | 91 => Some ([TLBracket], LStart)
    | 93 => Some ([TRBracket], LStart)
    | 58 => Some ([TColon], LStart)
    | 44 => Some ([TComma], LStart)
    | 34 => Some ([], LString [])
    | 45 => Some ([], LNumber true [])
    | 116 => Some ([], LKeyword KwTrue 1)
    | 102 => Some ([], LKeyword KwFalse 1)
    | 110 => Some ([], LKeyword KwNull 1)
    | _ => None
    end.

Definition step (st : lstate) (c : ascii) : option (list token * lstate) :=
  match st with
  | LStart => step_start c
  | LString acc =>
      match nat_of_ascii c with
      | 34 => Some ([TString (rev acc)], LStart)
      | 92 => Some ([], LEscape acc)
      | n => if n <? 32 then None else Some ([], LString (c :: acc))
      end
  | LEscape acc =>
      match escape_char c with
      | Some c' => Some ([], LString (c' :: acc))
      | None => None
      end
  | LNumber negative digits =>
      if is_digit c then Some ([], LNumber negative (c :: digits))
      else
        match number_token negative digits, step_start c with
        | Some tok, Some (out, st') => Some (tok :: out, st')
        | _, _ => None
        end
  | LKeyword k seen =>
      match spelling k !! seen with
      | Some expected =>
          if Ascii.eqb c expected then
            if S seen =? length (spelling k)
            then Some ([kword_token k], LStart)
            else Some ([], LKeyword k (S seen))
          else None
      | None => None
      end
  end.

(** End of the text. *)
Definition finish (st : lstate) : option (list token) :=
  match st with
  | LStart => Some []
  | LNumber negative digits =>
      match number_token negative digits with
      | Some tok => Some [tok]
      | None => None
      end
  | _ => None
  end.

Fixpoint lex_go (st : lstate) (s : str) : option (list token) :=
  match s with
  | [] => finish st
  | c :: s' =>
      match step st c with
      | None => None
      | Some (out, st') =>
          match lex_go st' s' with
          | None => None
          | Some toks => Some (out ++ toks)
          end
      end
  end.

Definition lex (s : str) : option (list token) := lex_go LStart s.

(** Recursive descent on the tokens.  [fuel] bounds the nesting of calls;
    every call made with less fuel has consumed a token or is followed by
    one that does. *)
Fixpoint parse_value (fuel : nat) (toks : list token)
  : option (json * list token) :=
  match fuel with
  | O => None
  | S fuel' =>
      match toks with
      | TNull :: rest => Some (JNull, rest)
      | TTrue :: rest => Some (JBool true, rest)
      | TFalse :: rest => Some (JBool false, rest)
      | TNumber z :: rest => Some (JNum z, rest)
      | TString s :: rest => Some (JStr s, rest)
      | TLBracket :: TRBracket :: rest => Some (JArr [], rest)
      | TLBracket :: rest =>
          match parse_items fuel' rest with
          | Some (items, rest') => Some (JArr items, rest')
          | None => None
          end
      | TLBrace :: TRBrace :: rest => Some (JObj [], rest)
      | TLBrace :: rest =>
          match parse_members fuel' rest with
          | Some (members, rest') => Some (JObj members, rest')
          | None => None
          end
      | _ => None
      end
  end
with parse_items (fuel : nat) (toks : list token)
  : option (list json * list token) :=
  match fuel with
  | O => None
  | S fuel' =>
      match parse_value fuel' toks with
      | Some (v, TComma :: rest) =>
          match parse_items fuel' rest with
          | Some (items, rest') => Some (v :: items, rest')
          | None => None
          end
      | Some (v, TRBracket :: rest) => Some ([v], rest)
      | _ => None
      end
  end
with parse_members (fuel : nat) (toks : list token)
  : option (list (str * json) * list token) :=
  match fuel with
  | O => None
  | S fuel' =>
      match toks with
      | TString key :: TColon :: rest =>
          match parse_value fuel' rest with
          | Some (v, TComma :: rest') =>
              match parse_members fuel' rest' with
              | Some (members, rest'') => Some ((key, v) :: members, rest'')
              | None => None
              end
          | Some (v, TRBrace :: rest') => Some ([(key, v)], rest')
          | _ => None
          end
      | _ => None
      end
  end.

Definition parse (toks : list token) : option json :=
  match parse_value (2 * length toks + 2) toks with
  | Some (v, []) => Some v
  | _ => None
  end.

(** [json.loads(text)]: [None] stands for the [JSONDecodeError]. *)
Definition loads (text : str) : option json :=
  match lex text with
  | Some toks => parse toks
  | None => None
  end.

End JsonRef.

(** [json.loads] as the reference decoder gives it: the value, or the
    [JSONDecodeError]. *)
Definition ref_loads (text : str) : result json :=
  match JsonRef.loads text with
  | Some data => Ok data
  | None => Raise (Exn JSONDecodeError (lit "Expecting value"))
  end.

(** ** utils/optimizer.py *)

Definition truncation_marker : str := [nl] ++ lit "...[TRUNCATED]...".

(** [compact_history(content, max_chars)] *)
Definition compact_history (content : str) (max_chars : nat) : str :=
  if PyStr.len content <=? max_chars then content
  else PyStr.slice_to max_chars content ++ truncation_marker.

(** The text after the first [c] of [s]. *)
Fixpoint after_first (c : ascii) (s : str) : option str :=
  match s with
  | [] => None
  | x :: s' => if Ascii.eqb x c then Some s' else after_first c s'
  end.

Definition lbrace : ascii := ascii_of_nat 123.
Definition rbrace : ascii := ascii_of_nat 125.

(** [re.search(r'\{.*\}', text, re.DOTALL)]: the leftmost match starts at
    the first opening brace, and the greedy [.*] (which with [DOTALL] takes
    any character) runs to the last closing brace after it. *)
Definition search_braces (text : str) : option str :=
  match after_first lbrace text with
  | None => None
  | Some after =>
      match after_first rbrace (rev after) with
      | None => None
      | Some inner => Some (lbrace :: rev inner ++ [rbrace])
      end
  end.

Definition fence_json : str := lit "```json".
Definition fence : str := lit "```".

(** [text.replace("```json", "").replace("```", "").strip()] *)
Definition clean_text (text : str) : str :=
  PyStr.strip (PyStr.replace (PyStr.replace text fence_json []) fence []).

(** One [try: return json.loads(text)] with its
    [except json.JSONDecodeError: pass]: the decoded value is returned, a
    [JSONDecodeError] lets the code go on with [otherwise], and any other
    exception of [json.loads] leaves the function. *)
Definition try_loads (loads : str → result json) (text : str)
    (otherwise : result json) : result json :=
  match loads text with
  | Ok data => Ok data
  | Raise e => if is_decode_error e then otherwise else Raise e
  end.

(** [parse_json_safely]: the three attempts in the order of the code, each
    behind its own [try]; the final [return None] is [Ok JNull].  [loads] is
    [json.loads], which returns the value or raises. *)
Definition parse_json_safely (loads : str → result json) (text : str)
  : result json :=
  try_loads loads text
    (try_loads loads (clean_text text)
       (match search_braces text with
        | Some matched => try_loads loads matched (Ok JNull)
        | None => Ok JNull
        end)).

(** The text is not JSON: [json.loads] raises [JSONDecodeError]. *)
Definition not_json {A : Type} (r : result A) : bool :=
  match r with
  | Ok _ => false
  | Raise e => is_decode_error e
  end.

(** Following the words of the specification, "the first brace-delimited
    object": from the first opening brace to the closing brace that balances
    it.  Only used to state that sentence; the code has nothing like it. *)
Fixpoint balanced_prefix (depth : nat) (s : str) : option str :=
  match s with
  | [] => None
  | c :: s' =>
      if Ascii.eqb c rbrace then
        match depth with
        | O => Some [c]
        | S d => option_map (cons c) (balanced_prefix d s')
        end
      else if Ascii.eqb c lbrace
      then option_map (cons c) (balanced_prefix (S depth) s')
      else option_map (cons c) (balanced_prefix depth s')
  end.

Definition spec_first_brace_object (text : str) : option str :=
  match after_first lbrace text with
  | None => None
  | Some after => option_map (cons lbrace) (balanced_prefix 0 after)
  end.

Definition dquote : ascii := ascii_of_nat 34.
Definition backtick : ascii := ascii_of_nat 96.

(** A response wrapped in a markdown fence, with the white space [before]
    and [after] that separates it from the fence lines. *)
Definition fenced (before text after : str) : str :=
  fence_json ++ before ++ text ++ after ++ fence.

(** Sample responses. *)
Definition object_a1 : str :=                       (* {"a": 1} *)
  [lbrace; dquote] ++ lit "a" ++ [dquote] ++ lit ": 1" ++ [rbrace].
Definition object_b2 : str :=                       (* {"b": 2} *)
  [lbrace; dquote] ++ lit "b" ++ [dquote] ++ lit ": 2" ++ [rbrace].
Definition prose_with_object : str :=               (* Result: {"a": 1} done *)
  lit "Result: " ++ object_a1 ++ lit " done".
Definition two_objects : str :=                     (* {"a": 1} and {"b": 2} *)
  object_a1 ++ lit " and " ++ object_b2.
Definition object_with_backticks : str :=           (* {"a": "```"} *)
  [lbrace; dquote] ++ lit "a" ++ [dquote] ++ lit ": " ++
  [dquote] ++ fence ++ [dquote; rbrace].

(** A reference for [json.dump(data, f, ensure_ascii=False, indent=2)],
    used where a concrete serializer is needed. *)
Module JsonDump.

Definition hex_digit (n : nat) : ascii :=
  if n <? 10 then ascii_of_nat (48 + n) else ascii_of_nat (87 + n).

Definition escape (c : ascii) : str :=
  match nat_of_ascii c with
  | 34 => lit "\" ++ [c]
  | 92 => lit "\\"
  | 8 => lit "\b"
  | 9 => lit "\t"
  | 10 => lit "\n"
  | 12 => lit "\f"
  | 13 => lit "\r"
  | n => if n <? 32
         then lit "\u00" ++ [hex_digit (n / 16); hex_digit (n mod 16)]
         else [c]
  end.

Definition quoted (s : str) : str :=
  [dquote] ++ concat (map escape s) ++ [dquote].

Definition indent (level : nat) : str := repeat " "%char (2 * level).

Fixpoint dumps_at (level : nat) (j : json) : str :=
  match j with
  | JNull => lit "null"
  | JBool true => lit "true"
  | JBool false => lit "false"
  | JNum z => lit (NilEmpty.string_of_int (Z.to_int z))
  | JStr s => quoted s
  | JArr [] => lit "[]"
  | JArr (first :: more) =>
      lit "[" ++ [nl] ++ indent (S level) ++ dumps_at (S level) first ++
      (fix items (l : list json) : str :=
         match l with
         | [] => []
         | x :: l' =>
             lit "," ++ [nl] ++ indent (S level) ++ dumps_at (S level) x
             ++ items l'
         end) more ++
      [nl] ++ indent level ++ lit "]"
  | JObj [] => [lbrace; rbrace]
  | JObj ((key, v) :: more) =>
      [lbrace; nl] ++ indent (S level) ++ quoted key ++ lit ": " ++
      dumps_at (S level) v ++
      (fix members (l : list (str * json)) : str :=
         match l with
         | [] => []
         | (k, x) :: l' =>
             lit "," ++ [nl] ++ indent (S level) ++ quoted k ++ lit ": " ++
             dumps_at (S level) x ++ members l'
         end) more ++
      [nl] ++ indent level ++ [rbrace]
  end.

Definition dumps (j : json) : str := dumps_at 0 j.

End JsonDump.

(** ** workflows/transcript_to_json.py *)

Definition INPUT_FILE_EXT : str := lit ".f.txt".
Definition OUTPUT_FILE_EXT : str := lit ".json".
Definition ERROR_FILE_SUFFIX : str := lit ".error.txt".
Definition MAX_CONCURRENT_WORKERS : nat := 3.
Definition DEFAULT_TEMPERATURE : Q := 1 # 5.
Definition MAX_CHARS : nat := 100 * 1000.

(** [os.path.basename] *)
Fixpoint basename_go (acc : str) (path : str) : str :=
  match path with
  | [] => rev acc
  | c :: path' =>
      if Ascii.eqb c "/"%char then basename_go [] path'
      else basename_go (c :: acc) path'
  end.

Definition basename (path : str) : str := basename_go [] path.

Inductive job_status := job_success | job_error.

(** The dict returned for one file (the duration left out). *)
Record job_result := {
  jr_status : job_status;
  jr_file : str;
  jr_output : option str;
  jr_message : option str
}.

(** Replace the instance registered under the name that [get_provider]
    resolves: the provider object is shared, and [generate] has moved its
    counter. *)
Fixpoint dict_set {V : Type} (d : list (str * V)) (name : str) (v : V)
  : list (str * V) :=
  match d with
  | [] => []
  | (k, x) :: rest =>
      if decide (k = name) then (k, v) :: rest
      else (k, x) :: dict_set rest name v
  end.

Definition resolved_name (m : LLMManager) (provider : option str) : str :=
  match provider with
  | Some (c :: s) => c :: s
  | _ => default_provider m
  end.

Definition store_provider (m : LLMManager) (provider : option str)
    (P : Provider) : LLMManager :=
  {| providers := dict_set (providers m) (resolved_name m provider) P;
     default_provider := default_provider m |}.

(** The entries of the input directory that carry the input suffix. *)
Definition eligible (names : list str) : list str :=
  List.filter (λ f, PyStr.endswith f INPUT_FILE_EXT) names.

(** *** Files

    The file system maps a path to the text of the file; a file is known
    by the path the code opens it with. *)

(** [with open(path, 'w') as f:] followed by the writes of a text.  Opening
    creates the file, or empties the one that is there, before anything is
    written.  Whether the writes go through is the outside world's: they may
    all succeed; an exception may stop them, and the file then holds what
    was written before it (a [json.dump] that meets a character without a
    UTF-8 encoding, a full disk); or the file cannot be opened at all. *)
Inductive write_fault :=
  | NoFault
  | Truncated (written : str) (e : exn)
  | Refused (e : exn).

Definition write_file (fs : gmap str str) (path text : str)
    (fault : write_fault) : gmap str str * option exn :=
  match fault with
  | NoFault => (<[path := text]> fs, None)
  | Truncated written e => (<[path := written]> fs, Some e)
  | Refused e => (fs, Some e)
  end.

(** *** utils/logger.py *)

(** [APILogger.log_file] of the logger each provider holds: the shared
    default logger for Gemini, a logger of its own for OpenAI. *)
Definition log_file (k : variant) : str :=
  match k with
  | Gemini => lit "logs/gemini_logs.txt"
  | OpenAI => lit "logs/openai_logs.txt"
  end.

(** The [try] of [log_api_call]: the file is opened for appending and the
    entry and the separator line are written; every exception is caught.
    [appended] is what reached the file: the two lines (with the time stamp
    of the entry), a part of them when a write failed, or [None] when the
    file could not be opened. *)
Definition append_file (fs : gmap str str) (path : str)
    (appended : option str) : gmap str str :=
  match appended with
  | None => fs
  | Some text => <[path := default [] (fs !! path) ++ text]> fs
  end.

(** The records of one [generate] call reach the log file in order;
    [logged i r] is what the [i]-th of them, [r], appends. *)
Fixpoint write_logs (logged : nat → attempt_record → option str)
    (path : str) (i : nat) (evs : list event) (fs : gmap str str)
  : gmap str str :=
  match evs with
  | [] => fs
  | EvLog r :: rest =>
      write_logs logged path (S i) rest (append_file fs path (logged i r))
  | _ :: rest => write_logs logged path i rest fs
  end.

Section Workflow.
(** [json.loads] and the text that a complete [json.dump] writes; the module
    constants that depend on the installation and the environment; and the
    outside world: for each input path, the backend's answers and the random
    draws of its [generate] call and what its log records append; for each
    path written and text, whether the write goes through. *)
Variable loads : str → result json.
Variable dumps : json → str.
Variable disk : str → str → write_fault.
Variable logged : str → nat → attempt_record → option str.
Variables (OUTPUT_DIR SYSTEM_PROMPT : str) (MAX_OUTPUT_TOKENS : nat).
Variable backend : str → nat → str → backend_request → backend_reply.
Variable rnd : str → nat → Q.

Definition output_path_of (file_name : str) : str :=
  PyStr.path_join OUTPUT_DIR
    (PyStr.replace file_name INPUT_FILE_EXT OUTPUT_FILE_EXT).

Definition error_path_of (file_name : str) : str :=
  PyStr.path_join OUTPUT_DIR (file_name ++ ERROR_FILE_SUFFIX).

Definition failed (file_name msg : str) : job_result :=
  {| jr_status := job_error; jr_file := file_name; jr_output := None;
     jr_message := Some msg |}.

(** [process_file].  Opening an input path that is not there raises.  The
    records of the [generate] call are appended to the log file of the
    provider while the call runs.  Any exception inside the [try] (of
    [get_provider], of [generate], of [json.loads] when it is not a
    [JSONDecodeError], of a write) becomes an error result with the message
    of the exception; what was written before it stays written. *)
Definition process_file (fs : gmap str str) (m : LLMManager)
    (file_path : str) (provider : option str)
  : job_result * gmap str str * LLMManager * list event :=
  let file_name := basename file_path in
  match fs !! file_path with
  | None =>
      (failed file_name
         (lit "[Errno 2] No such file or directory: '" ++ file_path ++ lit "'"),
       fs, m, [])
  | Some raw_content =>
      let optimized_content := compact_history raw_content MAX_CHARS in
      match get_provider m provider with
      | Raise e => (failed file_name (exn_msg e), fs, m, [])
      | Ok llm =>
          let '(r, llm', evs) :=
            generate (backend file_path) (rnd file_path) llm optimized_content
              (Some SYSTEM_PROMPT) DEFAULT_TEMPERATURE MAX_OUTPUT_TOKENS in
          let m' := store_provider m provider llm' in
          let fs1 :=
            write_logs (logged file_path) (log_file (kind llm)) 0 evs fs in
          let caught (e : exn) := (failed file_name (exn_msg e), fs1, m', evs) in
          let write (path text : str) (returned : job_result) :=
            match write_file fs1 path text (disk path text) with
            | (fs2, None) => (returned, fs2, m', evs)
            | (fs2, Some e) => (failed file_name (exn_msg e), fs2, m', evs)
            end in
          let save (data : json) :=
            let output_path := output_path_of file_name in
            write output_path (dumps data)
              {| jr_status := job_success; jr_file := file_name;
                 jr_output := Some output_path; jr_message := None |} in
          match r with
          | Raise e => caught e
          | Ok json_str =>
              match parse_json_safely loads json_str with
              | Raise e => caught e
              | Ok data =>
                  if truthy data then save data
                  else
                    match loads json_str with
                    | Ok data' => save data'
                    | Raise e =>
                        if is_decode_error e then
                          write (error_path_of file_name) json_str
                            (failed file_name
                               (lit "Invalid JSON output: " ++ exn_msg e))
                        else caught e
                    end
              end
          end
      end
  end.

(** The scan of [run_workflow]: the inputs still to process, and the number
    of inputs whose output is already there. *)
Fixpoint scan (input_dir : str) (fs : gmap str str) (names : list str)
  : list str * nat :=
  match names with
  | [] => ([], 0)
  | f :: rest =>
      let '(files, skipped_count) := scan input_dir fs rest in
      if PyStr.endswith f INPUT_FILE_EXT then
        match fs !! output_path_of f with
        | Some _ => (files, S skipped_count)
        | None => (PyStr.path_join input_dir f :: files, skipped_count)
        end
      else (files, skipped_count)
  end.

(** The workers, one file after the other (the schedule of a pool of one
    worker). *)
Fixpoint process_all (fs : gmap str str) (m : LLMManager)
    (files : list str) (provider : option str)
  : list job_result * gmap str str * LLMManager * list (str * list event) :=
  match files with
  | [] => ([], fs, m, [])
  | file_path :: rest =>
      let '(r, fs1, m1, evs) := process_file fs m file_path provider in
      let '(rs, fs2, m2, trace) := process_all fs1 m1 rest provider in
      (r :: rs, fs2, m2, (file_path, evs) :: trace)
  end.

(** What [run_workflow] reports on the console before it returns. *)
Inductive report :=
  | InputDirNotFound
  | NoInputFiles
  | AllAlreadyProcessed (skipped_count : nat)
  | Summary (success_count error_count : nat).

Record run := {
  reported : report;
  returned : option (list job_result);
  files_after : gmap str str;
  manager_after : LLMManager;
  provider_events : list (str * list event);
  closed : list str
}.

Definition is_success (r : job_result) : bool :=
  match jr_status r with job_success => true | job_error => false end.

(** [run_workflow]; [entries] is [os.listdir(input_dir)], or [None] when
    the directory does not exist. *)
Definition run_workflow (input_dir : str) (entries : option (list str))
    (fs : gmap str str) (m : LLMManager) (provider : option str) : run :=
  let quiet (what : report) :=
    {| reported := what; returned := None; files_after := fs;
       manager_after := m; provider_events := []; closed := [] |} in
  match entries with
  | None => quiet InputDirNotFound
  | Some names =>
      match scan input_dir fs names with
      | ([], 0) => quiet NoInputFiles
      | ([], S n) => quiet (AllAlreadyProcessed (S n))
      | (files, _) =>
          let '(results, fs', m', trace) := process_all fs m files provider in
          let success_count := length (List.filter is_success results) in
          {| reported := Summary success_count (length results - success_count);
             returned := Some results;
             files_after := fs';
             manager_after := m';
             provider_events := trace;
             closed := (close_all provider_close (providers m')).1 |}
      end
  end.

End Workflow.

(** Sample runs: a registry with one Gemini provider, an input directory
    with one transcript, and three backends. *)
Definition sample_manager : LLMManager :=
  {| providers :=
       [(lit "gemini",
         GeminiProvider default_retry_config [lit "k0"; lit "k1"]
           (lit "gemini-2.0-flash-exp"))];
     default_provider := lit "gemini" |}.

Definition sample_entries : list str := [lit "a.f.txt"; lit "notes.md"].

Definition sample_files : gmap str str :=
  {[ lit "in/a.f.txt" := lit "hello" ]}.

Definition sample_files_stale_error : gmap str str :=
  <[ lit "out/a.f.txt.error.txt" := lit "sorry" ]> sample_files.

Definition sample_files_done : gmap str str :=
  <[ lit "out/a.json" := JsonDump.dumps (JObj [(lit "a", JNum 1)]) ]>
    sample_files.

Definition rejecting_backend (_ : str) (_ : nat) (_ : str)
    (_ : backend_request) : backend_reply :=
  Fail (lit "API key not valid").

Definition answering_backend (_ : str) (_ : nat) (_ : str)
    (_ : backend_request) : backend_reply :=
  Reply object_a1 None None None.

(** A disk on which every write goes through, and a log entry reduced to
    the provider and the model of the record. *)
Definition sound_disk (_ _ : str) : write_fault := NoFault.

Definition sample_logged (_ : str) (_ : nat) (r : attempt_record)
  : option str :=
  Some (r_provider r ++ lit " " ++ r_model r ++ [nl]).

Definition sample_run
    (backend : str → nat → str → backend_request → backend_reply)
    (fs : gmap str str) : run :=
  run_workflow ref_loads JsonDump.dumps sound_disk sample_logged (lit "out")
    (lit "You are a Transcript Analysis Expert.") (16 * 1024)
    backend (fun _ _ => 0%Q) (lit "in") (Some sample_entries) fs
    sample_manager None.

(** A backend that answers with an empty object inside a fence, and a disk
    on which every write stops after the first character. *)
Definition fenced_empty_object : str := fenced [nl] [lbrace; rbrace] [nl].

Definition fenced_empty_backend (_ : str) (_ : nat) (_ : str)
    (_ : backend_request) : backend_reply :=
  Reply fenced_empty_object None None None.

Definition failing_disk (_ text : str) : write_fault :=
  Truncated (take 1 text)
    (Exn UnicodeEncodeError (lit "'utf-8' codec can't encode character")).

Definition sample_run_on (disk : str → str → write_fault)
    (backend : str → nat → str → backend_request → backend_reply)
    (fs : gmap str str) : run :=
  run_workflow ref_loads JsonDump.dumps disk sample_logged (lit "out")
    (lit "You are a Transcript Analysis Expert.") (16 * 1024)
    backend (fun _ _ => 0%Q) (lit "in") (Some sample_entries) fs
    sample_manager None.

(** A backend that is rate-limited twice and then answers. *)
Definition flaky_backend (n : nat) (_ : str) (_ : backend_request)
  : backend_reply :=
  if n <? 3 then Fail (lit "429 Too Many Requests")
  else Reply (lit "{}") None None None.

(** An environment with OpenAI keys only and no default name set. *)
Definition openai_only_env (name : str) : option str :=
  if decide (name = lit "OPENAI_API_KEYS") then Some (lit "sk-1, sk-2")
  else None.

(** Texts made of white space only, and texts without a path separator. *)
Abbreviation spaces w := (Forall (λ c, PyStr.isspace c = true) w).
Abbreviation slash := ("/"%char).
Abbreviation no_slash s := (Forall (λ c : ascii, c ≠ slash) s).

(** The sum of the sleeps of a call. *)
Definition total_seconds (ds : list Q) : Q := foldr Qplus 0%Q ds.

(** Every exception a [generate] call can end in once a key is available. *)
Definition last_record (evs : list event) : option attempt_record :=
  last (records evs).

(** Two more sample backends: one that is always rate-limited, one that
    always answers with an empty text. *)
Definition limited_backend (_ : nat) (_ : str) (_ : backend_request)
  : backend_reply :=
  Fail (lit "429 Too Many Requests").

Definition silent_backend (_ : nat) (_ : str) (_ : backend_request)
  : backend_reply :=
  Reply [] None None None.

(** [sep.join(parts)] *)
Fixpoint join_with (sep : str) (parts : list str) : str :=
  match parts with
  | [] => []
  | [x] => x
  | x :: rest => x ++ sep ++ join_with sep rest
  end.

(** A key as [parse_keys] leaves it: not empty, without a comma, and
    without white space at either end. *)
Definition clean_key (k : str) : Prop :=
  k ≠ [] ∧ (","%char ∉ k) ∧ PyStr.strip k = k.

(** [estimate_tokens] *)
Definition estimate_tokens (text : str) : nat :=
  match text with
  | [] => 0
  | _ => PyStr.len text / 3
  end.

(** The work items a run takes up: the inputs that [scan] keeps. *)
Definition taken_up (OUTPUT_DIR input_dir : str) (entries : option (list str))
    (fs : gmap str str) : list str :=
  match entries with
  | Some names => (scan OUTPUT_DIR input_dir fs names).1
  | None => []
  end.

(** [os.path.exists] on a file of the model. *)
Definition exists_file (fs : gmap str str) (path : str) : bool :=
  match fs !! path with Some _ => true | None => false end.

(** ** utils/update_json_start_time.py *)

Definition TRANSCRIPT_FIELD : str := lit "transcript".
Definition START_TIME_FIELD : str := lit "start_time".
Definition START_TIME_INCREMENT : Z := 1000.

(** [d[key] = value] on a dict kept in insertion order: the value of an
    existing key is replaced where it is, a new key goes to the end. *)
Fixpoint dict_setitem {V : Type} (d : list (str * V)) (key : str) (v : V)
  : list (str * V) :=
  match d with
  | [] => [(key, v)]
  | (k, x) :: rest =>
      if decide (k = key) then (k, v) :: rest
      else (k, x) :: dict_setitem rest key v
  end.

(** The loop [for index, item in enumerate(...)], from [index] on:
    [item['start_time'] = index * 1000].  The assignment raises on an item
    that is not an object ([None] here). *)
Fixpoint stamp_items (index : nat) (items : list json) : option (list json) :=
  match items with
  | [] => Some []
  | JObj fields :: rest =>
      match stamp_items (S index) rest with
      | Some rest' =>
          Some (JObj (dict_setitem fields START_TIME_FIELD
                        (JNum (Z.of_nat index * START_TIME_INCREMENT)))
                :: rest')
      | None => None
      end
  | _ :: _ => None
  end.

(** What happens to one decoded file: rewritten with new data, skipped
    (the "no transcript array" message), or an exception caught by the
    [except] (nothing written). *)
Inductive update_outcome :=
  | Updated (data : json)
  | Skipped
  | Failed.

Definition is_transcript_name (j : json) : bool :=
  match j with
  | JStr s => bool_decide (s = TRANSCRIPT_FIELD)
  | _ => false
  end.

(** The body of the [try] on the decoded [data].  The test
    [TRANSCRIPT_FIELD in data] is the key test on an object, the element
    test on an array, the substring test on a string, and raises on the
    other values; subscripting an array or a string with the field name
    raises. *)
Definition update_data (data : json) : update_outcome :=
  match data with
  | JObj members =>
      match dict_get members TRANSCRIPT_FIELD with
      | Some (JArr items) =>
          match stamp_items 0 items with
          | Some items' =>
              Updated (JObj (dict_set members TRANSCRIPT_FIELD (JArr items')))
          | None => Failed
          end
      | _ => Skipped
      end
  | JArr items => if existsb is_transcript_name items then Failed else Skipped
  | JStr s => if PyStr.contains TRANSCRIPT_FIELD s then Failed else Skipped
  | JNull | JBool _ | JNum _ => Failed
  end.

Section UpdateJsonFiles.
(** [json.load] and [json.dump]. *)
Variable load : str → option json.
Variable dumps : json → str.

Definition update_file (fs : gmap str str) (file_path : str) : gmap str str :=
  match fs !! file_path with
  | None => fs
  | Some text =>
      match load text with
      | None => fs
      | Some data =>
          match update_data data with
          | Updated data' => <[file_path := dumps data']> fs
          | Skipped | Failed => fs
          end
      end
  end.

(** [update_json_files]; [files] is the result of [glob.glob]. *)
Definition update_json_files (files : list str) (fs : gmap str str)
  : gmap str str :=
  foldl update_file fs files.

End UpdateJsonFiles.

(** A sample transcript document, before and after. *)
Definition sample_transcript : json :=
  JObj [(lit "title", JStr (lit "t"));
        (lit "transcript",
         JArr [JObj [(lit "text", JStr (lit "a"))];
               JObj [(lit "start_time", JNum 7); (lit "text", JStr (lit "b"))]])].

(** A text of ASCII characters only (on which the white space of the model
    is all the white space [str.strip] knows). *)
Definition ascii_text (s : str) : Prop := Forall (λ c, nat_of_ascii c < 128) s.

(* ================================================================== *)
(** * Properties *)

(** ** Credential rotation *)

Lemma serve_callers_length {C} (callers : list C) p :
  length (serve_callers callers p).1 = length callers.
Proof.
  revert p; induction callers as [|c rest IH]; intros p; simpl; [done|].
  destruct (get_next_key p) as [[key p1]|e].
  - specialize (IH p1). destruct (serve_callers rest p1); simpl in *; lia.
  - specialize (IH p). destruct (serve_callers rest p); simpl in *; lia.
Qed.

Lemma get_next_key_in_range p :
  current_key_index p < length (api_keys p) →
  ∃ key, api_keys p !! current_key_index p = Some key ∧
    get_next_key p =
      Ok (key, set_index p ((current_key_index p + 1) mod length (api_keys p))).
Proof.
  intros Hlt. unfold get_next_key.
  destruct (lookup_lt_is_Some_2 _ _ Hlt) as [key Hkey].
  exists key. by rewrite Hkey.
Qed.

Lemma serve_callers_from {C} (callers : list C) p j c :
  current_key_index p < length (api_keys p) →
  callers !! j = Some c →
  ∃ key,
    (serve_callers callers p).1 !! j = Some (c, Ok key) ∧
    api_keys p !! ((current_key_index p + j) mod length (api_keys p)) = Some key.
Proof.
  revert p j. induction callers as [|c0 rest IH]; intros p j Hlt Hj; [done|].
  destruct (get_next_key_in_range p Hlt) as (key & Hkey & Hnext).
  simpl. rewrite Hnext.
  set (p1 := set_index p _).
  assert (Hlt1 : current_key_index p1 < length (api_keys p1)).
  { subst p1; simpl. apply Nat.mod_upper_bound. lia. }
  destruct j as [|j]; simpl in Hj.
  - injection Hj as ->. exists key.
    destruct (serve_callers rest p1); simpl. split; [done|].
    rewrite Nat.add_0_r, Nat.mod_small by done. done.
  - destruct (IH p1 j Hlt1 Hj) as (key' & Hout & Hk').
    exists key'. destruct (serve_callers rest p1); simpl in *. split; [done|].
    subst p1; simpl in Hk'.
    rewrite Nat.Div0.add_mod_idemp_l in Hk'.
    by replace (current_key_index p + S j) with (current_key_index p + 1 + j) by lia.
Qed.

Lemma serve_callers_counter {C} (callers : list C) p :
  current_key_index p < length (api_keys p) →
  api_keys (serve_callers callers p).2 = api_keys p ∧
  current_key_index (serve_callers callers p).2 =
    (current_key_index p + length callers) mod length (api_keys p).
Proof.
  revert p. induction callers as [|c0 rest IH]; intros p Hlt.
  - simpl. split; [done|]. rewrite Nat.add_0_r, Nat.mod_small; done.
  - destruct (get_next_key_in_range p Hlt) as (key & Hkey & Hnext).
    simpl. rewrite Hnext.
    set (p1 := set_index p _).
    assert (Hlt1 : current_key_index p1 < length (api_keys p1)).
    { subst p1; simpl. apply Nat.mod_upper_bound. lia. }
    destruct (IH p1 Hlt1) as [Hk Hc].
    destruct (serve_callers rest p1); simpl in *. split; [done|].
    rewrite Hc. subst p1; simpl.
    rewrite Nat.Div0.add_mod_idemp_l. f_equal. lia.
Qed.

(** C4. For a provider built with a non-empty list of N keys, the k-th call
    to [get_next_key] since construction (k counted from 1, whoever the
    caller is) returns [api_keys[(k-1) mod N]]; the rotation state is the one
    counter of the instance, which after all the calls holds their number
    modulo N. *)
Theorem get_next_key_round_robin {C} (keys : list str) (model : str)
    (callers : list C) (k : nat) (c : C) :
  keys ≠ [] →
  1 ≤ k →
  callers !! (k - 1) = Some c →
  let run := serve_callers callers (init_provider keys model) in
  (∃ key, run.1 !! (k - 1) = Some (c, Ok key) ∧
          keys !! ((k - 1) mod length keys) = Some key) ∧
  current_key_index run.2 = length callers mod length keys.
Proof.
  intros Hne Hk Hc run.
  assert (Hlt : current_key_index (init_provider keys model)
                < length (api_keys (init_provider keys model))).
  { simpl. destruct keys; [done | simpl; lia]. }
  split.
  - destruct (serve_callers_from callers _ (k - 1) c Hlt Hc) as (key & H1 & H2).
    exists key. split; [exact H1 | exact H2].
  - destruct (serve_callers_counter callers _ Hlt) as [_ H]. exact H.
Qed.

Lemma get_next_key_round_robin_witness :
  let keys := [lit "k0"; lit "k1"; lit "k2"] in
  let run := serve_callers [true; false; false; true; true]
               (init_provider keys (lit "m")) in
  (∃ key, run.1 !! (5 - 1) = Some (true, Ok key) ∧
          keys !! ((5 - 1) mod length keys) = Some key) ∧
  current_key_index run.2 = 5 mod 3.
Proof.
  apply (get_next_key_round_robin [lit "k0"; lit "k1"; lit "k2"] (lit "m")
           [true; false; false; true; true] 5 true).
  - discriminate.
  - lia.
  - reflexivity.
Defined.

(** ** Retry policy *)

Lemma split_at_head {A} (pre : list A) x post y l :
  pre ++ x :: post = y :: l →
  (pre = [] ∧ x = y ∧ post = l) ∨ (∃ pre1, pre = y :: pre1 ∧ pre1 ++ x :: post = l).
Proof.
  destruct pre as [|z pre1]; simpl; intros [= -> <-].
  - by left.
  - right. by exists pre1.
Qed.

Lemma split_at_nil {A} (pre : list A) x post : pre ++ x :: post ≠ [].
Proof. by destruct pre. Qed.

Lemma uniform_bounds (jm u : Q) :
  (0 <= jm)%Q → (0 <= u)%Q → (u <= 1)%Q →
  (0 <= uniform 0 jm u)%Q ∧ (uniform 0 jm u <= jm)%Q.
Proof. intros Hj H0 H1. unfold uniform. split; nra. Qed.

Section RetryFacts.
Variable backend : nat → str → backend_request → backend_reply.
Variable rnd : nat → Q.
Variable P : Provider.
Variables (prompt : str) (system_instruction : option str).
Variables (temperature : Q) (max_tokens : nat).

Let loop := attempt_loop backend rnd P prompt system_instruction
              temperature max_tokens.

(** One iteration, case by case. *)
Ltac step_loop b :=
  simpl;
  destruct (get_next_key b) as [[api_key b1]|e] eqn:Hkey; simpl;
  [ match goal with
    | |- context [backend ?a ?k ?r] =>
        destruct (backend a k r) as [[|ch text] tin tout ttot|msg] eqn:Hreply; simpl
    end;
    try match goal with
    | |- context [is_retryable ?k ?m] =>
        destruct (is_retryable k m) eqn:Hretry; simpl
    end
  | ].

Lemma loop_calls_bound todo a b :
  length (calls (loop todo a b).2) ≤ todo.
Proof.
  revert a b. induction todo as [|todo IH]; intros a b; [simpl; lia|].
  unfold loop in *. step_loop b; try lia.
  all: specialize (IH (S a) b1);
    destruct (attempt_loop _ _ _ _ _ _ _ todo (S a) b1) as [[r b2] evs];
    simpl in *; lia.
Qed.

Lemma loop_sleeps todo a b i d :
  sleeps (loop todo a b).2 !! i = Some d →
  d = wait_time P (a + i) (rnd (a + i)).
Proof.
  revert a b i. induction todo as [|todo IH]; intros a b i; [done|].
  unfold loop in *. step_loop b; try done.
  all: specialize (IH (S a) b1);
    destruct (attempt_loop _ _ _ _ _ _ _ todo (S a) b1) as [[r b2] evs];
    simpl in *;
    destruct i as [|i]; simpl;
    [ intros [= <-]; by rewrite Nat.add_0_r
    | intros H; rewrite (IH i H); f_equal; [lia | f_equal; lia] ].
Qed.

(** Where an attempt sits in the event list: the first attempt of the loop
    opens it, and any later attempt comes right after the sleep that
    follows the attempt before it. *)
Lemma loop_call_position todo a b pre n key req post :
  (loop todo a b).2 = pre ++ EvCall n key req :: post →
  (pre = [] ∧ n = a) ∨
  (a < n ∧ ∃ pre', pre = pre' ++ [EvSleep (wait_time P (n - 1) (rnd (n - 1)))]).
Proof.
  revert a b pre. induction todo as [|todo IH]; intros a b pre.
  { simpl. intros H. symmetry in H.
    apply split_at_head in H as [(_ & ? & _)|(pre1 & _ & H)]; [done|].
    by apply split_at_nil in H. }
  unfold loop in *. step_loop b.
  6: { intros H. symmetry in H. by apply split_at_nil in H. }
  3: { intros H. symmetry in H.
       apply split_at_head in H as [(-> & [= -> _ _] & _)|(pre1 & _ & H)];
         [by left|].
       apply split_at_head in H as [(_ & ? & _)|(pre2 & _ & H)]; [done|].
       by apply split_at_nil in H. }
  2, 4: intros H; symmetry in H;
       apply split_at_head in H as [(-> & [= -> _ _] & _)|(pre1 & _ & H)];
         [by left|];
       apply split_at_head in H as [(_ & ? & _)|(pre2 & _ & H)]; [done|];
       by apply split_at_nil in H.
  all: specialize (IH (S a) b1);
    destruct (attempt_loop _ _ _ _ _ _ _ todo (S a) b1) as [[r b2] evs];
    simpl in *; intros H; symmetry in H;
    apply split_at_head in H as [(-> & [= -> _ _] & _)|(pre1 & -> & H)];
      [by left|];
    apply split_at_head in H as [(_ & ? & _)|(pre2 & -> & H)]; [done|];
    apply split_at_head in H as [(_ & ? & _)|(pre3 & -> & H)]; [done|];
    right; symmetry in H;
    destruct (IH pre3 H) as [[-> ->]|[Hlt [pre' ->]]].
  all: try (split; [lia|]; eexists [_; _]; simpl;
            by rewrite Nat.sub_0_r).
  all: split; [lia|]; by eexists (_ :: _ :: _ :: pre').
Qed.

End RetryFacts.

Lemma generate_events backend rnd P prompt sys temperature max_tokens :
  (generate backend rnd P prompt sys temperature max_tokens).2 =
  (attempt_loop backend rnd P prompt sys temperature max_tokens
     (max_retries P) 1 (base P)).2.
Proof.
  unfold generate. by destruct (attempt_loop _ _ _ _ _ _ _ _ _ _) as [[r b] evs].
Qed.

(** C2. One [generate] call makes at most [max_retries] backend attempts.
    The n-th sleep is [base_delay * 2^(n-1)] plus a jitter in
    [[0, jitter_max]] (the draw of [random.uniform(0, jitter_max)]), so it
    lies in [[base_delay * 2^(n-1), base_delay * 2^(n-1) + jitter_max]]; and
    attempt n+1, when there is one, comes right after that n-th sleep.
    Delays are exact rationals here. *)
Theorem retry_attempts_and_backoff backend rnd P prompt sys temperature max_tokens :
  (0 <= jitter_max P)%Q →
  (∀ n, (0 <= rnd n)%Q ∧ (rnd n <= 1)%Q) →
  let evs := (generate backend rnd P prompt sys temperature max_tokens).2 in
  let delay n := (retry_base_delay P * inject_Z (Z.of_nat (2 ^ (n - 1))))%Q in
  length (calls evs) ≤ max_retries P ∧
  (∀ n d, 1 ≤ n → sleeps evs !! (n - 1) = Some d →
     ∃ jitter, d = (delay n + jitter)%Q ∧
       (0 <= jitter)%Q ∧ (jitter <= jitter_max P)%Q ∧
       (delay n <= d)%Q ∧ (d <= delay n + jitter_max P)%Q) ∧
  (∀ pre n key req post, 1 ≤ n →
     evs = pre ++ EvCall (S n) key req :: post →
     ∃ pre' d, pre = pre' ++ [EvSleep d] ∧
       d = (delay n + uniform 0 (jitter_max P) (rnd n))%Q ∧
       (delay n <= d)%Q ∧ (d <= delay n + jitter_max P)%Q).
Proof.
  intros Hjm Hrnd evs delay. subst evs. rewrite generate_events.
  split; [apply loop_calls_bound|]. split.
  - intros n d Hn Hd. apply loop_sleeps in Hd.
    replace (1 + (n - 1)) with n in Hd by lia.
    destruct (Hrnd n) as [H0 H1].
    destruct (uniform_bounds _ _ Hjm H0 H1) as [Hu0 Hu1].
    exists (uniform 0 (jitter_max P) (rnd n)).
    subst d. unfold wait_time. fold (delay n).
    repeat split; try done; lra.
  - intros pre n key req post Hn Hsplit.
    apply loop_call_position in Hsplit as [[_ ?]|[_ [pre' ->]]]; [lia|].
    replace (S n - 1) with n by lia.
    destruct (Hrnd n) as [H0 H1].
    destruct (uniform_bounds _ _ Hjm H0 H1) as [Hu0 Hu1].
    exists pre', (wait_time P n (rnd n)). split; [done|].
    unfold wait_time. fold (delay n). repeat split; try done; lra.
Qed.

Lemma retry_attempts_and_backoff_witness :
  let P := GeminiProvider default_retry_config [lit "k0"; lit "k1"] (lit "m") in
  let evs := (generate flaky_backend (fun _ => 1 # 2) P (lit "hello") None
                (1 # 5) 100).2 in
  length (calls evs) ≤ 5 ∧
  (∃ d, sleeps evs !! 1 = Some d ∧ (2 <= d)%Q ∧ (d <= 2 + (1 # 2))%Q).
Proof.
  intros P evs.
  destruct (retry_attempts_and_backoff flaky_backend (fun _ => 1 # 2) P
              (lit "hello") None (1 # 5) 100) as (Hcount & Hsleep & _).
  - vm_compute. discriminate.
  - intros n. split; vm_compute; discriminate.
  - split; [exact Hcount|].
    destruct (Hsleep 2 (wait_time P 2 (1 # 2))) as (j & _ & _ & _ & Hlo & Hhi).
    + lia.
    + reflexivity.
    + exists (wait_time P 2 (1 # 2)). split; [reflexivity|].
      split; vm_compute; discriminate.
Defined.

Section RetryTrace.
Variable backend : nat → str → backend_request → backend_reply.
Variable rnd : nat → Q.
Variable P : Provider.
Variables (prompt : str) (system_instruction : option str).
Variables (temperature : Q) (max_tokens : nat).

Let loop := attempt_loop backend rnd P prompt system_instruction
              temperature max_tokens.

Lemma loop_head todo a b :
  current_key_index b < length (api_keys b) →
  ∃ key req post, (loop (S todo) a b).2 = EvCall a key req :: post.
Proof.
  intros Hlt. destruct (get_next_key_in_range b Hlt) as (key & _ & Hnext).
  unfold loop. simpl. rewrite Hnext.
  set (b1 := set_index b _).
  set (req := build_request _ _ _ _ _ _).
  destruct (backend a key req) as [[|ch text] tin tout ttot|msg]; simpl;
    try destruct (is_retryable _ _);
    try destruct (attempt_loop _ _ _ _ _ _ _ todo (S a) b1) as [[r b2] evs];
    simpl; eauto.
Qed.

Lemma loop_exhausted a b :
  ∃ rec, (loop 0 a b).2 = [EvLog rec] ∧ r_status rec = failed_after_retries.
Proof. unfold loop; simpl. eauto. Qed.

(** Every attempt in the event list: its number, the key it used, and
    what follows it. *)
Lemma loop_call_facts todo a b pre n key req post :
  current_key_index b < length (api_keys b) →
  (loop todo a b).2 = pre ++ EvCall n key req :: post →
  let N := length (api_keys b) in
  let used := (current_key_index b + (n - a)) mod N in
  a ≤ n < a + todo ∧
  api_keys b !! used = Some key ∧
  after_call P rnd (a + todo - 1) n ((current_key_index b + (n - a) + 1) mod N)
    (backend n key req) post.
Proof.
  revert a b pre. induction todo as [|todo IH]; intros a b pre Hlt.
  { simpl. intros H. symmetry in H.
    apply split_at_head in H as [(_ & ? & _)|(pre1 & _ & H)]; [done|].
    by apply split_at_nil in H. }
  destruct (get_next_key_in_range b Hlt) as (key0 & Hkey0 & Hnext).
  unfold loop in *. simpl. rewrite Hnext.
  set (b1 := set_index b _).
  assert (Hlt1 : current_key_index b1 < length (api_keys b1)).
  { subst b1; simpl. apply Nat.mod_upper_bound. lia. }
  set (req0 := build_request _ _ _ _ _ _).
  assert (Hhere : ∀ post0,
    after_call P rnd (a + S todo - 1) a (current_key_index b1)
      (backend a key0 req0) post0 →
    let N := length (api_keys b) in
    a ≤ a < a + S todo ∧
    api_keys b !! ((current_key_index b + (a - a)) mod N) = Some key0 ∧
    after_call P rnd (a + S todo - 1) a
      ((current_key_index b + (a - a) + 1) mod N) (backend a key0 req0) post0).
  { intros post0 Hafter. simpl. split; [lia|].
    rewrite Nat.sub_diag, Nat.add_0_r, Nat.mod_small by done.
    split; [done|]. exact Hafter. }
  assert (Hlater : ∀ pre3 evs,
    (attempt_loop backend rnd P prompt system_instruction temperature
       max_tokens todo (S a) b1).2 = evs →
    evs = pre3 ++ EvCall n key req :: post →
    let N := length (api_keys b) in
    a ≤ n < a + S todo ∧
    api_keys b !! ((current_key_index b + (n - a)) mod N) = Some key ∧
    after_call P rnd (a + S todo - 1) n
      ((current_key_index b + (n - a) + 1) mod N) (backend n key req) post).
  { intros pre3 evs <- Hsplit.
    destruct (IH (S a) b1 pre3 Hlt1 Hsplit) as ([Hge Hle] & Hk & Hafter).
    simpl. subst b1; simpl in *.
    rewrite Nat.Div0.add_mod_idemp_l in Hk.
    replace ((current_key_index b + 1) mod length (api_keys b) + (n - S a) + 1)
      with ((current_key_index b + 1) mod length (api_keys b) + (n - S a + 1))
      in Hafter by lia.
    rewrite Nat.Div0.add_mod_idemp_l in Hafter.
    replace (current_key_index b + 1 + (n - S a))
      with (current_key_index b + (n - a)) in Hk by lia.
    replace (current_key_index b + 1 + (n - S a + 1))
      with (current_key_index b + (n - a) + 1) in Hafter by lia.
    split; [lia|]. split; [done|].
    replace (a + S todo - 1) with (a + todo - 0) by lia. exact Hafter. }
  destruct (backend a key0 req0) as [[|ch text] tin tout ttot|msg] eqn:Hreply;
    simpl;
    try match goal with
    | |- context [is_retryable ?k ?m] =>
        destruct (is_retryable k m) eqn:Hretry; simpl
    end.
  3: { intros H. symmetry in H.
       apply split_at_head in H as [(-> & [= -> -> ->] & ->)|(pre1 & _ & H)].
       - rewrite Hreply. apply Hhere.
         unfold after_call; simpl. eauto.
       - apply split_at_head in H as [(_ & ? & _)|(pre2 & _ & H)]; [done|].
         by apply split_at_nil in H. }
  2, 4: intros H; symmetry in H;
    apply split_at_head in H as [(-> & [= -> -> ->] & ->)|(pre1 & _ & H)];
    [ rewrite Hreply; apply Hhere;
      unfold after_call; simpl; rewrite Hretry; eauto
    | apply split_at_head in H as [(_ & ? & _)|(pre2 & _ & H)]; [done|];
      by apply split_at_nil in H ].
  all: destruct (attempt_loop _ _ _ _ _ _ _ todo (S a) b1)
         as [[r b2] evs] eqn:Hrec; simpl;
    intros H; symmetry in H;
    apply split_at_head in H as [(-> & [= -> -> ->] & ->)|(pre1 & _ & H)];
    [ rewrite Hreply; apply Hhere;
      unfold after_call; simpl; rewrite Hretry;
      eexists _, evs; split; [reflexivity|];
      split; [done|]; split; [done|]; split; [done|];
      destruct todo as [|todo'];
      [ right; split; [lia|];
        destruct (loop_exhausted (S a) b1) as (rec' & Hev & Hst);
        unfold loop in Hev; rewrite Hrec in Hev; simpl in Hev; eauto
      | left; split; [lia|];
        destruct (loop_head todo' (S a) b1 Hlt1) as (k' & r' & p' & Hev);
        unfold loop in Hev; rewrite Hrec in Hev; simpl in Hev; eauto ]
    | apply split_at_head in H as [(_ & ? & _)|(pre2 & _ & H)]; [done|];
      apply split_at_head in H as [(_ & ? & _)|(pre3 & _ & H)]; [done|];
      apply (Hlater pre3 evs); [first [done | by rewrite Hrec] | done] ].
Qed.

End RetryTrace.

Lemma is_retryable_keyword k msg :
  is_retryable k msg = true ↔
  ∃ keyword, keyword ∈ retry_keywords k ∧
             PyStr.contains keyword (PyStr.lower msg) = true.
Proof.
  unfold is_retryable. rewrite existsb_exists.
  split; intros (kw & Hin & Hc); exists kw; split; try done;
    by apply list_elem_of_In.
Qed.

(** C3, as the code has it.  Each provider classifies a failure by its own
    keyword list, looked up as substrings of the lower-cased message:
    rate, quota, 429, 500, 503 for Gemini and rate, limit, 429, 500, 503 for
    OpenAI.  A failure of attempt n that contains such a keyword is logged
    as [rate_limited] and followed by the backoff sleep; then, while
    n < max_retries, attempt n+1 runs with the next key of the rotation, and
    after attempt max_retries the call ends with [failed_after_retries].
    A failure without any keyword of the provider ends the call at once with
    an [error] record. *)
Theorem retryable_failure_is_retried backend rnd P prompt sys temperature
    max_tokens pre n key req post msg :
  current_key_index (base P) < length (api_keys (base P)) →
  (generate backend rnd P prompt sys temperature max_tokens).2
    = pre ++ EvCall n key req :: post →
  failure_of (kind P) (backend n key req) = Some msg →
  let N := length (api_keys (base P)) in
  let i0 := current_key_index (base P) in
  api_keys (base P) !! ((i0 + (n - 1)) mod N) = Some key ∧
  ((∃ keyword, keyword ∈ retry_keywords (kind P) ∧
               PyStr.contains keyword (PyStr.lower msg) = true) →
   ∃ rec rest,
     post = EvLog rec :: EvSleep (wait_time P n (rnd n)) :: rest ∧
     r_status rec = rate_limited ∧
     ((n < max_retries P ∧
       ∃ key' req' post', rest = EvCall (S n) key' req' :: post' ∧
                          api_keys (base P) !! ((i0 + n) mod N) = Some key') ∨
      (n = max_retries P ∧
       ∃ rec', rest = [EvLog rec'] ∧ r_status rec' = failed_after_retries))) ∧
  ((∀ keyword, keyword ∈ retry_keywords (kind P) →
               PyStr.contains keyword (PyStr.lower msg) = false) →
   ∃ rec, post = [EvLog rec] ∧ r_status rec = error).
Proof.
  intros Hlt Hsplit Hfail N i0. rewrite generate_events in Hsplit.
  destruct (loop_call_facts _ _ _ _ _ _ _ _ _ _ _ _ _ _ _ Hlt Hsplit)
    as (Hrange & Hkey & Hafter).
  split; [exact Hkey|].
  unfold after_call in Hafter. rewrite Hfail in Hafter.
  split.
  - intros Hkw. apply is_retryable_keyword in Hkw. rewrite Hkw in Hafter.
    destruct Hafter as (rec & rest & -> & Hst & _ & _ & Hnext).
    exists rec, rest. split; [done|]. split; [done|].
    destruct Hnext as [[Hn (key' & req' & post' & ->)]|[Hn Hend]].
    + left. split; [lia|]. exists key', req', post'. split; [done|].
      assert (Hsplit' :
        (attempt_loop backend rnd P prompt sys temperature max_tokens
           (max_retries P) 1 (base P)).2
        = (pre ++ [EvCall n key req; EvLog rec;
                   EvSleep (wait_time P n (rnd n))])
          ++ EvCall (S n) key' req' :: post').
      { rewrite Hsplit, <- app_assoc. done. }
      destruct (loop_call_facts _ _ _ _ _ _ _ _ _ _ _ _ _ _ _ Hlt Hsplit')
        as (_ & Hkey' & _).
      by replace (S n - 1) with n in Hkey' by lia.
    + right. split; [lia | exact Hend].
  - intros Hnone.
    destruct (is_retryable (kind P) msg) eqn:Hre.
    + apply is_retryable_keyword in Hre as (kw & Hin & Hc).
      rewrite (Hnone kw Hin) in Hc. done.
    + destruct Hafter as (rec & -> & Hst & _). eauto.
Qed.

Lemma retryable_failure_is_retried_witness :
  let P := OpenAIProvider default_retry_config [lit "k0"; lit "k1"] (lit "m")
             None in
  let evs := (generate flaky_backend (fun _ => 1 # 2) P (lit "hello") None
                (1 # 5) 100).2 in
  ∃ rec rest,
    tail evs = EvLog rec :: EvSleep (wait_time P 1 (1 # 2)) :: rest ∧
    r_status rec = rate_limited ∧
    ∃ req' post', rest = EvCall 2 (lit "k1") req' :: post'.
Proof.
  intros P evs.
  destruct (retryable_failure_is_retried flaky_backend (fun _ => 1 # 2) P
              (lit "hello") None (1 # 5) 100 []
              1 (lit "k0")
              (build_request P (set_index (base P) 1) (lit "hello") None
                 (1 # 5) 100)
              (tail evs) (lit "429 Too Many Requests"))
    as (_ & Hretry & _).
  - simpl. lia.
  - reflexivity.
  - reflexivity.
  - destruct Hretry as (rec & rest & Hpost & Hst & Hnext).
    + exists (lit "429"). split; [|reflexivity].
      simpl. apply list_elem_of_In. simpl. tauto.
    + exists rec, rest. split; [exact Hpost|]. split; [exact Hst|].
      destruct Hnext as [[_ (key' & req' & post' & Hrest & Hk)]|[Hn _]].
      * injection Hk as <-. eauto.
      * discriminate Hn.
Defined.

(** C3 as stated fails: a quota failure is retried by the Gemini provider
    but ends the OpenAI call at the first attempt, and a 502 failure is not
    retried by either provider. *)
Lemma quota_failure_not_retried_by_openai :
  let msg := lit "Quota exceeded for this project" in
  let P := OpenAIProvider default_retry_config [lit "k0"; lit "k1"] (lit "m")
             None in
  let evs := (generate (fun _ _ _ => Fail msg) (fun _ => 0%Q) P (lit "hello")
                None (1 # 5) 100).2 in
  max_retries P = 5 ∧
  is_retryable Gemini msg = true ∧
  is_retryable OpenAI msg = false ∧
  calls evs = [(1, lit "k0")] ∧
  sleeps evs = [] ∧
  map r_status (records evs) = [error] ∧
  is_retryable Gemini (lit "502 Bad Gateway") = false ∧
  is_retryable OpenAI (lit "502 Bad Gateway") = false.
Proof. repeat split; reflexivity. Qed.

(** ** The key index written in the telemetry records *)

(** The record written for an attempt holds the index that follows, in the
    rotation, the index of the key the attempt used. *)
Lemma record_index_is_next backend rnd P prompt sys temperature max_tokens
    pre n key req rec post :
  current_key_index (base P) < length (api_keys (base P)) →
  (generate backend rnd P prompt sys temperature max_tokens).2
    = pre ++ EvCall n key req :: EvLog rec :: post →
  let N := length (api_keys (base P)) in
  let used := (current_key_index (base P) + (n - 1)) mod N in
  api_keys (base P) !! used = Some key ∧
  r_api_key_index rec = (used + 1) mod N.
Proof.
  intros Hlt Hsplit N used. rewrite generate_events in Hsplit.
  destruct (loop_call_facts _ _ _ _ _ _ _ _ _ _ _ _ _ _ _ Hlt Hsplit)
    as (Hrange & Hkey & Hafter).
  split; [exact Hkey|].
  subst used N. rewrite Nat.Div0.add_mod_idemp_l.
  unfold after_call in Hafter.
  destruct (failure_of _ _) as [msg|].
  - destruct (is_retryable _ _).
    + destruct Hafter as (rec' & rest & [= <- _] & _ & _ & Hidx & _). done.
    + destruct Hafter as (rec' & [= <- _] & _ & _ & Hidx). done.
  - destruct Hafter as (rec' & [= <- _] & _ & Hidx). done.
Qed.

(** C9 on a provider with two keys: the first attempt uses key 0, and its
    success record says 1. *)
Lemma success_record_names_the_next_key :
  let P := GeminiProvider default_retry_config [lit "k0"; lit "k1"] (lit "m") in
  let evs := (generate (fun _ _ _ => Reply (lit "{}") None None None)
                (fun _ => 0%Q) P (lit "hello") None (1 # 5) 100).2 in
  calls evs = [(1, lit "k0")] ∧
  api_keys (base P) !! 0 = Some (lit "k0") ∧
  map r_status (records evs) = [success] ∧
  map r_api_key_index (records evs) = [1].
Proof. repeat split; reflexivity. Qed.

(** ** Provider registry *)

Lemma close_all_no_failure {Pv} (close : Pv → result unit) owned :
  (∀ name p, (name, p) ∈ owned → close p = Ok tt) →
  close_all close owned = (map fst owned, Ok tt).
Proof.
  induction owned as [|[name p] rest IH]; intros Hok; [done|].
  simpl. rewrite (Hok name p) by apply list_elem_of_here.
  rewrite IH; [done|]. intros n q Hin. apply (Hok n q). by apply list_elem_of_further.
Qed.

Lemma close_all_first_failure {Pv} (close : Pv → result unit)
    before name p e after :
  (∀ n q, (n, q) ∈ before → close q = Ok tt) →
  close p = Raise e →
  close_all close (before ++ (name, p) :: after)
  = (map fst before ++ [name], Raise e).
Proof.
  induction before as [|[n q] rest IH]; intros Hok Hfail; simpl.
  - by rewrite Hfail.
  - rewrite (Hok n q) by apply list_elem_of_here.
    rewrite IH; [done| |done].
    intros n' q' Hin. apply (Hok n' q'). by apply list_elem_of_further.
Qed.

(** C6, as the code has it.  [close_all] calls [close()] on the owned
    providers in the order of registration.  The [close()] of the two
    concrete providers does nothing and cannot fail, so shutdown of a
    registry of such providers calls [close()] on every one of them; and so
    does any shutdown in which no [close()] fails.  Nothing catches a failure
    of [close()]: it leaves the loop, the providers after the failing one are
    not closed, and the exception reaches the caller. *)
Theorem close_all_stops_at_first_failure :
  (∀ m : LLMManager,
     close_all provider_close (providers m)
     = (get_available_providers m, Ok tt)) ∧
  (∀ (Pv : Type) (close : Pv → result unit) owned,
     (∀ name p, (name, p) ∈ owned → close p = Ok tt) →
     close_all close owned = (map fst owned, Ok tt)) ∧
  (∀ (Pv : Type) (close : Pv → result unit) before name p e after,
     (∀ n q, (n, q) ∈ before → close q = Ok tt) →
     close p = Raise e →
     close_all close (before ++ (name, p) :: after)
     = (map fst before ++ [name], Raise e)).
Proof.
  split; [|split].
  - intros m. by apply close_all_no_failure.
  - intros Pv close owned. apply close_all_no_failure.
  - intros Pv close before name p e after. apply close_all_first_failure.
Qed.

(** C6 as stated fails: with two owned providers of which the first fails
    to close, [close()] is never called on the second. *)
Lemma close_failure_skips_remaining_providers :
  let close (healthy : bool) : result unit :=
    if healthy then Ok tt
    else Raise (Exn Exception (lit "connection already closed")) in
  let owned := [(lit "gemini", false); (lit "openai", true)] in
  (close_all close owned).1 = [lit "gemini"] ∧
  (lit "openai" ∉ (close_all close owned).1) ∧
  (close_all close owned).2
  = Raise (Exn Exception (lit "connection already closed")).
Proof.
  simpl. split; [done|]. split; [|done].
  intros Hin. apply list_elem_of_In in Hin. simpl in Hin.
  destruct Hin as [H|[]]. discriminate H.
Qed.

Lemma close_all_stops_at_first_failure_witness :
  let close (healthy : bool) : result unit :=
    if healthy then Ok tt else Raise (Exn Exception (lit "closed")) in
  close_all close ([(lit "a", true)] ++ (lit "b", false) :: [(lit "c", true)])
  = (map fst [(lit "a", true)] ++ [lit "b"],
     Raise (Exn Exception (lit "closed"))).
Proof.
  intros close.
  destruct close_all_stops_at_first_failure as (_ & _ & Hfail).
  apply (Hfail bool close [(lit "a", true)] (lit "b") false
           (Exn Exception (lit "closed")) [(lit "c", true)]).
  - intros n q Hin. apply list_elem_of_In in Hin. simpl in Hin.
    destruct Hin as [[= <- <-]|[]]. reflexivity.
  - reflexivity.
Defined.

Lemma load_providers_raises_iff gemini_cfg openai_cfg env :
  (∃ e, _load_providers gemini_cfg openai_cfg env = Raise e) ↔
  loaded_providers gemini_cfg openai_cfg env = [].
Proof.
  unfold _load_providers.
  destruct (loaded_providers gemini_cfg openai_cfg env) as [|[first P0] rest].
  - split; [done|]. eauto.
  - split; [intros [e He]; discriminate He | done].
Qed.

(** C10. When providers were loaded and the configured default name (the
    lower-cased [DEFAULT_AI_PROVIDER], "gemini" when unset) is not one of
    them, initialization succeeds with the first loaded provider as the
    default, and [get_provider] without a name returns that provider.
    Initialization raises exactly when no provider was loaded. *)
Theorem default_falls_back_to_first_loaded gemini_cfg openai_cfg env
    first P0 rest :
  loaded_providers gemini_cfg openai_cfg env = (first, P0) :: rest →
  dict_get (loaded_providers gemini_cfg openai_cfg env)
    (PyStr.lower (getenv env (lit "DEFAULT_AI_PROVIDER") (lit "gemini")))
  = None →
  (∃ m, _load_providers gemini_cfg openai_cfg env = Ok m ∧
        providers m = (first, P0) :: rest ∧
        default_provider m = first ∧
        get_provider m None = Ok P0) ∧
  (∀ env', (∃ e, _load_providers gemini_cfg openai_cfg env' = Raise e) ↔
           loaded_providers gemini_cfg openai_cfg env' = []).
Proof.
  intros Hloaded Hdefault. split; [|intros env'; apply load_providers_raises_iff].
  unfold _load_providers. rewrite Hdefault, Hloaded.
  eexists. split; [reflexivity|]. simpl. split; [done|]. split; [done|].
  unfold get_provider; simpl. by rewrite decide_True.
Qed.

Lemma default_falls_back_to_first_loaded_witness :
  ∃ m, _load_providers default_retry_config default_retry_config
         openai_only_env = Ok m ∧
       default_provider m = lit "openai" ∧
       (∃ P0, get_provider m None = Ok P0 ∧ kind P0 = OpenAI ∧
              api_keys (base P0) = [lit "sk-1"; lit "sk-2"]).
Proof.
  destruct (default_falls_back_to_first_loaded default_retry_config
              default_retry_config openai_only_env (lit "openai")
              (OpenAIProvider default_retry_config [lit "sk-1"; lit "sk-2"]
                 (lit "gpt-4o-mini") None) [])
    as [(m & Hload & _ & Hdef & Hget) _].
  - reflexivity.
  - reflexivity.
  - exists m. split; [exact Hload|]. split; [exact Hdef|].
    eexists. split; [exact Hget|]. split; reflexivity.
Defined.

(** ** JSON extraction *)

Lemma after_first_split c s r :
  after_first c s = Some r → ∃ pre, s = pre ++ c :: r ∧ c ∉ pre.
Proof.
  revert r. induction s as [|x s IH]; intros r; simpl; [done|].
  destruct (Ascii.eqb_spec x c) as [->|Hne].
  - intros [= ->]. exists []. split; [done|]. apply not_elem_of_nil.
  - intros Hr. destruct (IH r Hr) as (pre & -> & Hnot).
    exists (x :: pre). split; [done|].
    intros Hin. apply elem_of_cons in Hin as [->|Hin]; done.
Qed.

Lemma search_braces_span text matched :
  search_braces text = Some matched →
  ∃ before inner after,
    text = before ++ matched ++ after ∧
    matched = lbrace :: inner ++ [rbrace] ∧
    (lbrace ∉ before) ∧ (rbrace ∉ after).
Proof.
  unfold search_braces.
  destruct (after_first lbrace text) as [rest|] eqn:Hopen; [|done].
  destruct (after_first rbrace (rev rest)) as [inner|] eqn:Hclose; [|done].
  intros [= <-].
  apply after_first_split in Hopen as (before & -> & Hbefore).
  apply after_first_split in Hclose as (tail & Hrev & Htail).
  exists before, (rev inner), (rev tail).
  split; [|split; [done|split; [done|]]].
  - apply (f_equal (@rev ascii)) in Hrev. rewrite rev_involutive in Hrev.
    rewrite Hrev, rev_app_distr. simpl. by rewrite <- !app_assoc.
  - intros Hin. apply Htail. apply list_elem_of_In, in_rev.
    by apply list_elem_of_In.
Qed.

(** C7, as the code has it.  [parse_json_safely] makes three attempts in a
    fixed order: the text as it is; else the text with the fence markers
    removed and stripped; else the match of the regular expression, which is
    the span from the first opening brace of the text to its last closing
    brace.  When the first two attempts fail and that span is valid JSON, the
    decoded span is returned; when the span is not valid JSON, or the text
    has no such span, nothing ([None]) is returned.  "Fails" and "not valid"
    are the [JSONDecodeError]: any other exception of [json.loads], at
    whichever attempt is reached, is not caught and leaves the extraction. *)
Theorem parse_json_safely_order (loads : str → result json)
    (text matched : str) (data : json) :
  not_json (loads text) = true →
  not_json (loads (clean_text text)) = true →
  search_braces text = Some matched →
  loads matched = Ok data →
  parse_json_safely loads text = Ok data ∧
  (∃ before inner after,
     text = before ++ matched ++ after ∧
     matched = lbrace :: inner ++ [rbrace] ∧
     (lbrace ∉ before) ∧ (rbrace ∉ after)) ∧
  (∀ text' data', loads text' = Ok data' →
                  parse_json_safely loads text' = Ok data') ∧
  (∀ text' data', not_json (loads text') = true →
                  loads (clean_text text') = Ok data' →
                  parse_json_safely loads text' = Ok data') ∧
  (∀ text' matched',
     not_json (loads text') = true →
     not_json (loads (clean_text text')) = true →
     search_braces text' = Some matched' →
     not_json (loads matched') = true →
     parse_json_safely loads text' = Ok JNull) ∧
  (∀ text',
     not_json (loads text') = true →
     not_json (loads (clean_text text')) = true →
     search_braces text' = None →
     parse_json_safely loads text' = Ok JNull) ∧
  (∀ text' e,
     is_decode_error e = false →
     loads text' = Raise e ∨
     (not_json (loads text') = true ∧ loads (clean_text text') = Raise e) ∨
     (not_json (loads text') = true ∧
      not_json (loads (clean_text text')) = true ∧
      ∃ matched', search_braces text' = Some matched' ∧
                  loads matched' = Raise e) →
     parse_json_safely loads text' = Raise e).
Proof.
  assert (Hnot : ∀ r : result json, not_json r = true →
            ∃ e, r = Raise e ∧ is_decode_error e = true).
  { intros [d|e]; [done|]. simpl. eauto. }
  intros H1 H2 H3 H4. unfold parse_json_safely, try_loads.
  split.
  { apply Hnot in H1 as (e1 & -> & ->). apply Hnot in H2 as (e2 & -> & ->).
    by rewrite H3, H4. }
  split; [by apply search_braces_span|].
  split; [intros text' data' H; by rewrite H|].
  split.
  { intros text' data' Ha Hb. apply Hnot in Ha as (e1 & -> & ->).
    by rewrite Hb. }
  split.
  { intros text' matched' Ha Hb Hc Hd.
    apply Hnot in Ha as (e1 & -> & ->). apply Hnot in Hb as (e2 & -> & ->).
    rewrite Hc. by apply Hnot in Hd as (e3 & -> & ->). }
  split.
  { intros text' Ha Hb Hc.
    apply Hnot in Ha as (e1 & -> & ->). apply Hnot in Hb as (e2 & -> & ->).
    by rewrite Hc. }
  intros text' e He [Ha|[[Ha Hb]|(Ha & Hb & matched' & Hc & Hd)]].
  - by rewrite Ha, He.
  - apply Hnot in Ha as (e1 & -> & ->). by rewrite Hb, He.
  - apply Hnot in Ha as (e1 & -> & ->). apply Hnot in Hb as (e2 & -> & ->).
    by rewrite Hc, Hd, He.
Qed.

Lemma parse_json_safely_order_witness :
  parse_json_safely ref_loads prose_with_object
  = Ok (JObj [(lit "a", JNum 1)]).
Proof.
  destruct (parse_json_safely_order ref_loads prose_with_object object_a1
              (JObj [(lit "a", JNum 1)])) as [Hdata _];
    [reflexivity | reflexivity | reflexivity | reflexivity | exact Hdata].
Defined.

(** C7 as stated fails: in a text with two objects the first two attempts
    fail, the first brace-delimited object is valid JSON, and the extraction
    returns nothing, because the expression matches up to the last closing
    brace. *)
Lemma first_object_not_extracted :
  not_json (ref_loads two_objects) = true ∧
  not_json (ref_loads (clean_text two_objects)) = true ∧
  spec_first_brace_object two_objects = Some object_a1 ∧
  ref_loads object_a1 = Ok (JObj [(lit "a", JNum 1)]) ∧
  search_braces two_objects = Some two_objects ∧
  parse_json_safely ref_loads two_objects = Ok JNull.
Proof. repeat split; reflexivity. Qed.

(** *** Removing the fence markers *)

Ltac case_eqb :=
  match goal with
  | |- context [Ascii.eqb ?x ?y] => destruct (Ascii.eqb_spec x y)
  end.

Lemma startswith_fence s :
  PyStr.startswith fence s = true ↔
  ∃ r, s = backtick :: backtick :: backtick :: r.
Proof.
  split.
  - unfold fence, lit.
    destruct s as [|a [|b [|c r]]];
      cbn [list_ascii_of_string PyStr.startswith]; try done;
      repeat (case_eqb; try done).
    subst; intros _; by exists r.
  - intros [r ->]. reflexivity.
Qed.

Lemma startswith_fence_json s :
  PyStr.startswith fence_json s = true →
  ∃ r, s = backtick :: backtick :: backtick :: ascii_of_nat 106 :: r.
Proof.
  unfold fence_json, lit.
  destruct s as [|a [|b [|c [|d r]]]];
    cbn [list_ascii_of_string PyStr.startswith]; try done;
    repeat (case_eqb; try done).
  subst. intros _. by exists r.
Qed.

Lemma contains_cons sub c s :
  PyStr.contains sub (c :: s) = false →
  PyStr.startswith sub (c :: s) = false ∧ PyStr.contains sub s = false.
Proof. simpl. intros H. by apply orb_false_elim in H. Qed.

(** The closing fence after a text without fence completes no opening
    fence marker. *)
Lemma replace_fence_json_keeps t :
  PyStr.contains fence t = false →
  PyStr.replace_go fence_json [] 0 (t ++ fence) = t ++ fence.
Proof.
  induction t as [|c t IH]; intros Hno; [reflexivity|].
  apply contains_cons in Hno as [Hhead Hrest].
  change ((c :: t) ++ fence) with (c :: (t ++ fence)).
  cbn [PyStr.replace_go].
  destruct (PyStr.startswith fence_json (c :: t ++ fence)) eqn:Hstart.
  - exfalso. apply startswith_fence_json in Hstart as [r Hr].
    destruct t as [|x [|y t]]; simpl in Hr.
    + discriminate Hr.
    + discriminate Hr.
    + injection Hr as -> -> -> _.
      assert (PyStr.startswith fence (backtick :: backtick :: backtick :: t) = true)
        by reflexivity.
      congruence.
  - by rewrite IH.
Qed.

(** The second [replace] removes the closing fence and nothing else. *)
Lemma replace_fence_removes_closing t :
  PyStr.contains fence t = false →
  PyStr.replace_go fence [] 0 (t ++ fence) = t.
Proof.
  induction t as [|c t IH]; intros Hno; [reflexivity|].
  apply contains_cons in Hno as [Hhead Hrest].
  change ((c :: t) ++ fence) with (c :: (t ++ fence)).
  cbn [PyStr.replace_go].
  destruct (PyStr.startswith fence (c :: t ++ fence)) eqn:Hstart.
  - apply startswith_fence in Hstart as [r Hr].
    destruct t as [|x [|y t]]; simpl in Hr.
    + injection Hr as -> _. reflexivity.
    + injection Hr as -> -> _. reflexivity.
    + injection Hr as -> -> -> _.
      assert (PyStr.startswith fence (backtick :: backtick :: backtick :: t) = true)
        by reflexivity.
      congruence.
  - by rewrite IH.
Qed.

Lemma replace_opening_fence u :
  PyStr.replace (fence_json ++ u) fence_json []
  = PyStr.replace_go fence_json [] 0 u.
Proof. reflexivity. Qed.

Lemma remove_fences body :
  PyStr.contains fence body = false →
  PyStr.replace (PyStr.replace (fence_json ++ body ++ fence) fence_json [])
    fence [] = body.
Proof.
  intros Hno. rewrite replace_opening_fence, replace_fence_json_keeps by done.
  by apply replace_fence_removes_closing.
Qed.

(** *** White space around a text *)

Lemma lstrip_spaces_app w s : spaces w → PyStr.lstrip (w ++ s) = PyStr.lstrip s.
Proof. induction 1 as [|c w Hc _ IH]; simpl; [done|]. by rewrite Hc. Qed.

Lemma lstrip_spaces w : spaces w → PyStr.lstrip w = [].
Proof. intros H. rewrite <- (app_nil_r w). by rewrite lstrip_spaces_app. Qed.

Lemma lstrip_app s w :
  PyStr.lstrip (s ++ w)
  = match PyStr.lstrip s with [] => PyStr.lstrip w | _ => PyStr.lstrip s ++ w end.
Proof.
  induction s as [|c s IH]; simpl; [done|].
  destruct (PyStr.isspace c); [exact IH | done].
Qed.

Lemma lstrip_split s : ∃ w, s = w ++ PyStr.lstrip s ∧ spaces w.
Proof.
  induction s as [|c s (w & Hs & Hw)]; simpl.
  - by exists [].
  - destruct (PyStr.isspace c) eqn:Hc.
    + exists (c :: w). split; [simpl; congruence | by constructor].
    + by exists [].
Qed.

Lemma spaces_rev w : spaces w → spaces (rev w).
Proof.
  intros H. apply Forall_forall. intros c Hc.
  apply list_elem_of_In, in_rev, list_elem_of_In in Hc.
  by apply (proj1 (Forall_forall _ _) H).
Qed.

Lemma rstrip_split s : ∃ w, s = PyStr.rstrip s ++ w ∧ spaces w.
Proof.
  destruct (lstrip_split (rev s)) as (w & Hs & Hw).
  exists (rev w). split; [|by apply spaces_rev].
  unfold PyStr.rstrip. rewrite <- rev_app_distr, <- Hs. by rewrite rev_involutive.
Qed.

Lemma rstrip_app_spaces s w : spaces w → PyStr.rstrip (s ++ w) = PyStr.rstrip s.
Proof.
  intros Hw. unfold PyStr.rstrip.
  by rewrite rev_app_distr, lstrip_spaces_app by by apply spaces_rev.
Qed.

Lemma strip_padding before text after :
  spaces before → spaces after →
  PyStr.strip (before ++ text ++ after) = PyStr.strip text.
Proof.
  intros Hb Ha. unfold PyStr.strip.
  rewrite lstrip_spaces_app by done. rewrite lstrip_app.
  destruct (PyStr.lstrip text) as [|c r] eqn:Ht.
  - by rewrite lstrip_spaces.
  - by rewrite rstrip_app_spaces.
Qed.

Lemma space_not_backtick c : PyStr.isspace c = true → c ≠ backtick.
Proof. intros Hc ->. discriminate Hc. Qed.

Lemma contains_fence_spaces_app w s :
  spaces w → PyStr.contains fence (w ++ s) = PyStr.contains fence s.
Proof.
  induction 1 as [|c w Hc _ IH]; [done|].
  change ((c :: w) ++ s) with (c :: (w ++ s)). cbn [PyStr.contains].
  rewrite IH.
  destruct (PyStr.startswith fence (c :: w ++ s)) eqn:Hstart; [|done].
  apply startswith_fence in Hstart as [r [= -> _]].
  by apply space_not_backtick in Hc.
Qed.

Lemma contains_fence_app_spaces s w :
  spaces w → PyStr.contains fence s = false →
  PyStr.contains fence (s ++ w) = false.
Proof.
  intros Hw. induction s as [|c s IH]; intros Hno.
  - change ([] ++ w) with w. rewrite <- (app_nil_r w).
    rewrite contains_fence_spaces_app by done. reflexivity.
  - apply contains_cons in Hno as [Hhead Hrest].
    change ((c :: s) ++ w) with (c :: (s ++ w)). cbn [PyStr.contains].
    rewrite (IH Hrest), orb_false_r.
    destruct (PyStr.startswith fence (c :: s ++ w)) eqn:Hstart; [|done].
    exfalso. apply startswith_fence in Hstart as [r Hr].
    destruct s as [|x [|y s]]; simpl in Hr.
    + injection Hr as -> ->. inversion Hw as [|? ? Hc _]; subst.
      by apply space_not_backtick in Hc.
    + injection Hr as -> -> ->. inversion Hw as [|? ? Hc _]; subst.
      by apply space_not_backtick in Hc.
    + injection Hr as -> -> -> _.
      assert (PyStr.startswith fence (backtick :: backtick :: backtick :: s) = true)
        by reflexivity.
      congruence.
Qed.

Lemma contains_fence_padding before text after :
  spaces before → spaces after →
  PyStr.contains fence text = false →
  PyStr.contains fence (before ++ text ++ after) = false.
Proof.
  intros Hb Ha Hno. rewrite contains_fence_spaces_app by done.
  by apply contains_fence_app_spaces.
Qed.

Lemma clean_text_fenced before text after :
  spaces before → spaces after →
  PyStr.contains fence text = false →
  clean_text (fenced before text after) = PyStr.strip text.
Proof.
  intros Hb Ha Hno. unfold clean_text, fenced.
  replace (fence_json ++ before ++ text ++ after ++ fence)
    with (fence_json ++ (before ++ text ++ after) ++ fence)
    by by rewrite <- !app_assoc.
  rewrite remove_fences by by apply contains_fence_padding.
  by apply strip_padding.
Qed.

Section FencedResponse.
(** [json.loads], with the two facts about it that matter here: a text
    that begins with a backtick is not JSON, and a text that decodes still
    decodes, to the same value, once the white space around it is gone. *)
Variable loads : str → result json.
Hypothesis loads_backtick : ∀ s, not_json (loads (backtick :: s)) = true.
Hypothesis loads_strip :
  ∀ s data, loads s = Ok data → loads (PyStr.strip s) = Ok data.

(** C8, as the code has it.  A response that decodes directly and contains
    no run of three backticks, wrapped between the fence markers (with any
    white space, such as the line breaks, between the markers and the
    response), is extracted to the same value as the response alone. *)
Theorem fenced_response_same_object (text : str) (data : json)
    (before after : str) :
  loads text = Ok data →
  PyStr.contains fence text = false →
  spaces before → spaces after →
  parse_json_safely loads (fenced before text after) = Ok data ∧
  parse_json_safely loads text = Ok data.
Proof.
  intros Hdata Hno Hb Ha. unfold parse_json_safely, try_loads.
  rewrite Hdata. split; [|done].
  pose proof (loads_backtick (tail (fenced before text after))) as Hfirst.
  change (backtick :: tail (fenced before text after))
    with (fenced before text after) in Hfirst.
  destruct (loads (fenced before text after)) as [d|e]; [done|].
  simpl in Hfirst. rewrite Hfirst.
  rewrite clean_text_fenced by done.
  by rewrite (loads_strip _ _ Hdata).
Qed.

End FencedResponse.

(** *** The reference decoder and white space *)

(** The ten white-space characters, one at a time. *)
Ltac each_space c Hc :=
  destruct c as [[] [] [] [] [] [] [] []]; try discriminate Hc.

Lemma step_space st c out st' toks :
  PyStr.isspace c = true →
  JsonRef.step st c = Some (out, st') →
  JsonRef.finish st' = Some toks →
  JsonRef.finish st = Some (out ++ toks).
Proof.
  intros Hc Hstep Hfin. each_space c Hc.
  all: destruct st as [|acc|acc|negative digits|k seen].
  all: try (cbn in Hstep; discriminate Hstep).
  all: try (cbn in Hstep; injection Hstep as <- <-; cbn in Hfin |- *;
            first [discriminate Hfin | exact Hfin]).
  all: try (cbn in Hstep;
            destruct (JsonRef.number_token negative digits) as [tok|] eqn:Htok;
            [|discriminate Hstep];
            first [discriminate Hstep |
                   injection Hstep as <- <-; cbn in Hfin |- *;
                   rewrite Htok; by injection Hfin as <-]).
  all: destruct k; destruct seen as [|[|[|[|[|seen]]]]];
    cbn in Hstep; discriminate Hstep.
Qed.

Lemma lex_go_spaces st w toks :
  spaces w → JsonRef.lex_go st w = Some toks → JsonRef.finish st = Some toks.
Proof.
  intros Hw. revert st toks.
  induction Hw as [|c w Hc _ IH]; intros st toks; simpl; [done|].
  destruct (JsonRef.step st c) as [[out st']|] eqn:Hstep; [|done].
  destruct (JsonRef.lex_go st' w) as [toks'|] eqn:Hrest; [|done].
  intros [= <-]. eapply step_space; eauto.
Qed.

Lemma lex_go_drop_spaces st t w toks :
  spaces w →
  JsonRef.lex_go st (t ++ w) = Some toks → JsonRef.lex_go st t = Some toks.
Proof.
  intros Hw. revert st toks. induction t as [|c t IH]; intros st toks.
  - simpl. by apply lex_go_spaces.
  - simpl. destruct (JsonRef.step st c) as [[out st']|]; [|done].
    destruct (JsonRef.lex_go st' (t ++ w)) as [toks'|] eqn:Hrest; [|done].
    intros [= <-]. by rewrite (IH _ _ Hrest).
Qed.

Lemma step_start_space c out st' :
  PyStr.isspace c = true →
  JsonRef.step_start c = Some (out, st') → out = [] ∧ st' = JsonRef.LStart.
Proof.
  intros Hc Hstep. each_space c Hc.
  all: cbn in Hstep; first [discriminate Hstep | by injection Hstep as <- <-].
Qed.

Lemma lex_lstrip s toks :
  JsonRef.lex s = Some toks → JsonRef.lex (PyStr.lstrip s) = Some toks.
Proof.
  unfold JsonRef.lex. revert toks. induction s as [|c s IH]; intros toks; [done|].
  cbn [PyStr.lstrip]. destruct (PyStr.isspace c) eqn:Hc; [|done].
  cbn [JsonRef.lex_go JsonRef.step].
  destruct (JsonRef.step_start c) as [[out st']|] eqn:Hstep; [|done].
  destruct (step_start_space _ _ _ Hc Hstep) as [-> ->].
  destruct (JsonRef.lex_go JsonRef.LStart s) as [toks'|]; [|done].
  intros [= <-]. by apply IH.
Qed.

Lemma lex_strip s toks :
  JsonRef.lex s = Some toks → JsonRef.lex (PyStr.strip s) = Some toks.
Proof.
  intros H. apply lex_lstrip in H. unfold PyStr.strip.
  destruct (rstrip_split (PyStr.lstrip s)) as (w & Hs & Hw).
  rewrite Hs in H. by apply lex_go_drop_spaces in H.
Qed.

Lemma loads_ref_strip s data :
  JsonRef.loads s = Some data → JsonRef.loads (PyStr.strip s) = Some data.
Proof.
  unfold JsonRef.loads.
  destruct (JsonRef.lex s) as [toks|] eqn:Hlex; [|done].
  by rewrite (lex_strip _ _ Hlex).
Qed.

Lemma loads_ref_backtick s : JsonRef.loads (backtick :: s) = None.
Proof. reflexivity. Qed.

Lemma ref_loads_strip s data :
  ref_loads s = Ok data → ref_loads (PyStr.strip s) = Ok data.
Proof.
  unfold ref_loads.
  destruct (JsonRef.loads s) as [d|] eqn:Hs; [|done].
  intros [= <-]. by rewrite (loads_ref_strip _ _ Hs).
Qed.

Lemma ref_loads_backtick s : not_json (ref_loads (backtick :: s)) = true.
Proof. reflexivity. Qed.

Lemma fenced_response_same_object_witness :
  parse_json_safely ref_loads (fenced [nl] object_a1 [nl])
  = Ok (JObj [(lit "a", JNum 1)]) ∧
  parse_json_safely ref_loads object_a1 = Ok (JObj [(lit "a", JNum 1)]).
Proof.
  apply (fenced_response_same_object ref_loads ref_loads_backtick
           ref_loads_strip object_a1 (JObj [(lit "a", JNum 1)]) [nl] [nl]).
  - reflexivity.
  - reflexivity.
  - repeat constructor.
  - repeat constructor.
Defined.

(** C8 as stated fails: a well-formed response with three backticks inside
    a string loses them when it is wrapped in a fence. *)
Lemma fenced_response_loses_backticks :
  ref_loads object_with_backticks = Ok (JObj [(lit "a", JStr fence)]) ∧
  parse_json_safely ref_loads object_with_backticks
  = Ok (JObj [(lit "a", JStr fence)]) ∧
  parse_json_safely ref_loads (fenced [nl] object_with_backticks [nl])
  = Ok (JObj [(lit "a", JStr [])]) ∧
  parse_json_safely ref_loads (fenced [] object_with_backticks [])
  = Ok (JObj [(lit "a", JStr [])]).
Proof. repeat split; reflexivity. Qed.

(** ** Batch pipeline *)

Section WorkflowFacts.
Variable loads : str → result json.
Variable dumps : json → str.
Variable disk : str → str → write_fault.
Variable logged : str → nat → attempt_record → option str.
Variables (OUTPUT_DIR SYSTEM_PROMPT : str) (MAX_OUTPUT_TOKENS : nat).
Variable backend : str → nat → str → backend_request → backend_reply.
Variable rnd : str → nat → Q.

Lemma scan_all_present input_dir fs names :
  (∀ f, f ∈ eligible names → is_Some (fs !! output_path_of OUTPUT_DIR f)) →
  scan OUTPUT_DIR input_dir fs names = ([], length (eligible names)).
Proof.
  induction names as [|f rest IH]; intros Hall; [done|].
  unfold eligible in *. simpl in *.
  destruct (PyStr.endswith f INPUT_FILE_EXT) eqn:Hext.
  - rewrite IH by (intros g Hg; apply Hall; by apply list_elem_of_further).
    destruct (Hall f) as [content ->]; [apply list_elem_of_here|]. done.
  - by rewrite IH.
Qed.

Lemma scan_none_eligible input_dir fs names :
  eligible names = [] → scan OUTPUT_DIR input_dir fs names = ([], 0).
Proof.
  induction names as [|f rest IH]; intros Hnone; [done|].
  unfold eligible in *. simpl in *.
  destruct (PyStr.endswith f INPUT_FILE_EXT); [done|]. by rewrite IH.
Qed.

(** C5. When the input directory holds eligible files and each of them
    already has its output, the run writes nothing, calls no provider (no
    backend event, the registry and its rotation counters untouched, nothing
    closed), returns no result, and reports that all the files, counted, were
    already processed; a directory without any eligible file gets the other
    report, that no input file was found. *)
Theorem rerun_with_outputs_present_is_noop input_dir names fs m provider :
  eligible names ≠ [] →
  (∀ f, f ∈ eligible names → is_Some (fs !! output_path_of OUTPUT_DIR f)) →
  let r := run_workflow loads dumps disk logged OUTPUT_DIR SYSTEM_PROMPT
             MAX_OUTPUT_TOKENS backend rnd input_dir (Some names) fs m
             provider in
  reported r = AllAlreadyProcessed (length (eligible names)) ∧
  returned r = None ∧
  files_after r = fs ∧
  manager_after r = m ∧
  provider_events r = [] ∧
  closed r = [] ∧
  (∀ names', eligible names' = [] →
     reported (run_workflow loads dumps disk logged OUTPUT_DIR SYSTEM_PROMPT
                 MAX_OUTPUT_TOKENS backend rnd input_dir (Some names') fs m
                 provider) = NoInputFiles).
Proof.
  intros Hsome Hall r. subst r. unfold run_workflow.
  rewrite scan_all_present by done.
  destruct (eligible names) as [|f0 rest] eqn:Hel; [done|]. simpl.
  repeat split; try done.
  intros names' Hnone. by rewrite scan_none_eligible.
Qed.

End WorkflowFacts.

Lemma rerun_with_outputs_present_is_noop_witness :
  reported (sample_run answering_backend sample_files_done)
  = AllAlreadyProcessed 1 ∧
  files_after (sample_run answering_backend sample_files_done)
  = sample_files_done ∧
  provider_events (sample_run answering_backend sample_files_done) = [].
Proof.
  destruct (rerun_with_outputs_present_is_noop ref_loads JsonDump.dumps
              sound_disk sample_logged
              (lit "out") (lit "You are a Transcript Analysis Expert.")
              (16 * 1024) answering_backend (fun _ _ => 0%Q) (lit "in")
              sample_entries sample_files_done sample_manager None)
    as (Hrep & _ & Hfs & _ & Hev & _).
  - discriminate.
  - intros f Hf. apply list_elem_of_In in Hf. simpl in Hf.
    destruct Hf as [<-|[]]. by eexists.
  - split; [exact Hrep|]. split; [exact Hfs | exact Hev].
Defined.

(** *** The two artifact paths of a work item are different *)

Lemma basename_go_no_slash acc path :
  no_slash acc → no_slash (basename_go acc path).
Proof.
  revert acc. induction path as [|c path IH]; intros acc Hacc; simpl.
  - apply Forall_forall. intros x Hx.
    apply list_elem_of_In, in_rev, list_elem_of_In in Hx.
    by apply (proj1 (Forall_forall _ _) Hacc).
  - destruct (Ascii.eqb_spec c slash) as [->|Hne].
    + by apply IH.
    + apply IH. by constructor.
Qed.

Lemma basename_no_slash path : no_slash (basename path).
Proof. by apply basename_go_no_slash. Qed.

Lemma replace_go_no_slash old new k s :
  no_slash new → no_slash s → no_slash (PyStr.replace_go old new k s).
Proof.
  intros Hnew Hs. revert k.
  induction Hs as [|c s Hc Hs IH]; intros k; simpl; [done|].
  destruct k as [|k]; [|apply IH].
  destruct (PyStr.startswith old (c :: s)).
  - apply Forall_app. split; [done | apply IH].
  - constructor; [done | apply IH].
Qed.

Lemma startswith_length pre s :
  PyStr.startswith pre s = true → length pre ≤ length s.
Proof.
  revert s. induction pre as [|a pre IH]; intros [|b s]; simpl; try done; try lia.
  destruct (Ascii.eqb a b); [|done]. intros H. apply IH in H. lia.
Qed.

Lemma replace_go_length old new k s :
  length new ≤ length old →
  length (PyStr.replace_go old new k s) ≤ length s - k.
Proof.
  intros Hlen. revert k. induction s as [|c s IH]; intros k; simpl; [lia|].
  destruct k as [|k].
  - destruct (PyStr.startswith old (c :: s)) eqn:Hstart.
    + apply startswith_length in Hstart. simpl in Hstart.
      rewrite length_app. specialize (IH (length old - 1)). lia.
    + simpl. specialize (IH 0). lia.
  - apply IH.
Qed.

Lemma not_absolute s : no_slash s → PyStr.startswith (lit "/") s = false.
Proof.
  intros [|c s' Hc _]; [done|]. unfold lit; cbn [list_ascii_of_string PyStr.startswith].
  destruct (Ascii.eqb_spec slash c) as [<-|]; done.
Qed.

Lemma path_join_inj dir a b :
  no_slash a → no_slash b →
  PyStr.path_join dir a = PyStr.path_join dir b → a = b.
Proof.
  intros Ha Hb. unfold PyStr.path_join.
  rewrite !not_absolute by done.
  destruct (_ || _).
  - by intros ?%app_inv_head.
  - by intros ?%app_inv_head%app_inv_head.
Qed.

Lemma artifact_paths_differ OUTPUT_DIR file_path :
  output_path_of OUTPUT_DIR (basename file_path)
  ≠ error_path_of OUTPUT_DIR (basename file_path).
Proof.
  unfold output_path_of, error_path_of. intros Heq.
  apply path_join_inj in Heq.
  - apply (f_equal length) in Heq. rewrite length_app in Heq.
    pose proof (replace_go_length INPUT_FILE_EXT OUTPUT_FILE_EXT 0
                  (basename file_path)) as Hle.
    unfold PyStr.replace in Heq. simpl in Hle, Heq. lia.
  - apply replace_go_no_slash; [|apply basename_no_slash].
    repeat constructor; discriminate.
  - apply Forall_app. split; [apply basename_no_slash|].
    repeat constructor; discriminate.
Qed.

(** *** What the log records and a write do to the files *)

Lemma append_file_other fs path appended p :
  p ≠ path → append_file fs path appended !! p = fs !! p.
Proof.
  intros Hne. destruct appended as [text|]; simpl; [|done].
  by rewrite lookup_insert_ne.
Qed.

Lemma append_file_keeps fs path appended p :
  is_Some (fs !! p) → is_Some (append_file fs path appended !! p).
Proof.
  intros Hp. destruct appended as [text|]; simpl; [|done].
  destruct (decide (path = p)) as [->|Hne].
  - rewrite lookup_insert_eq. eauto.
  - by rewrite lookup_insert_ne.
Qed.

Lemma write_logs_other logged path i evs fs p :
  p ≠ path → write_logs logged path i evs fs !! p = fs !! p.
Proof.
  intros Hne. revert i fs. induction evs as [|ev evs IH]; intros i fs; [done|].
  destruct ev; simpl; rewrite IH; [done | | done].
  by apply append_file_other.
Qed.

Lemma write_logs_keeps logged path i evs fs p :
  is_Some (fs !! p) → is_Some (write_logs logged path i evs fs !! p).
Proof.
  revert i fs. induction evs as [|ev evs IH]; intros i fs Hp; [done|].
  destruct ev; simpl; apply IH; [done | | done].
  by apply append_file_keeps.
Qed.

Lemma write_file_other fs path text fault p :
  p ≠ path → (write_file fs path text fault).1 !! p = fs !! p.
Proof.
  intros Hne. destruct fault; simpl; [| |done]; by rewrite lookup_insert_ne.
Qed.

Lemma write_file_keeps fs path text fault p :
  is_Some (fs !! p) → is_Some ((write_file fs path text fault).1 !! p).
Proof.
  intros Hp. destruct fault; simpl; [| |done].
  all: destruct (decide (path = p)) as [->|Hne];
    [rewrite lookup_insert_eq; eauto | by rewrite lookup_insert_ne].
Qed.

Section ProcessFile.
Variable loads : str → result json.
Variable dumps : json → str.
Variable disk : str → str → write_fault.
Variable logged : str → nat → attempt_record → option str.
Variables (OUTPUT_DIR SYSTEM_PROMPT : str) (MAX_OUTPUT_TOKENS : nat).
Variable backend : str → nat → str → backend_request → backend_reply.
Variable rnd : str → nat → Q.

(** C1, as the code has it.  Processing one work item opens at most one
    artifact for writing, at one of two different paths; besides it, only
    the log file of the provider changes, by the records appended to it, and
    no file is removed.
    - When the input cannot be read or the provider is unknown, the result
      is an error and no file changes.
    - When the backend call ends in an exception (a failure that is not
      retried, or the retries exhausted), or [json.loads] raises something
      other than [JSONDecodeError] during the extraction, the result is an
      error with the message of the exception and no artifact is written.
    - When the extraction gives a value that counts as true, that value is
      dumped at the output path; when it gives nothing or a value that counts
      as false (an empty object, say) and the text decodes directly, the
      directly decoded value is dumped at the output path.  The result is a
      success naming that path when the write goes through.  When the write
      raises, the result is an error with the message of the exception, and
      the output file holds what was written before the exception (no file
      changes when it could not be opened).
    - When the extraction gives nothing or a value that counts as false and
      the text does not decode directly, the raw text of the backend is
      written at the error path and the result is an error, "Invalid JSON
      output" followed by the decoder's message; a write that raises is as
      above. *)
Theorem process_file_writes_at_most_one_artifact fs m file_path provider :
  let done_ := process_file loads dumps disk logged OUTPUT_DIR SYSTEM_PROMPT
                 MAX_OUTPUT_TOKENS backend rnd fs m file_path provider in
  let r := done_.1.1.1 in
  let fs' := done_.1.1.2 in
  let out := output_path_of OUTPUT_DIR (basename file_path) in
  let err := error_path_of OUTPUT_DIR (basename file_path) in
  let error_with (e : exn) :=
    jr_status r = job_error ∧ jr_message r = Some (exn_msg e) in
  let write_of (before : gmap str str) (path text : str) (completed : Prop) :=
    match disk path text with
    | NoFault => completed ∧ fs' = <[path := text]> before
    | Truncated written e => error_with e ∧ fs' = <[path := written]> before
    | Refused e => error_with e ∧ fs' = before
    end in
  let saved (before : gmap str str) (data : json) :=
    write_of before out (dumps data)
      (jr_status r = job_success ∧ jr_output r = Some out) in
  out ≠ err ∧
  jr_file r = basename file_path ∧
  (∀ p, is_Some (fs !! p) → is_Some (fs' !! p)) ∧
  (fs !! file_path = None → jr_status r = job_error ∧ fs' = fs) ∧
  (∀ e, get_provider m provider = Raise e →
        jr_status r = job_error ∧ fs' = fs) ∧
  (∀ raw llm,
     fs !! file_path = Some raw → get_provider m provider = Ok llm →
     let call :=
       generate (backend file_path) (rnd file_path) llm
         (compact_history raw MAX_CHARS) (Some SYSTEM_PROMPT)
         DEFAULT_TEMPERATURE MAX_OUTPUT_TOKENS in
     let log := log_file (kind llm) in
     let logs := write_logs (logged file_path) log 0 call.2 fs in
     (∀ p, p ≠ log → logs !! p = fs !! p) ∧
     (∀ p, p ≠ out → p ≠ err → fs' !! p = logs !! p) ∧
     (fs' !! out = logs !! out ∨ fs' !! err = logs !! err) ∧
     (∀ e, call.1.1 = Raise e → error_with e ∧ fs' = logs) ∧
     (∀ text,
        call.1.1 = Ok text →
        (∀ e, parse_json_safely loads text = Raise e →
              error_with e ∧ fs' = logs) ∧
        (∀ data, parse_json_safely loads text = Ok data →
                 truthy data = true → saved logs data) ∧
        (∀ data data', parse_json_safely loads text = Ok data →
                       truthy data = false → loads text = Ok data' →
                       saved logs data') ∧
        (∀ data e, parse_json_safely loads text = Ok data →
                   truthy data = false → loads text = Raise e →
                   is_decode_error e = true ∧
                   write_of logs err text
                     (jr_status r = job_error ∧
                      jr_message r
                      = Some (lit "Invalid JSON output: " ++ exn_msg e))))).
Proof.
  intros done_ r fs' out err error_with write_of saved.
  assert (Hdiff : out ≠ err) by apply artifact_paths_differ.
  split; [done|].
  subst done_ r fs' error_with write_of saved. unfold process_file.
  destruct (fs !! file_path) as [raw|] eqn:Hread; simpl.
  2: { repeat split; try done. }
  destruct (get_provider m provider) as [llm|e0] eqn:Hprov; simpl.
  2: { repeat split; try done. }
  destruct (generate _ _ llm _ _ _ _) as [[res llm'] evs] eqn:Hgen.
  cbn [fst snd].
  set (logs := write_logs (logged file_path) (log_file (kind llm)) 0 evs fs).
  fold out err.
  (* the two ways the processing ends: an exception before the write, or
     the one write *)
  assert (Hcaught : ∀ e : exn,
    let d := (failed (basename file_path) (exn_msg e), logs,
              store_provider m provider llm', evs) in
    jr_file d.1.1.1 = basename file_path ∧
    (∀ p, is_Some (fs !! p) → is_Some (d.1.1.2 !! p)) ∧
    (∀ p, p ≠ out → p ≠ err → d.1.1.2 !! p = logs !! p) ∧
    (d.1.1.2 !! out = logs !! out ∨ d.1.1.2 !! err = logs !! err) ∧
    (jr_status d.1.1.1 = job_error ∧ jr_message d.1.1.1 = Some (exn_msg e)) ∧
    d.1.1.2 = logs).
  { intros e. simpl. repeat split; try done; [|by left].
    intros p Hp. by apply write_logs_keeps. }
  assert (Hwrite : ∀ (path text : str) (returned : job_result),
    jr_file returned = basename file_path →
    path = out ∨ path = err →
    let d := match write_file logs path text (disk path text) with
             | (fs2, None) => (returned, fs2, store_provider m provider llm', evs)
             | (fs2, Some e) =>
                 (failed (basename file_path) (exn_msg e), fs2,
                  store_provider m provider llm', evs)
             end in
    jr_file d.1.1.1 = basename file_path ∧
    (∀ p, is_Some (fs !! p) → is_Some (d.1.1.2 !! p)) ∧
    (∀ p, p ≠ out → p ≠ err → d.1.1.2 !! p = logs !! p) ∧
    (d.1.1.2 !! out = logs !! out ∨ d.1.1.2 !! err = logs !! err) ∧
    match disk path text with
    | NoFault => d.1.1.1 = returned ∧ d.1.1.2 = <[path := text]> logs
    | Truncated written e =>
        (jr_status d.1.1.1 = job_error ∧
         jr_message d.1.1.1 = Some (exn_msg e)) ∧
        d.1.1.2 = <[path := written]> logs
    | Refused e =>
        (jr_status d.1.1.1 = job_error ∧
         jr_message d.1.1.1 = Some (exn_msg e)) ∧
        d.1.1.2 = logs
    end).
  { intros path text returned Hfile Hpath d.
    assert (Hfs : d.1.1.2 = (write_file logs path text (disk path text)).1).
    { subst d. by destruct (disk path text). }
    split; [subst d; by destruct (disk path text)|].
    split.
    { intros p Hp. rewrite Hfs. apply write_file_keeps.
      by apply write_logs_keeps. }
    split.
    { intros p Ho He. rewrite Hfs. apply write_file_other.
      destruct Hpath as [->| ->]; done. }
    split.
    { rewrite Hfs. destruct Hpath as [->| ->].
      - right. by apply write_file_other.
      - left. by apply write_file_other. }
    subst d. by destruct (disk path text). }
  assert (Hlogs : ∀ p, p ≠ log_file (kind llm) → logs !! p = fs !! p).
  { intros p Hp. by apply write_logs_other. }
  destruct res as [text|e1].
  { (* the backend returned a text *)
    destruct (parse_json_safely loads text) as [data|e2] eqn:Hparse.
    2: { destruct (Hcaught e2) as (Hf & Hk & Ho & Hone & Herr & Hfs).
         split; [done|]. split; [done|]. split; [done|]. split; [done|].
         intros raw' llm0 [= <-] [= <-]. rewrite Hgen. cbn [fst snd].
         fold logs. split; [done|]. split; [done|]. split; [done|].
         split; [done|]. intros text' [= <-]. rewrite Hparse.
         split; [by intros e [= <-]|]. repeat split; done. }
    destruct (truthy data) eqn:Htruthy.
    { pose proof (Hwrite out (dumps data)
        {| jr_status := job_success; jr_file := basename file_path;
           jr_output := Some out; jr_message := None |} eq_refl
        (or_introl eq_refl)) as (Hf & Hk & Ho & Hone & Hw).
      split; [done|]. split; [done|]. split; [done|]. split; [done|].
      intros raw' llm0 [= <-] [= <-]. rewrite Hgen. cbn [fst snd].
      fold logs. split; [done|]. split; [done|]. split; [done|].
      split; [done|]. intros text' [= <-]. rewrite Hparse.
      split; [done|]. split.
      - intros data0 [= <-] _. destruct (disk out (dumps data)); [|done|done].
        destruct Hw as [-> ->]. done.
      - split; intros; congruence. }
    destruct (loads text) as [data'|e3] eqn:Hloads.
    { pose proof (Hwrite out (dumps data')
        {| jr_status := job_success; jr_file := basename file_path;
           jr_output := Some out; jr_message := None |} eq_refl
        (or_introl eq_refl)) as (Hf & Hk & Ho & Hone & Hw).
      split; [done|]. split; [done|]. split; [done|]. split; [done|].
      intros raw' llm0 [= <-] [= <-]. rewrite Hgen. cbn [fst snd].
      fold logs. split; [done|]. split; [done|]. split; [done|].
      split; [done|]. intros text' [= <-]. rewrite Hparse, Hloads.
      split; [done|]. split; [intros; congruence|]. split.
      - intros data0 data1 _ _ [= <-].
        destruct (disk out (dumps data')); [|done|done].
        destruct Hw as [-> ->]. done.
      - intros; congruence. }
    assert (Hdec : is_decode_error e3 = true).
    { revert Hparse. unfold parse_json_safely, try_loads. rewrite Hloads.
      by destruct (is_decode_error e3). }
    rewrite Hdec.
    pose proof (Hwrite err text
      (failed (basename file_path) (lit "Invalid JSON output: " ++ exn_msg e3))
      eq_refl (or_intror eq_refl)) as (Hf & Hk & Ho & Hone & Hw).
    split; [done|]. split; [done|]. split; [done|]. split; [done|].
    intros raw' llm0 [= <-] [= <-]. rewrite Hgen. cbn [fst snd].
    fold logs. split; [done|]. split; [done|]. split; [done|].
    split; [done|]. intros text' [= <-]. rewrite Hparse, Hloads.
    split; [done|]. split; [intros; congruence|].
    split; [intros; congruence|].
    intros data0 e _ _ [= <-]. split; [done|].
    destruct (disk err text); simpl in Hw |- *; done. }
  (* the call ended in an exception *)
  destruct (Hcaught e1) as (Hf & Hk & Ho & Hone & Herr & Hfs).
  split; [done|]. split; [done|]. split; [done|]. split; [done|].
  intros raw' llm0 [= <-] [= <-]. rewrite Hgen. cbn [fst snd].
  fold logs. split; [done|]. split; [done|]. split; [done|].
  split; [by intros e [= <-]|]. intros text' [=].
Qed.

End ProcessFile.

(** C1 as stated fails.  A work item whose backend call fails for good is
    taken up and ends with neither artifact; a work item that left an error
    artifact in an earlier run and succeeds in this one ends with both. *)
Lemma failed_work_item_leaves_no_artifact :
  let failed_run := sample_run rejecting_backend sample_files in
  let second_run := sample_run answering_backend sample_files_stale_error in
  provider_events failed_run ≠ [] ∧
  reported failed_run = Summary 0 1 ∧
  files_after failed_run !! lit "out/a.json" = None ∧
  files_after failed_run !! lit "out/a.f.txt.error.txt" = None ∧
  reported second_run = Summary 1 0 ∧
  is_Some (files_after second_run !! lit "out/a.json") ∧
  is_Some (files_after second_run !! lit "out/a.f.txt.error.txt").
Proof.
  repeat split; try reflexivity; try discriminate; by eexists.
Qed.

(* ================================================================== *)
(** * Further properties of the code *)

(** ** [generate]: keys, counter, outcomes *)

Section GenerateFacts.
Variable backend : nat → str → backend_request → backend_reply.
Variable rnd : nat → Q.
Variable P : Provider.
Variables (prompt : str) (system_instruction : option str).
Variables (temperature : Q) (max_tokens : nat).

Let loop := attempt_loop backend rnd P prompt system_instruction
              temperature max_tokens.

Ltac step_attempt b :=
  simpl;
  destruct (get_next_key b) as [[api_key b1]|e] eqn:Hkey; simpl;
  [ match goal with
    | |- context [backend ?a ?k ?r] =>
        destruct (backend a k r) as [[|ch text] tin tout ttot|msg] eqn:Hreply; simpl
    end;
    try match goal with
    | |- context [is_retryable ?k ?m] =>
        destruct (is_retryable k m) eqn:Hretry; simpl
    end
  | ].

Lemma get_next_key_state b key b1 :
  get_next_key b = Ok (key, b1) →
  api_keys b !! current_key_index b = Some key ∧
  b1 = set_index b ((current_key_index b + 1) mod length (api_keys b)) ∧
  current_key_index b < length (api_keys b).
Proof.
  unfold get_next_key.
  destruct (api_keys b !! current_key_index b) as [k|] eqn:Hk; [|done].
  intros [= <- <-]. split; [done|]. split; [done|].
  by apply lookup_lt_Some in Hk.
Qed.

(** The counter after the loop: one step of the rotation per backend call. *)
Lemma loop_counter todo a b :
  current_key_index b < length (api_keys b) →
  let b' := (loop todo a b).1.2 in
  let evs := (loop todo a b).2 in
  api_keys b' = api_keys b ∧ model_name b' = model_name b ∧
  current_key_index b'
  = (current_key_index b + length (calls evs)) mod length (api_keys b).
Proof.
  revert a b. induction todo as [|todo IH]; intros a b Hlt.
  { simpl. rewrite Nat.add_0_r, Nat.mod_small by done. done. }
  unfold loop in *. step_attempt b.
  6: { rewrite Nat.add_0_r, Nat.mod_small by done. done. }
  all: apply get_next_key_state in Hkey as (_ & -> & _).
  all: try (simpl; done).
  all: set (b1 := set_index b _);
    assert (Hlt1 : current_key_index b1 < length (api_keys b1))
      by (subst b1; simpl; apply Nat.mod_upper_bound; lia);
    specialize (IH (S a) b1 Hlt1);
    destruct (attempt_loop _ _ _ _ _ _ _ todo (S a) b1) as [[r b2] evs];
    simpl in *; destruct IH as (-> & -> & ->);
    split; [done|]; split; [done|];
    rewrite Nat.Div0.add_mod_idemp_l; f_equal; lia.
Qed.

(** When the loop returns a text. *)
Lemma loop_success todo a b answer :
  (loop todo a b).1.1 = Ok answer →
  let evs := (loop todo a b).2 in
  ∃ pre n key req rec ti to tt,
    evs = pre ++ [EvCall n key req; EvLog rec] ∧
    backend n key req = Reply answer ti to tt ∧
    answer ≠ [] ∧
    n + 1 = a + length (calls evs) ∧
    length (sleeps evs) + 1 = length (calls evs) ∧
    r_status rec = success ∧
    r_response_preview rec = Some answer ∧
    (r_input_tokens rec, r_output_tokens rec, r_total_tokens rec)
    = (ti, to, tt) ∧
    Forall (λ r, r_status r = rate_limited) (records pre).
Proof.
  revert a b. induction todo as [|todo IH]; intros a b; [done|].
  unfold loop in *. step_attempt b; try done.
  2: { intros [= <-].
       eexists [], a, api_key, _, _, tin, tout, ttot.
       repeat split; try done; simpl; lia. }
  all: specialize (IH (S a) b1);
    destruct (attempt_loop _ _ _ _ _ _ _ todo (S a) b1) as [[r b2] evs];
    simpl in *; intros Hr;
    destruct (IH Hr) as (pre & n & key & req & rec & ti & to & tt & -> & Hb &
                         Hne & Hn & Hs & Hst & Hprev & Htok & Hpre);
    eexists (_ :: _ :: _ :: pre), n, key, req, rec, ti, to, tt;
    (split; [reflexivity|]); (split; [done|]); (split; [done|]);
    (split; [simpl; lia|]); (split; [simpl; lia|]);
    (split; [done|]); (split; [done|]); (split; [done|]);
    simpl; by constructor.
Qed.

(** When every attempt fails with a retryable failure. *)
Lemma loop_exhausts todo a b :
  current_key_index b < length (api_keys b) →
  (∀ n key req, ∃ msg, failure_of (kind P) (backend n key req) = Some msg ∧
                       is_retryable (kind P) msg = true) →
  let evs := (loop todo a b).2 in
  (loop todo a b).1.1 = Raise (exhausted_error (kind P) (max_retries P)) ∧
  map fst (calls evs) = seq a todo ∧
  sleeps evs = map (λ n, wait_time P n (rnd n)) (seq a todo) ∧
  map r_status (records evs)
  = replicate todo rate_limited ++ [failed_after_retries].
Proof.
  intros Hlt Hall. revert a b Hlt.
  induction todo as [|todo IH]; intros a b Hlt; [done|].
  unfold loop in *. step_attempt b.
  6: { destruct (get_next_key_in_range b Hlt) as (k & _ & Hk). congruence. }
  3: { destruct (Hall a api_key
                   (build_request P b1 prompt system_instruction temperature
                      max_tokens)) as (m & Hm & _).
       rewrite Hreply in Hm. discriminate Hm. }
  2, 4: destruct (Hall a api_key
                   (build_request P b1 prompt system_instruction temperature
                      max_tokens)) as (m & Hm & Hre);
       rewrite Hreply in Hm; injection Hm as <-; congruence.
  all: apply get_next_key_state in Hkey as (_ & -> & _);
    set (b1 := set_index b _);
    assert (Hlt1 : current_key_index b1 < length (api_keys b1))
      by (subst b1; simpl; apply Nat.mod_upper_bound; lia);
    specialize (IH (S a) b1 Hlt1);
    destruct (attempt_loop _ _ _ _ _ _ _ todo (S a) b1) as [[r b2] evs];
    simpl in *; destruct IH as (-> & -> & -> & ->); done.
Qed.

Lemma inject_nat_nonneg n : (0 <= inject_Z (Z.of_nat n))%Q.
Proof. change 0%Q with (inject_Z 0). rewrite <- Zle_Qle. lia. Qed.

Lemma backoff_step a0 t :
  2 ^ a0 * (2 ^ S t - 1) = 2 ^ a0 + 2 ^ S a0 * (2 ^ t - 1).
Proof.
  rewrite !Nat.pow_succ_r'.
  assert (1 ≤ 2 ^ t) by (apply Nat.neq_0_lt_0, Nat.pow_nonzero; lia).
  nia.
Qed.

(** The sleeps of a loop that starts at attempt [S a0]. *)
Lemma loop_total_sleep todo a0 b :
  (0 <= retry_base_delay P)%Q → (0 <= jitter_max P)%Q →
  (∀ n, (0 <= rnd n)%Q ∧ (rnd n <= 1)%Q) →
  (total_seconds (sleeps (loop todo (S a0) b).2)
   <= retry_base_delay P * inject_Z (Z.of_nat (2 ^ a0 * (2 ^ todo - 1)))
      + inject_Z (Z.of_nat todo) * jitter_max P)%Q.
Proof.
  intros Hbase Hjm Hrnd. revert a0 b.
  assert (Hnonneg : ∀ t a0,
    (0 <= retry_base_delay P * inject_Z (Z.of_nat (2 ^ a0 * (2 ^ t - 1)))
          + inject_Z (Z.of_nat t) * jitter_max P)%Q).
  { intros t a0.
    pose proof (inject_nat_nonneg (2 ^ a0 * (2 ^ t - 1))).
    pose proof (inject_nat_nonneg t). nra. }
  induction todo as [|todo IH]; intros a0 b.
  { exact (Hnonneg 0 a0). }
  unfold loop in *. step_attempt b;
    try exact (Hnonneg (S todo) a0).
  all: specialize (IH (S a0) b1);
    destruct (attempt_loop _ _ _ _ _ _ _ todo (S (S a0)) b1) as [[r b2] evs];
    simpl in *;
    change (2 ^ a0 + (2 ^ a0 + 0)) with (2 ^ S a0) in IH;
    change (2 ^ todo + (2 ^ todo + 0)) with (2 ^ S todo);
    unfold wait_time; replace (S a0 - 1) with a0 by lia.
  all: destruct (Hrnd (S a0)) as [H0 H1];
    destruct (uniform_bounds _ _ Hjm H0 H1) as [_ Hu];
    rewrite backoff_step, Nat2Z.inj_add, inject_Z_plus;
    replace (Z.of_nat (S todo)) with (Z.of_nat todo + 1)%Z by lia;
    rewrite inject_Z_plus;
    change (inject_Z 1) with 1%Q;
    set (x := inject_Z (Z.of_nat (2 ^ a0))) in *;
    set (y := inject_Z (Z.of_nat (2 ^ S a0 * (2 ^ todo - 1)))) in *;
    set (u := uniform 0 (jitter_max P) (rnd (S a0))) in *;
    set (s := total_seconds (sleeps evs)) in *;
    lra.
Qed.

End GenerateFacts.

Lemma empty_response_not_retryable k :
  is_retryable k (empty_response_msg k) = false.
Proof. destruct k; reflexivity. Qed.

Lemma generate_parts backend rnd P prompt sys temperature max_tokens :
  let l := attempt_loop backend rnd P prompt sys temperature max_tokens
             (max_retries P) 1 (base P) in
  let g := generate backend rnd P prompt sys temperature max_tokens in
  g.1.1 = l.1.1 ∧ g.1.2 = with_base P l.1.2 ∧ g.2 = l.2.
Proof.
  intros l g. subst l g. unfold generate.
  by destruct (attempt_loop _ _ _ _ _ _ _ _ _ _) as [[r b] evs].
Qed.

(** X1. Each [generate] call moves the key counter of the provider by one
    step of the rotation per backend attempt, and changes nothing else of
    the provider. *)
Theorem generate_advances_counter backend rnd P prompt sys temperature
    max_tokens :
  current_key_index (base P) < length (api_keys (base P)) →
  let g := generate backend rnd P prompt sys temperature max_tokens in
  let P' := g.1.2 in
  current_key_index (base P')
  = (current_key_index (base P) + length (calls g.2))
    mod length (api_keys (base P)) ∧
  api_keys (base P') = api_keys (base P) ∧
  model_name (base P') = model_name (base P) ∧
  kind P' = kind P ∧ base_url P' = base_url P ∧
  max_retries P' = max_retries P ∧
  retry_base_delay P' = retry_base_delay P ∧
  jitter_max P' = jitter_max P.
Proof.
  intros Hlt g P'. subst g P'.
  destruct (generate_parts backend rnd P prompt sys temperature max_tokens)
    as (_ & -> & ->).
  destruct (loop_counter backend rnd P prompt sys temperature max_tokens
              (max_retries P) 1 (base P) Hlt) as (Hk & Hm & Hi).
  simpl. by rewrite Hk, Hm, Hi.
Qed.

Lemma generate_advances_counter_witness :
  let P := GeminiProvider default_retry_config [lit "k0"; lit "k1"] (lit "m") in
  current_key_index
    (base (generate flaky_backend (fun _ => 1 # 2) P (lit "hello") None
             (1 # 5) 100).1.2) = (0 + 3) mod 2.
Proof.
  intros P.
  destruct (generate_advances_counter flaky_backend (fun _ => 1 # 2) P
              (lit "hello") None (1 # 5) 100) as [Hidx _].
  - simpl. lia.
  - exact Hidx.
Defined.

(** X2. A text returned by [generate] is never empty: it is the backend's
    answer to the last attempt made, that attempt is the only one logged as
    [success] (with the text and the token counts of the answer), every
    attempt before it was logged as [rate_limited] and followed by one
    sleep. *)
Theorem generate_returns_last_reply backend rnd P prompt sys temperature
    max_tokens answer :
  (generate backend rnd P prompt sys temperature max_tokens).1.1 = Ok answer →
  let evs := (generate backend rnd P prompt sys temperature max_tokens).2 in
  ∃ pre key req rec ti to tt,
    evs = pre ++ [EvCall (length (calls evs)) key req; EvLog rec] ∧
    backend (length (calls evs)) key req = Reply answer ti to tt ∧
    answer ≠ [] ∧
    length (sleeps evs) + 1 = length (calls evs) ∧
    r_status rec = success ∧
    r_response_preview rec = Some answer ∧
    (r_input_tokens rec, r_output_tokens rec, r_total_tokens rec)
    = (ti, to, tt) ∧
    Forall (λ r, r_status r = rate_limited) (records pre).
Proof.
  intros Hok evs. subst evs.
  destruct (generate_parts backend rnd P prompt sys temperature max_tokens)
    as (Hr & _ & Hev).
  rewrite Hr in Hok. rewrite Hev.
  destruct (loop_success _ _ _ _ _ _ _ _ _ _ _ Hok)
    as (pre & n & key & req & rec & ti & to & tt & He & Hb & Hne & Hn & Hs &
        Hst & Hprev & Htok & Hpre).
  assert (n = length (calls (attempt_loop backend rnd P prompt sys temperature
                               max_tokens (max_retries P) 1 (base P)).2))
    as Hn' by lia.
  exists pre, key, req, rec, ti, to, tt. rewrite <- Hn'.
  repeat split; try done; lia.
Qed.

Lemma generate_returns_last_reply_witness :
  let P := GeminiProvider default_retry_config [lit "k0"; lit "k1"] (lit "m") in
  let evs := (generate flaky_backend (fun _ => 1 # 2) P (lit "hello") None
                (1 # 5) 100).2 in
  length (calls evs) = 3 ∧ length (sleeps evs) + 1 = length (calls evs).
Proof.
  intros P evs.
  destruct (generate_returns_last_reply flaky_backend (fun _ => 1 # 2) P
              (lit "hello") None (1 # 5) 100 (lit "{}"))
    as (pre & key & req & rec & ti & to & tt & _ & _ & _ & Hs & _).
  - reflexivity.
  - split; [reflexivity | exact Hs].
Defined.

(** X3. When every attempt fails with a failure that the provider classifies
    as retryable, [generate] makes exactly [max_retries] attempts, numbered
    from 1, sleeps after each of them (also after the last one), logs
    [rate_limited] for each and then one [failed_after_retries], and raises
    the "tried N times" exception. *)
Theorem generate_exhausts_retries backend rnd P prompt sys temperature
    max_tokens :
  current_key_index (base P) < length (api_keys (base P)) →
  (∀ n key req, ∃ msg, failure_of (kind P) (backend n key req) = Some msg ∧
                       is_retryable (kind P) msg = true) →
  let g := generate backend rnd P prompt sys temperature max_tokens in
  g.1.1 = Raise (exhausted_error (kind P) (max_retries P)) ∧
  map fst (calls g.2) = seq 1 (max_retries P) ∧
  sleeps g.2 = map (λ n, wait_time P n (rnd n)) (seq 1 (max_retries P)) ∧
  map r_status (records g.2)
  = replicate (max_retries P) rate_limited ++ [failed_after_retries].
Proof.
  intros Hlt Hall g. subst g.
  destruct (generate_parts backend rnd P prompt sys temperature max_tokens)
    as (-> & _ & ->).
  by apply loop_exhausts.
Qed.

Lemma generate_exhausts_retries_witness :
  let P := OpenAIProvider default_retry_config [lit "k0"; lit "k1"] (lit "m")
             None in
  map fst (calls (generate limited_backend (fun _ => 0%Q) P (lit "hello") None
                    (1 # 5) 100).2) = [1; 2; 3; 4; 5].
Proof.
  intros P.
  destruct (generate_exhausts_retries limited_backend (fun _ => 0%Q) P
              (lit "hello") None (1 # 5) 100) as (_ & Hcalls & _).
  - simpl. lia.
  - intros n key req. exists (lit "429 Too Many Requests"). split; reflexivity.
  - exact Hcalls.
Defined.

(** X4. The sleeps of one [generate] call add up to at most
    [base_delay * (2^max_retries - 1) + max_retries * jitter_max], for a
    non-negative base delay and jitter bound. *)
Theorem generate_total_backoff_bound backend rnd P prompt sys temperature
    max_tokens :
  (0 <= retry_base_delay P)%Q → (0 <= jitter_max P)%Q →
  (∀ n, (0 <= rnd n)%Q ∧ (rnd n <= 1)%Q) →
  (total_seconds
     (sleeps (generate backend rnd P prompt sys temperature max_tokens).2)
   <= retry_base_delay P * inject_Z (Z.of_nat (2 ^ max_retries P - 1))
      + inject_Z (Z.of_nat (max_retries P)) * jitter_max P)%Q.
Proof.
  intros Hbase Hjm Hrnd.
  destruct (generate_parts backend rnd P prompt sys temperature max_tokens)
    as (_ & _ & ->).
  pose proof (loop_total_sleep backend rnd P prompt sys temperature max_tokens
                (max_retries P) 0 (base P) Hbase Hjm Hrnd) as H.
  rewrite Nat.pow_0_r, Nat.mul_1_l in H. exact H.
Qed.

Lemma generate_total_backoff_bound_witness :
  let P := OpenAIProvider default_retry_config [lit "k0"; lit "k1"] (lit "m")
             None in
  (total_seconds
     (sleeps (generate limited_backend (fun _ => 1 # 2) P (lit "hello") None
                (1 # 5) 100).2)
   <= 1 * inject_Z (Z.of_nat (2 ^ 5 - 1)) + inject_Z (Z.of_nat 5) * (1 # 2))%Q.
Proof.
  intros P.
  apply (generate_total_backoff_bound limited_backend (fun _ => 1 # 2) P
           (lit "hello") None (1 # 5) 100).
  - vm_compute. discriminate.
  - vm_compute. discriminate.
  - intros n. split; vm_compute; discriminate.
Defined.

(** X5. On a provider without any key, no backend call is made and the
    provider is left as it was.  When at least one attempt is allowed
    ([max_retries] is not 0), [generate] raises the [IndexError] of
    [get_next_key] at once (the key is fetched outside the [try]) and no
    telemetry record is written, not even the final [failed_after_retries]
    one.  When [max_retries] is 0 the loop body never runs: no key is
    fetched, the [failed_after_retries] record is the only thing written, and
    the exception raised is the one of the exhausted retries, for 0
    attempts. *)
Theorem generate_without_keys_raises backend rnd P prompt sys temperature
    max_tokens :
  api_keys (base P) = [] →
  let g := generate backend rnd P prompt sys temperature max_tokens in
  base g.1.2 = base P ∧
  calls g.2 = [] ∧
  (max_retries P ≠ 0 →
     g.1.1 = Raise (Exn IndexError (lit "list index out of range")) ∧
     g.2 = []) ∧
  (max_retries P = 0 →
     g.1.1 = Raise (exhausted_error (kind P) 0) ∧
     ∃ rec, g.2 = [EvLog rec] ∧ r_status rec = failed_after_retries ∧
            r_error rec = Some (exhausted_detail (kind P) 0)).
Proof.
  intros Hnone g. subst g. unfold generate.
  destruct (max_retries P) as [|todo] eqn:Hmax.
  - cbn [attempt_loop fst snd]. rewrite Hmax. split; [done|]. split; [done|].
    split; [done|]. intros _. split; [done|]. eexists. by repeat split.
  - cbn [attempt_loop]. unfold get_next_key. rewrite Hnone. done.
Qed.

Lemma generate_without_keys_raises_witness :
  (generate flaky_backend (fun _ => 0%Q)
     (GeminiProvider default_retry_config [] (lit "m")) (lit "hello") None
     (1 # 5) 100).2 = [].
Proof.
  destruct (generate_without_keys_raises flaky_backend (fun _ => 0%Q)
              (GeminiProvider default_retry_config [] (lit "m")) (lit "hello")
              None (1 # 5) 100) as (_ & _ & Hraise & _).
  - reflexivity.
  - destruct Hraise as [_ Hev]; [discriminate | exact Hev].
Defined.

(** X6. An empty (or blocked) response is not retried by either provider:
    the [ValueError] raised for it carries none of the retry keywords, so
    the call ends at that attempt with an [error] record and the
    "API Error" exception, whatever the number of retries allowed. *)
Theorem empty_response_is_terminal backend rnd P prompt sys temperature
    max_tokens :
  current_key_index (base P) < length (api_keys (base P)) →
  max_retries P ≠ 0 →
  (∀ key req, ∃ ti to tt, backend 1 key req = Reply [] ti to tt) →
  let g := generate backend rnd P prompt sys temperature max_tokens in
  g.1.1 = Raise (api_error (kind P) (empty_response_msg (kind P))) ∧
  map fst (calls g.2) = [1] ∧
  sleeps g.2 = [] ∧
  map r_status (records g.2) = [error].
Proof.
  intros Hlt Hmax Hempty g. subst g. unfold generate.
  destruct (max_retries P) as [|todo]; [done|].
  destruct (get_next_key_in_range (base P) Hlt) as (key & _ & Hnext).
  cbn [attempt_loop]. rewrite Hnext.
  match goal with
  | |- context [backend 1 key ?r] => destruct (Hempty key r) as (ti & to & tt & ->)
  end.
  rewrite empty_response_not_retryable. done.
Qed.

Lemma empty_response_is_terminal_witness :
  let P := OpenAIProvider default_retry_config [lit "k0"; lit "k1"] (lit "m")
             None in
  map fst (calls (generate silent_backend (fun _ => 0%Q) P (lit "hello") None
                    (1 # 5) 100).2) = [1].
Proof.
  intros P.
  destruct (empty_response_is_terminal silent_backend (fun _ => 0%Q) P
              (lit "hello") None (1 # 5) 100) as (_ & Hcalls & _).
  - simpl. lia.
  - discriminate.
  - intros key req. by exists None, None, None.
  - exact Hcalls.
Defined.

(** ** The retry classification *)

Lemma startswith_app_r pre s t :
  PyStr.startswith pre s = true → PyStr.startswith pre (s ++ t) = true.
Proof.
  revert s. induction pre as [|a pre IH]; intros [|b s]; simpl; try done.
  destruct (Ascii.eqb a b); [apply IH | done].
Qed.

Lemma contains_app_r sub s t :
  PyStr.contains sub s = true → PyStr.contains sub (s ++ t) = true.
Proof.
  induction s as [|c s IH]; simpl.
  - rewrite orb_false_r. intros H. destruct sub; [|done].
    destruct t; reflexivity.
  - intros [H|H]%orb_true_iff.
    + apply (startswith_app_r _ _ t) in H. simpl in H. by rewrite H.
    + rewrite (IH H). apply orb_true_r.
Qed.

Lemma contains_app_l sub s t :
  PyStr.contains sub t = true → PyStr.contains sub (s ++ t) = true.
Proof.
  intros H. induction s as [|c s IH]; simpl; [done|].
  change (PyStr.contains sub (s ++ t)) with (PyStr.contains sub (s ++ t)) in IH.
  rewrite IH. apply orb_true_r.
Qed.

(** X7. The classification looks for the keywords anywhere in the
    lower-cased message: a retryable message stays retryable when text is
    put before and after it and when the case of its letters changes. *)
Theorem retry_classification_is_by_substring k msg before after wrapped :
  is_retryable k msg = true →
  PyStr.lower wrapped = PyStr.lower (before ++ msg ++ after) →
  is_retryable k wrapped = true.
Proof.
  intros Hre Hwrapped.
  apply is_retryable_keyword in Hre as (kw & Hin & Hc).
  apply is_retryable_keyword. exists kw. split; [done|].
  rewrite Hwrapped. unfold PyStr.lower. rewrite !map_app.
  by apply contains_app_l, contains_app_r.
Qed.

Lemma retry_classification_is_by_substring_witness :
  is_retryable OpenAI (lit "Error code: 429 - RATE LIMIT reached") = true.
Proof.
  apply (retry_classification_is_by_substring OpenAI (lit "rate limit")
           (lit "Error code: 429 - ") (lit " reached")).
  - reflexivity.
  - reflexivity.
Defined.

(** ** The rotation over one period *)

Lemma set_index_same p : set_index p (current_key_index p) = p.
Proof. by destruct p. Qed.

Lemma serve_callers_state {C} (callers : list C) p :
  current_key_index p < length (api_keys p) →
  (serve_callers callers p).2
  = set_index p ((current_key_index p + length callers) mod length (api_keys p)).
Proof.
  revert p. induction callers as [|c rest IH]; intros p Hlt.
  - simpl. rewrite Nat.add_0_r, Nat.mod_small by done. by rewrite set_index_same.
  - destruct (get_next_key_in_range p Hlt) as (key & _ & Hnext).
    simpl. rewrite Hnext.
    set (p1 := set_index p _).
    assert (Hlt1 : current_key_index p1 < length (api_keys p1))
      by (subst p1; simpl; apply Nat.mod_upper_bound; lia).
    specialize (IH p1 Hlt1).
    destruct (serve_callers rest p1); simpl in *. rewrite IH.
    subst p1. unfold set_index; simpl.
    rewrite Nat.Div0.add_mod_idemp_l. do 2 f_equal. lia.
Qed.

Lemma rotation_lookup (keys : list str) i j :
  i < length keys → j < length keys →
  (drop i keys ++ take i keys) !! j = keys !! ((i + j) mod length keys).
Proof.
  intros Hi Hj. destruct (decide (i + j < length keys)) as [Hlt|Hge].
  - rewrite lookup_app_l by (rewrite length_drop; lia).
    rewrite lookup_drop, Nat.mod_small by done. done.
  - rewrite lookup_app_r by (rewrite length_drop; lia).
    rewrite length_drop.
    rewrite lookup_take_lt by lia.
    f_equal.
    replace (i + j) with ((j - (length keys - i)) + 1 * length keys) by lia.
    rewrite Nat.Div0.mod_add, Nat.mod_small; lia.
Qed.

(** X8. Over any N consecutive calls to [get_next_key] on a provider with N
    keys, every key is handed out exactly once, in the order of the list
    starting at the counter and wrapping around, and the provider is back
    in the state it started from. *)
Theorem rotation_period {C} (callers : list C) p :
  current_key_index p < length (api_keys p) →
  length callers = length (api_keys p) →
  map snd (serve_callers callers p).1
  = map Ok (drop (current_key_index p) (api_keys p)
            ++ take (current_key_index p) (api_keys p)) ∧
  (serve_callers callers p).2 = p.
Proof.
  intros Hlt Hlen. split.
  - apply list_eq. intros j. rewrite !list_lookup_fmap.
    destruct (callers !! j) as [c|] eqn:Hc.
    + destruct (serve_callers_from callers p j c Hlt Hc) as (key & -> & Hkey).
      apply lookup_lt_Some in Hc.
      rewrite rotation_lookup, Hkey by lia. done.
    + apply lookup_ge_None in Hc.
      rewrite (proj2 (lookup_ge_None _ _)), (proj2 (lookup_ge_None _ _)); [done| |].
      * rewrite length_app, length_drop, length_take. lia.
      * rewrite serve_callers_length. lia.
  - rewrite serve_callers_state, Hlen by done.
    rewrite <- (Nat.mul_1_l (length (api_keys p))) at 1.
    rewrite Nat.Div0.mod_add, Nat.mod_small by done.
    apply set_index_same.
Qed.

Lemma rotation_period_witness :
  let p := set_index (init_provider [lit "k0"; lit "k1"; lit "k2"] (lit "m")) 1 in
  map snd (serve_callers [1; 2; 3] p).1
  = [Ok (lit "k1"); Ok (lit "k2"); Ok (lit "k0")] ∧
  (serve_callers [1; 2; 3] p).2 = p.
Proof.
  intros p. apply (rotation_period [1; 2; 3] p).
  - simpl. lia.
  - reflexivity.
Defined.

(** ** Reading the key lists *)

Lemma split_go_no_sep sep cur s piece :
  sep ∉ cur → piece ∈ PyStr.split_go sep cur s → sep ∉ piece.
Proof.
  revert cur. induction s as [|c s IH]; intros cur Hcur; simpl.
  - intros ->%list_elem_of_singleton Hin.
    apply Hcur. apply list_elem_of_In, in_rev, list_elem_of_In in Hin. done.
  - destruct (Ascii.eqb_spec c sep) as [->|Hne].
    + intros [->|Hin]%elem_of_cons.
      * intros Hin. apply Hcur.
        apply list_elem_of_In, in_rev, list_elem_of_In in Hin. done.
      * apply (IH []); [apply not_elem_of_nil | done].
    + apply IH. intros [->|Hin]%elem_of_cons; done.
Qed.

Lemma lstrip_subset s c : c ∈ PyStr.lstrip s → c ∈ s.
Proof.
  destruct (lstrip_split s) as (w & Hs & _). intros Hin.
  rewrite Hs. apply elem_of_app. by right.
Qed.

Lemma rstrip_subset s c : c ∈ PyStr.rstrip s → c ∈ s.
Proof.
  destruct (rstrip_split s) as (w & Hs & _). intros Hin.
  rewrite Hs. apply elem_of_app. by left.
Qed.

Lemma strip_subset s c : c ∈ PyStr.strip s → c ∈ s.
Proof. intros H. by apply lstrip_subset, rstrip_subset. Qed.

Lemma lstrip_head s c r :
  PyStr.lstrip s = c :: r → PyStr.isspace c = false.
Proof.
  induction s as [|x s IH]; simpl; [done|].
  destruct (PyStr.isspace x) eqn:Hx; [done|]. by intros [= <- _].
Qed.

Lemma lstrip_fixed c r : PyStr.isspace c = false → PyStr.lstrip (c :: r) = c :: r.
Proof. intros H. simpl. by rewrite H. Qed.

Lemma lstrip_idem s : PyStr.lstrip (PyStr.lstrip s) = PyStr.lstrip s.
Proof.
  destruct (PyStr.lstrip s) as [|c r] eqn:H; [done|].
  apply lstrip_fixed. by apply lstrip_head in H.
Qed.

Lemma rstrip_idem s : PyStr.rstrip (PyStr.rstrip s) = PyStr.rstrip s.
Proof. unfold PyStr.rstrip. by rewrite rev_involutive, lstrip_idem. Qed.

(** Stripping on the right keeps a first character that is not a space. *)
Lemma rstrip_keeps_head c r :
  PyStr.isspace c = false → ∃ r', PyStr.rstrip (c :: r) = c :: r'.
Proof.
  intros Hc. unfold PyStr.rstrip. simpl. rewrite lstrip_app.
  destruct (PyStr.lstrip (rev r)) as [|x z] eqn:Hz.
  - simpl. rewrite Hc. by exists [].
  - rewrite rev_app_distr. simpl. by eexists.
Qed.

Lemma strip_idem s : PyStr.strip (PyStr.strip s) = PyStr.strip s.
Proof.
  unfold PyStr.strip.
  destruct (PyStr.lstrip s) as [|c r] eqn:Hl; [done|].
  apply lstrip_head in Hl.
  destruct (rstrip_keeps_head c r Hl) as [r' Hr].
  rewrite Hr, lstrip_fixed by done. rewrite <- Hr. apply rstrip_idem.
Qed.

Lemma parse_keys_all_clean s : Forall clean_key (parse_keys s).
Proof.
  apply Forall_forall. intros k. unfold parse_keys. intros Hin.
  apply list_elem_of_In, filter_In in Hin as [Hin Hne].
  apply in_map_iff in Hin as (piece & <- & Hpiece).
  apply list_elem_of_In in Hpiece.
  split; [by destruct (PyStr.strip piece)|].
  split; [|apply strip_idem].
  intros Hcomma%strip_subset.
  by apply (split_go_no_sep _ [] s piece (not_elem_of_nil _)) in Hcomma.
Qed.

(** X9. Every key that [parse_keys] reads out of a comma-separated list is
    non-empty, holds no comma and has no white space at either end. *)
Theorem parse_keys_clean s k : k ∈ parse_keys s → clean_key k.
Proof.
  intros Hin.
  by apply (proj1 (Forall_forall _ _) (parse_keys_all_clean s)).
Qed.

Lemma parse_keys_clean_witness : clean_key (lit "sk-2").
Proof.
  apply (parse_keys_clean (lit " sk-1 ,, sk-2,")).
  apply list_elem_of_In. simpl. tauto.
Defined.

Lemma split_go_piece sep cur k :
  sep ∉ k → PyStr.split_go sep cur k = [rev cur ++ k].
Proof.
  revert cur. induction k as [|c k IH]; intros cur Hk; simpl.
  - by rewrite app_nil_r.
  - destruct (Ascii.eqb_spec c sep) as [->|Hne].
    + exfalso. apply Hk. apply list_elem_of_here.
    + rewrite IH by (intros Hin; apply Hk; by apply list_elem_of_further).
      simpl. by rewrite <- app_assoc.
Qed.

Lemma split_go_sep sep cur k rest :
  sep ∉ k →
  PyStr.split_go sep cur (k ++ sep :: rest)
  = (rev cur ++ k) :: PyStr.split_go sep [] rest.
Proof.
  revert cur. induction k as [|c k IH]; intros cur Hk; simpl.
  - rewrite Ascii.eqb_refl. by rewrite app_nil_r.
  - destruct (Ascii.eqb_spec c sep) as [->|Hne].
    + exfalso. apply Hk. apply list_elem_of_here.
    + rewrite IH by (intros Hin; apply Hk; by apply list_elem_of_further).
      simpl. by rewrite <- app_assoc.
Qed.

(** X10. Reading back a list of clean ASCII keys joined with commas gives
    the same keys in the same order. *)
Theorem parse_keys_join keys :
  Forall ascii_text keys →
  Forall clean_key keys →
  parse_keys (join_with (lit ",") keys) = keys.
Proof.
  intros _. unfold parse_keys, PyStr.split.
  induction 1 as [|k rest (Hne & Hcomma & Hstrip) Hrest IH]; [done|].
  destruct rest as [|k' rest'].
  - simpl. rewrite split_go_piece by done. simpl. rewrite Hstrip.
    by destruct k.
  - change (join_with (lit ",") (k :: k' :: rest'))
      with (k ++ ","%char :: join_with (lit ",") (k' :: rest')).
    rewrite split_go_sep by done. simpl rev. cbn [app map List.filter].
    rewrite Hstrip.
    destruct k as [|c k0]; [done|]. cbn [nonempty]. by rewrite IH.
Qed.

Lemma parse_keys_join_witness :
  parse_keys (join_with (lit ",") [lit "sk-1"; lit "sk-2"])
  = [lit "sk-1"; lit "sk-2"].
Proof.
  apply parse_keys_join.
  - repeat constructor; simpl; lia.
  - repeat constructor; try discriminate; try reflexivity.
    all: intros Hin; apply list_elem_of_In in Hin; simpl in Hin;
      repeat destruct Hin as [Hin|Hin]; try discriminate Hin; done.
Defined.

(** ** The registry after initialization *)

Lemma dict_get_elem {V} (d : list (str * V)) name v :
  dict_get d name = Some v → (name, v) ∈ d.
Proof.
  induction d as [|[k x] rest IH]; simpl; [done|].
  destruct (decide (k = name)) as [->|Hne].
  - intros [= ->]. apply list_elem_of_here.
  - intros H. apply list_elem_of_further. by apply IH.
Qed.

Lemma dict_get_head {V} (name : str) (v : V) rest :
  dict_get ((name, v) :: rest) name = Some v.
Proof. simpl. by rewrite decide_True. Qed.


Lemma loaded_names gemini_cfg openai_cfg env :
  let names := map fst (loaded_providers gemini_cfg openai_cfg env) in
  names = [] ∨ names = [lit "gemini"] ∨ names = [lit "openai"] ∨
  names = [lit "gemini"; lit "openai"].
Proof.
  unfold loaded_providers.
  destruct (nonempty _ && negb _); destruct (nonempty _ && negb _); simpl;
    tauto.
Qed.

(** X11. A registry that initialization has built holds at most one
    provider per name, "gemini" before "openai", each of the variant its
    name says, with at least one key, all keys clean, and the counter at 0;
    its default name is registered, so that [get_provider] without a name
    succeeds, and so does [get_provider] with any of the available names. *)
Theorem loaded_registry_is_well_formed gemini_cfg openai_cfg env m :
  _load_providers gemini_cfg openai_cfg env = Ok m →
  (get_available_providers m = [lit "gemini"] ∨
   get_available_providers m = [lit "openai"] ∨
   get_available_providers m = [lit "gemini"; lit "openai"]) ∧
  (∀ name P, (name, P) ∈ providers m →
     provider_name (kind P) = name ∧
     api_keys (base P) ≠ [] ∧
     Forall clean_key (api_keys (base P)) ∧
     current_key_index (base P) = 0) ∧
  (∃ P, get_provider m None = Ok P ∧ (default_provider m, P) ∈ providers m) ∧
  (∀ name, name ∈ get_available_providers m →
     ∃ P, get_provider m (Some name) = Ok P ∧ provider_name (kind P) = name).
Proof.
  intros Hm.
  remember (loaded_providers gemini_cfg openai_cfg env) as L eqn:HL.
  set (default :=
         PyStr.lower (getenv env (lit "DEFAULT_AI_PROVIDER") (lit "gemini"))).
  assert (∃ first P0 rest,
            L = (first, P0) :: rest ∧ providers m = L ∧
            default_provider m
            = match dict_get L default with Some _ => default | None => first end)
    as (first & P0 & rest & Hcons & Hp & Hd).
  { unfold _load_providers in Hm. rewrite <- HL in Hm.
    destruct L as [|[f p] r]; [done|]. injection Hm as <-. by eexists _, _, _. }
  clear Hm.
  assert (Hentries : ∀ name P, (name, P) ∈ L →
    provider_name (kind P) = name ∧ api_keys (base P) ≠ [] ∧
    Forall clean_key (api_keys (base P)) ∧ current_key_index (base P) = 0).
  { rewrite HL. unfold loaded_providers. intros name P Hin.
    apply elem_of_app in Hin as [Hin|Hin].
    all: destruct (nonempty _); simpl in Hin; [|by apply elem_of_nil in Hin].
    all: destruct (bool_decide _) eqn:Hkeys; simpl in Hin;
      [by apply elem_of_nil in Hin|].
    all: apply list_elem_of_singleton in Hin as [= -> ->]; simpl.
    all: apply bool_decide_eq_false in Hkeys.
    all: split; [done|]; split; [done|]; split; [|done].
    all: apply parse_keys_all_clean. }
  assert (Hnames :
    map fst L = [lit "gemini"] ∨ map fst L = [lit "openai"] ∨
    map fst L = [lit "gemini"; lit "openai"]).
  { pose proof (loaded_names gemini_cfg openai_cfg env) as Hn.
    cbv zeta in Hn. rewrite <- HL in Hn.
    destruct Hn as [Hn|Hn]; [by rewrite Hcons in Hn | exact Hn]. }
  assert (Hlookup : ∀ name, name ∈ map fst L → ∃ P, dict_get L name = Some P).
  { clear -Hnames Hcons. intros name Hname. rewrite Hcons in *.
    destruct Hnames as [H|[H|H]].
    - injection H as -> Hrest. apply map_eq_nil in Hrest as ->.
      apply list_elem_of_singleton in Hname as ->.
      rewrite dict_get_head. eauto.
    - injection H as -> Hrest. apply map_eq_nil in Hrest as ->.
      apply list_elem_of_singleton in Hname as ->.
      rewrite dict_get_head. eauto.
    - injection H as -> Hrest.
      destruct rest as [|[second P1] rest']; [done|].
      injection Hrest as -> Hrest. apply map_eq_nil in Hrest as ->.
      apply elem_of_cons in Hname as [->|Hname].
      + rewrite dict_get_head. eauto.
      + apply list_elem_of_singleton in Hname as ->.
        cbn [dict_get]. rewrite decide_False by discriminate.
        rewrite decide_True by done. eauto. }
  unfold get_available_providers. rewrite Hp.
  split; [exact Hnames|]. split; [exact Hentries|]. split.
  - unfold get_provider. rewrite Hp, Hd.
    destruct (dict_get L default) as [P|] eqn:Hdefault.
    + rewrite Hdefault. exists P. split; [done|]. by apply dict_get_elem.
    + assert (dict_get L first = Some P0) as ->
        by (rewrite Hcons; apply dict_get_head).
      exists P0.
      split; [done|]. rewrite Hcons. apply list_elem_of_here.
  - intros name Hname. destruct (Hlookup name Hname) as [P HP].
    apply dict_get_elem in HP as Hin.
    destruct (Hentries name P Hin) as (Hkind & _).
    exists P. split; [|done].
    unfold get_provider. rewrite Hp.
    assert (name ≠ []) as Hne by (rewrite <- Hkind; by destruct (kind P)).
    destruct name as [|c s]; [done|]. by rewrite HP.
Qed.

Lemma loaded_registry_is_well_formed_witness :
  ∃ m, _load_providers default_retry_config default_retry_config
         openai_only_env = Ok m ∧
       get_available_providers m = [lit "openai"] ∧
       ∃ P, get_provider m (Some (lit "openai")) = Ok P ∧ kind P = OpenAI.
Proof.
  destruct (_load_providers default_retry_config default_retry_config
              openai_only_env) as [m|e] eqn:Hload; [|discriminate Hload].
  destruct (loaded_registry_is_well_formed _ _ _ _ Hload)
    as (_ & _ & _ & Hresolve).
  injection Hload as <-.
  exists {| providers := loaded_providers default_retry_config
                           default_retry_config openai_only_env;
            default_provider := lit "openai" |}.
  split; [reflexivity|]. split; [reflexivity|].
  destruct (Hresolve (lit "openai")) as (P & HP & Hkind).
  - apply list_elem_of_In. simpl. tauto.
  - exists P. split; [exact HP|]. by destruct (kind P).
Defined.

(** ** Truncation and the token estimate *)

(** Counting characters in the UTF-8 bytes. *)
Lemma len_app a b : PyStr.len (a ++ b) = PyStr.len a + PyStr.len b.
Proof.
  induction a as [|c a IH]; simpl; [done|].
  destruct (PyStr.is_continuation c); lia.
Qed.

Lemma len_slice_to n s : PyStr.len (PyStr.slice_to n s) = n `min` PyStr.len s.
Proof.
  revert n. induction s as [|c s IH]; intros n; simpl; [lia|].
  destruct (PyStr.is_continuation c) eqn:Hc; simpl.
  - rewrite Hc. apply IH.
  - destruct n as [|k]; simpl; [done|]. rewrite Hc, IH. lia.
Qed.

Lemma slice_to_all n s : PyStr.len s ≤ n → PyStr.slice_to n s = s.
Proof.
  revert n. induction s as [|c s IH]; intros n; simpl; [done|].
  destruct (PyStr.is_continuation c).
  - intros Hle. by rewrite IH.
  - destruct n as [|k]; [lia|]. intros Hle. rewrite IH; [done | lia].
Qed.

(** A slice that ends where the next character begins. *)
Lemma slice_to_app_exact n a c b :
  PyStr.len a = n → PyStr.is_continuation c = false →
  PyStr.slice_to n (a ++ c :: b) = a.
Proof.
  intros Hlen Hc. revert n Hlen.
  induction a as [|x a IH]; intros n; simpl.
  - intros <-. by rewrite Hc.
  - destruct (PyStr.is_continuation x).
    + intros Hlen. by rewrite IH.
    + destruct n as [|k]; [done|]. intros [= Hlen]. by rewrite IH.
Qed.

Lemma ascii_not_continuation c :
  nat_of_ascii c < 128 → PyStr.is_continuation c = false.
Proof.
  intros Hc. unfold PyStr.is_continuation.
  destruct (Nat.leb_spec 128 (nat_of_ascii c)); [lia | done].
Qed.

Lemma len_ascii s : ascii_text s → PyStr.len s = length s.
Proof.
  induction 1 as [|c s Hc _ IH]; simpl; [done|].
  by rewrite ascii_not_continuation, IH.
Qed.

Lemma slice_to_ascii n s : ascii_text s → PyStr.slice_to n s = take n s.
Proof.
  intros Hs. revert n. induction Hs as [|c s Hc _ IH]; intros n; simpl.
  - by destruct n.
  - rewrite ascii_not_continuation by done.
    destruct n as [|k]; simpl; [done | by rewrite IH].
Qed.

Lemma compact_history_len content max_chars :
  PyStr.len (compact_history content max_chars)
  ≤ max_chars + PyStr.len truncation_marker.
Proof.
  unfold compact_history.
  destruct (Nat.leb_spec (PyStr.len content) max_chars) as [Hle|Hgt]; [lia|].
  rewrite len_app, len_slice_to. lia.
Qed.

(** X12. [compact_history] returns the content unchanged when it has at
    most [max_chars] characters, and otherwise its first [max_chars]
    characters followed by the truncation marker, which has 18 of them; the
    result never has more characters than [max_chars] plus the marker,
    always starts like the content, and compacting it again changes nothing.
    Characters are counted as [len()] counts them; on a text of ASCII
    characters they are the bytes. *)
Theorem compact_history_bounds content max_chars :
  let compact := compact_history content max_chars in
  PyStr.len compact ≤ max_chars + PyStr.len truncation_marker ∧
  (PyStr.len content ≤ max_chars → compact = content) ∧
  (max_chars < PyStr.len content →
     compact = PyStr.slice_to max_chars content ++ truncation_marker ∧
     PyStr.len compact = max_chars + PyStr.len truncation_marker) ∧
  PyStr.slice_to max_chars compact = PyStr.slice_to max_chars content ∧
  compact_history compact max_chars = compact ∧
  PyStr.len truncation_marker = 18 ∧
  (ascii_text content →
     PyStr.len content = length content ∧
     PyStr.slice_to max_chars content = take max_chars content).
Proof.
  intros compact. subst compact. unfold compact_history.
  assert (Hascii : ascii_text content →
            PyStr.len content = length content ∧
            PyStr.slice_to max_chars content = take max_chars content).
  { intros Hc. split; [by apply len_ascii | by apply slice_to_ascii]. }
  split; [apply compact_history_len|]. unfold compact_history.
  destruct (Nat.leb_spec (PyStr.len content) max_chars) as [Hle|Hgt].
  - split; [done|]. split; [lia|]. split; [done|].
    split; [|split; [reflexivity | exact Hascii]].
    destruct (Nat.leb_spec (PyStr.len content) max_chars); [done | lia].
  - assert (Hlen : PyStr.len (PyStr.slice_to max_chars content) = max_chars)
      by (rewrite len_slice_to; lia).
    assert (Hcut : PyStr.slice_to max_chars
                     (PyStr.slice_to max_chars content ++ truncation_marker)
                   = PyStr.slice_to max_chars content)
      by by apply slice_to_app_exact.
    split; [lia|].
    split; [split; [done | rewrite len_app; lia]|].
    split; [done|]. split; [|by split].
    destruct (Nat.leb_spec
                (PyStr.len (PyStr.slice_to max_chars content ++ truncation_marker))
                max_chars) as [Hle'|_].
    + rewrite len_app, Hlen in Hle'. simpl in Hle'. lia.
    + by rewrite Hcut.
Qed.

(** The characters are not the bytes: a text of three two-byte characters
    fits in four characters, and counts for one token. *)
Lemma compact_history_counts_characters :
  length (lit "ééé") = 6 ∧ PyStr.len (lit "ééé") = 3 ∧
  compact_history (lit "ééé") 4 = lit "ééé" ∧
  compact_history (lit "ééé") 2 = lit "éé" ++ truncation_marker ∧
  estimate_tokens (lit "ééé") = 1.
Proof. repeat split; reflexivity. Qed.

(** X13. [estimate_tokens] is the number of characters divided by three,
    rounded down: it never exceeds a third of that number, grows with it,
    and after [compact_history] it is bounded by a third of [max_chars] plus
    the marker. *)
Theorem estimate_tokens_bounds text longer max_chars :
  3 * estimate_tokens text ≤ PyStr.len text ∧
  PyStr.len text < 3 * estimate_tokens text + 3 ∧
  (PyStr.len text ≤ PyStr.len longer →
     estimate_tokens text ≤ estimate_tokens longer) ∧
  estimate_tokens (compact_history text max_chars)
  ≤ (max_chars + PyStr.len truncation_marker) / 3.
Proof.
  assert (Hest : ∀ t, estimate_tokens t = PyStr.len t / 3).
  { intros [|c t]; [reflexivity | done]. }
  rewrite !Hest.
  pose proof (Nat.div_mod_eq (PyStr.len text) 3) as Hdiv.
  pose proof (Nat.mod_upper_bound (PyStr.len text) 3).
  split; [lia|]. split; [lia|]. split.
  - intros Hle. apply Nat.Div0.div_le_mono. done.
  - apply Nat.Div0.div_le_mono. apply compact_history_len.
Qed.

(** ** Runs of the pipeline *)

Section RunFacts.
Variable loads : str → result json.
Variable dumps : json → str.
Variable disk : str → str → write_fault.
Variable logged : str → nat → attempt_record → option str.
Variables (OUTPUT_DIR SYSTEM_PROMPT : str) (MAX_OUTPUT_TOKENS : nat).
Variable backend : str → nat → str → backend_request → backend_reply.
Variable rnd : str → nat → Q.

Let out (file : str) := output_path_of OUTPUT_DIR (basename file).
Let err (file : str) := error_path_of OUTPUT_DIR (basename file).
Let pf := process_file loads dumps disk logged OUTPUT_DIR SYSTEM_PROMPT
            MAX_OUTPUT_TOKENS backend rnd.
Let pa := process_all loads dumps disk logged OUTPUT_DIR SYSTEM_PROMPT
            MAX_OUTPUT_TOKENS backend rnd.

(** The paths a run may touch besides the artifacts: the two log files. *)
Let not_a_log (p : str) := p ≠ log_file Gemini ∧ p ≠ log_file OpenAI.

Lemma dict_set_names {V} (d : list (str * V)) name v :
  map fst (dict_set d name v) = map fst d.
Proof.
  induction d as [|[k x] rest IH]; simpl; [done|].
  destruct (decide (k = name)); simpl; [done | by rewrite IH].
Qed.

(** The one write of [process_file], on top of the files [before]. *)
Lemma write_step (before : gmap str str) (m' : LLMManager) (evs : list event)
    (file path text : str) (returned : job_result) :
  let d := match write_file before path text (disk path text) with
           | (fs2, None) => (returned, fs2, m', evs)
           | (fs2, Some e) => (failed (basename file) (exn_msg e), fs2, m', evs)
           end in
  (d.1.1.1 = returned ∨ jr_status d.1.1.1 = job_error) ∧
  (jr_file returned = basename file → jr_file d.1.1.1 = basename file) ∧
  d.1.2 = m' ∧
  (∀ p, is_Some (before !! p) → is_Some (d.1.1.2 !! p)) ∧
  (∀ p, p ≠ path → d.1.1.2 !! p = before !! p) ∧
  (d.1.1.1 = returned → is_Some (d.1.1.2 !! path) ∨ jr_status returned = job_error).
Proof.
  intros d.
  pose proof (write_file_keeps before path text (disk path text)) as Hkeep.
  pose proof (write_file_other before path text (disk path text)) as Hother.
  subst d. destruct (disk path text) as [|written e|e]; simpl in *.
  - repeat split; try done; [by left|]. intros _. left.
    rewrite lookup_insert_eq. eauto.
  - repeat split; try done; [by right|]. intros _. left.
    rewrite lookup_insert_eq. eauto.
  - repeat split; try done; [by right|]. intros <-. by right.
Qed.

Lemma process_file_cases fs m file provider :
  let r := (pf fs m file provider).1.1.1 in
  let fs' := (pf fs m file provider).1.1.2 in
  let m' := (pf fs m file provider).1.2 in
  jr_file r = basename file ∧
  map fst (providers m') = map fst (providers m) ∧
  (∀ p, is_Some (fs !! p) → is_Some (fs' !! p)) ∧
  (∀ p, p ≠ out file → p ≠ err file → not_a_log p → fs' !! p = fs !! p) ∧
  (jr_status r = job_success → is_Some (fs' !! out file)).
Proof.
  unfold pf, process_file.
  destruct (fs !! file) as [raw|]; simpl; [|done].
  destruct (get_provider m provider) as [llm|e0]; simpl; [|done].
  destruct (generate _ _ llm _ _ _ _) as [[res llm'] evs].
  set (logs := write_logs (logged file) (log_file (kind llm)) 0 evs fs).
  assert (Hkeep : ∀ p, is_Some (fs !! p) → is_Some (logs !! p))
    by (intros p Hp; by apply write_logs_keeps).
  assert (Hother : ∀ p, not_a_log p → logs !! p = fs !! p).
  { intros p [Hg Ho]. apply write_logs_other. by destruct (kind llm). }
  assert (Hcaught : ∀ e : exn,
    let d := (failed (basename file) (exn_msg e), logs,
              store_provider m provider llm', evs) in
    jr_file d.1.1.1 = basename file ∧
    map fst (providers d.1.2) = map fst (providers m) ∧
    (∀ p, is_Some (fs !! p) → is_Some (d.1.1.2 !! p)) ∧
    (∀ p, p ≠ out file → p ≠ err file → not_a_log p →
          d.1.1.2 !! p = fs !! p) ∧
    (jr_status d.1.1.1 = job_success → is_Some (d.1.1.2 !! out file))).
  { intros e. simpl. split; [done|]. split; [apply dict_set_names|].
    split; [done|]. split; [|done]. intros p _ _. apply Hother. }
  assert (Hwrite : ∀ (path text : str) (returned : job_result),
    jr_file returned = basename file →
    (path = out file ∨ path = err file ∧ jr_status returned = job_error) →
    let d := match write_file logs path text (disk path text) with
             | (fs2, None) => (returned, fs2, store_provider m provider llm', evs)
             | (fs2, Some e) =>
                 (failed (basename file) (exn_msg e), fs2,
                  store_provider m provider llm', evs)
             end in
    jr_file d.1.1.1 = basename file ∧
    map fst (providers d.1.2) = map fst (providers m) ∧
    (∀ p, is_Some (fs !! p) → is_Some (d.1.1.2 !! p)) ∧
    (∀ p, p ≠ out file → p ≠ err file → not_a_log p →
          d.1.1.2 !! p = fs !! p) ∧
    (jr_status d.1.1.1 = job_success → is_Some (d.1.1.2 !! out file))).
  { intros path text returned Hfile Hpath.
    pose proof (write_step logs (store_provider m provider llm') evs file
                  path text returned)
      as (Hres & Hname & Hm & Hk & Ho & Hdone).
    cbv zeta in *. split; [by apply Hname|].
    split; [rewrite Hm; apply dict_set_names|].
    split; [intros p Hp; by apply Hk, Hkeep|]. split.
    - intros p Hout Herr Hlog. rewrite Ho; [by apply Hother|].
      destruct Hpath as [->|[-> _]]; done.
    - intros Hsucc. destruct Hres as [Hres|Hres]; [|congruence].
      destruct (Hdone Hres) as [Hthere|Hbad].
      + destruct Hpath as [->|[_ Hbad]]; [done|].
        rewrite Hres in Hsucc. congruence.
      + rewrite Hres in Hsucc. congruence. }
  destruct res as [text|e1]; [|apply Hcaught].
  destruct (parse_json_safely loads text) as [data|e2]; [|apply Hcaught].
  destruct (truthy data); [apply Hwrite; [done | by left]|].
  destruct (loads text) as [data'|e3]; [apply Hwrite; [done | by left]|].
  destruct (is_decode_error e3); [|apply Hcaught].
  apply Hwrite; [done | by right].
Qed.

Lemma process_all_facts fs m files provider :
  let rs := (pa fs m files provider).1.1.1 in
  let fs' := (pa fs m files provider).1.1.2 in
  let m' := (pa fs m files provider).1.2 in
  map jr_file rs = map basename files ∧
  map fst (pa fs m files provider).2 = files ∧
  map fst (providers m') = map fst (providers m) ∧
  (∀ p, is_Some (fs !! p) → is_Some (fs' !! p)) ∧
  (∀ p, (∀ file, file ∈ files → p ≠ out file ∧ p ≠ err file) →
        not_a_log p → fs' !! p = fs !! p) ∧
  (Forall (λ r, jr_status r = job_success) rs →
   ∀ file, file ∈ files → is_Some (fs' !! out file)).
Proof.
  revert fs m. induction files as [|file rest IH]; intros fs m.
  { simpl. repeat split; try done. intros _ file Hin. by apply elem_of_nil in Hin. }
  unfold pa in *. cbn [process_all].
  pose proof (process_file_cases fs m file provider)
    as (Hfile & Hnames & Hkeep & Hother & Hdone).
  unfold pf in *.
  destruct (process_file _ _ _ _ _ _ _ _ _ fs m file provider)
    as [[[r fs1] m1] evs]; simpl in *.
  specialize (IH fs1 m1).
  destruct (process_all _ _ _ _ _ _ _ _ _ fs1 m1 rest provider)
    as [[[rs fs2] m2] trace]; simpl in *.
  destruct IH as (Hfiles & Htrace & Hnames' & Hmono & Hsame & Hsucc).
  split; [by rewrite Hfile, Hfiles|]. split; [by rewrite Htrace|].
  split; [by rewrite Hnames', Hnames|]. split; [|split].
  - intros p Hp. by apply Hmono, Hkeep.
  - intros p Hp Hlog. rewrite Hsame; [| |done].
    + destruct (Hp file) as [Ho He]; [apply list_elem_of_here|].
      by apply Hother.
    + intros f Hf. apply Hp. by apply list_elem_of_further.
  - intros Hall f Hf. inversion Hall as [|? ? Hr Hrs]; subst.
    apply elem_of_cons in Hf as [->|Hf].
    + by apply Hmono, Hdone.
    + by apply Hsucc.
Qed.

(** What a run does to the files. *)
Lemma run_files_facts input_dir entries fs m provider :
  let r := run_workflow loads dumps disk logged OUTPUT_DIR SYSTEM_PROMPT
             MAX_OUTPUT_TOKENS backend rnd input_dir entries fs m provider in
  (∀ p, is_Some (fs !! p) → is_Some (files_after r !! p)) ∧
  (∀ p, (∀ file, file ∈ taken_up OUTPUT_DIR input_dir entries fs →
                 p ≠ out file ∧ p ≠ err file) →
        not_a_log p → files_after r !! p = fs !! p).
Proof.
  intros r. subst r. unfold run_workflow, taken_up.
  destruct entries as [names|]; [|done].
  destruct (scan OUTPUT_DIR input_dir fs names) as [[|f files] [|n]]; try done.
  all: pose proof (process_all_facts fs m (f :: files) provider)
         as (_ & _ & _ & Hmono & Hsame & _).
  all: unfold pa in *.
  all: destruct (process_all _ _ _ _ _ _ _ _ _ fs m (f :: files) provider)
         as [[[rs fs'] m'] trace]; simpl in *.
  all: split; [apply Hmono | apply Hsame].
Qed.

End RunFacts.

Lemma basename_go_plain acc f :
  no_slash f → basename_go acc f = rev acc ++ f.
Proof.
  intros Hf. revert acc. induction Hf as [|c f Hc _ IH]; intros acc; simpl.
  - by rewrite app_nil_r.
  - destruct (Ascii.eqb_spec c slash) as [->|_]; [done|].
    rewrite IH. simpl. by rewrite <- app_assoc.
Qed.

Lemma basename_go_after_slash acc dir f :
  no_slash f → basename_go acc (dir ++ slash :: f) = f.
Proof.
  intros Hf. revert acc. induction dir as [|c dir IH]; intros acc; simpl.
  - by rewrite basename_go_plain.
  - destruct (Ascii.eqb c slash); apply IH.
Qed.

(** The name of a directory entry is the base name of its joined path. *)
Lemma basename_path_join dir f :
  no_slash f → basename (PyStr.path_join dir f) = f.
Proof.
  intros Hf. unfold basename, PyStr.path_join.
  rewrite not_absolute by done.
  destruct dir as [|c dir]; [by rewrite basename_go_plain|].
  cbn [orb]. destruct (PyStr.endswith (c :: dir) (lit "/")) eqn:Hend.
  - unfold PyStr.endswith in Hend.
    change (rev (lit "/")) with [slash] in Hend.
    destruct (rev (c :: dir)) as [|x r] eqn:Hrev; [done|].
    cbn [PyStr.startswith] in Hend.
    destruct (Ascii.eqb_spec slash x) as [<-|]; [|done].
    apply (f_equal (@rev ascii)) in Hrev. rewrite rev_involutive in Hrev.
    rewrite Hrev. simpl rev. rewrite <- app_assoc. simpl.
    by apply basename_go_after_slash.
  - change (lit "/" ++ f) with (slash :: f).
    by apply basename_go_after_slash.
Qed.

Section RunTheorems.
Variable loads : str → result json.
Variable dumps : json → str.
Variable disk : str → str → write_fault.
Variable logged : str → nat → attempt_record → option str.
Variables (OUTPUT_DIR SYSTEM_PROMPT : str) (MAX_OUTPUT_TOKENS : nat).
Variable backend : str → nat → str → backend_request → backend_reply.
Variable rnd : str → nat → Q.

(** X15. The scan splits the eligible entries in two: those whose output
    exists are counted as skipped, the others are taken up, as paths in
    the input directory and in the order of the listing. *)
Theorem scan_partitions_eligible input_dir fs names :
  let present f := exists_file fs (output_path_of OUTPUT_DIR f) in
  let s := scan OUTPUT_DIR input_dir fs names in
  s.1 = map (PyStr.path_join input_dir)
          (List.filter (λ f, negb (present f)) (eligible names)) ∧
  s.2 = length (List.filter present (eligible names)) ∧
  length s.1 + s.2 = length (eligible names).
Proof.
  intros present s. subst present s. unfold eligible, exists_file.
  induction names as [|g rest IH]; [done|].
  destruct IH as (IH1 & IH2 & IH3).
  cbn [scan List.filter].
  destruct (scan OUTPUT_DIR input_dir fs rest) as [files skipped].
  simpl in IH1, IH2, IH3.
  destruct (PyStr.endswith g INPUT_FILE_EXT); [|done].
  cbn [List.filter].
  destruct (fs !! output_path_of OUTPUT_DIR g); simpl.
  - split; [done|]. split; [by rewrite IH2 | lia].
  - split; [by rewrite IH1|]. split; [done | lia].
Qed.

Lemma scan_member input_dir fs names f :
  f ∈ eligible names →
  is_Some (fs !! output_path_of OUTPUT_DIR f) ∨
  PyStr.path_join input_dir f ∈ (scan OUTPUT_DIR input_dir fs names).1.
Proof.
  unfold eligible. induction names as [|g rest IH]; simpl.
  { intros Hin. by apply elem_of_nil in Hin. }
  destruct (scan OUTPUT_DIR input_dir fs rest) as [files skipped]. simpl in IH.
  destruct (PyStr.endswith g INPUT_FILE_EXT).
  - intros [->|Hin]%elem_of_cons.
    + destruct (fs !! output_path_of OUTPUT_DIR g); [left; eauto|].
      right. apply list_elem_of_here.
    + destruct (IH Hin) as [?|?]; [by left|]. right.
      destruct (fs !! output_path_of OUTPUT_DIR g); simpl; [done|].
      by apply list_elem_of_further.
  - intros Hin. destruct (IH Hin); [by left | by right].
Qed.

(** X16. A run never deletes a file, and it changes nothing outside the
    output and error paths of the work items it takes up and the two log
    files of the providers, to which the records of the attempts are
    appended. *)
Theorem run_keeps_existing_files input_dir entries fs m provider p :
  let r := run_workflow loads dumps disk logged OUTPUT_DIR SYSTEM_PROMPT
             MAX_OUTPUT_TOKENS backend rnd input_dir entries fs m provider in
  (is_Some (fs !! p) → is_Some (files_after r !! p)) ∧
  ((∀ file, file ∈ taken_up OUTPUT_DIR input_dir entries fs →
      p ≠ output_path_of OUTPUT_DIR (basename file) ∧
      p ≠ error_path_of OUTPUT_DIR (basename file)) →
   p ≠ log_file Gemini → p ≠ log_file OpenAI →
   files_after r !! p = fs !! p).
Proof.
  intros r.
  destruct (run_files_facts loads dumps disk logged OUTPUT_DIR SYSTEM_PROMPT
              MAX_OUTPUT_TOKENS backend rnd input_dir entries fs m provider)
    as [Hkeep Hsame].
  split; [apply Hkeep|]. intros Hp Hg Ho. by apply Hsame.
Qed.

(** Three runs on the sample directory.  A response that is an empty object
    inside a fence is extracted, to a value that counts as false, and ends
    as an error with the raw text at the error path.  A dump that stops
    after its first character ends as an error with that character at the
    output path, which the next run takes for the output of the item.  And a
    call that fails for good has its one attempt in the log file. *)
Lemma sample_runs_with_faults :
  let fenced_run := sample_run fenced_empty_backend sample_files in
  let failed_dump := sample_run_on failing_disk answering_backend sample_files in
  let rerun := sample_run answering_backend (files_after failed_dump) in
  let rejected := sample_run rejecting_backend sample_files in
  parse_json_safely ref_loads fenced_empty_object = Ok (JObj []) ∧
  reported fenced_run = Summary 0 1 ∧
  files_after fenced_run !! lit "out/a.json" = None ∧
  files_after fenced_run !! lit "out/a.f.txt.error.txt"
  = Some fenced_empty_object ∧
  reported failed_dump = Summary 0 1 ∧
  files_after failed_dump !! lit "out/a.json" = Some [lbrace] ∧
  reported rerun = AllAlreadyProcessed 1 ∧
  files_after rejected !! lit "logs/gemini_logs.txt"
  = Some (lit "gemini gemini-2.0-flash-exp" ++ [nl]).
Proof. repeat split; reflexivity. Qed.


(** X18. After a run in which every work item taken up succeeded, every
    eligible entry of the directory has its output, so that running again
    on the same listing (whatever the backend does this time) takes up
    nothing, writes nothing and reports that all the files were already
    processed. *)
Theorem rerun_after_success_is_noop input_dir names fs m provider
    disk2 logged2 backend2 rnd2 provider2 :
  Forall (λ f, no_slash f) names →
  eligible names ≠ [] →
  let r1 := run_workflow loads dumps disk logged OUTPUT_DIR SYSTEM_PROMPT
              MAX_OUTPUT_TOKENS backend rnd input_dir (Some names) fs m
              provider in
  (∀ results, returned r1 = Some results →
              Forall (λ r, jr_status r = job_success) results) →
  let r2 := run_workflow loads dumps disk2 logged2 OUTPUT_DIR SYSTEM_PROMPT
              MAX_OUTPUT_TOKENS backend2 rnd2 input_dir (Some names)
              (files_after r1) (manager_after r1) provider2 in
  reported r2 = AllAlreadyProcessed (length (eligible names)) ∧
  returned r2 = None ∧
  files_after r2 = files_after r1 ∧
  provider_events r2 = [].
Proof.
  intros Hnames Hsome r1 Hall.
  assert (Hout : ∀ f, f ∈ eligible names →
            is_Some (files_after r1 !! output_path_of OUTPUT_DIR f)).
  { intros f Hf.
    assert (no_slash f) as Hf'.
    { apply (proj1 (Forall_forall _ _) Hnames).
      unfold eligible in Hf. apply list_elem_of_In, filter_In in Hf as [Hf _].
      by apply list_elem_of_In. }
    destruct (scan_member input_dir fs names f Hf) as [Hthere|Htaken].
    - by apply (run_files_facts loads dumps disk logged OUTPUT_DIR
                  SYSTEM_PROMPT MAX_OUTPUT_TOKENS backend rnd input_dir
                  (Some names) fs m provider).
    - subst r1. revert Hall Htaken. unfold run_workflow.
      destruct (scan OUTPUT_DIR input_dir fs names) as [[|g files] [|n]];
        cbn [fst snd]; try (intros _ Hin; by apply elem_of_nil in Hin).
      all: pose proof (process_all_facts loads dumps disk logged OUTPUT_DIR
                         SYSTEM_PROMPT MAX_OUTPUT_TOKENS backend rnd fs m
                         (g :: files) provider) as (_ & _ & _ & _ & _ & Hsucc).
      all: destruct (process_all _ _ _ _ _ _ _ _ _ fs m (g :: files) provider)
             as [[[rs fs'] m'] trace]; simpl in *.
      all: intros Hall Htaken.
      all: specialize (Hsucc (Hall rs eq_refl) _ Htaken).
      all: by rewrite basename_path_join in Hsucc. }
  intros r2. subst r2. unfold run_workflow.
  rewrite (scan_all_present OUTPUT_DIR input_dir (files_after r1) names Hout).
  destruct (eligible names) as [|f0 rest]; [done|]. done.
Qed.

End RunTheorems.


Lemma rerun_after_success_is_noop_witness :
  reported
    (run_workflow ref_loads JsonDump.dumps sound_disk sample_logged
       (lit "out")
       (lit "You are a Transcript Analysis Expert.") (16 * 1024)
       rejecting_backend (fun _ _ => 0%Q) (lit "in") (Some sample_entries)
       (files_after (sample_run answering_backend sample_files))
       (manager_after (sample_run answering_backend sample_files)) None)
  = AllAlreadyProcessed 1.
Proof.
  destruct (rerun_after_success_is_noop ref_loads JsonDump.dumps
              sound_disk sample_logged
              (lit "out") (lit "You are a Transcript Analysis Expert.")
              (16 * 1024) answering_backend (fun _ _ => 0%Q) (lit "in")
              sample_entries sample_files sample_manager None
              sound_disk sample_logged
              rejecting_backend (fun _ _ => 0%Q) None) as (Hrep & _).
  - repeat constructor; discriminate.
  - discriminate.
  - intros results Hret. vm_compute in Hret. injection Hret as <-.
    repeat constructor.
  - exact Hrep.
Defined.

(** ** Resolving a provider by name *)

Lemma dict_get_is_Some {V} (d : list (str * V)) name :
  is_Some (dict_get d name) ↔ name ∈ map fst d.
Proof.
  induction d as [|[k x] rest IH]; simpl.
  - split; [by intros [? ?] | by intros ?%elem_of_nil].
  - destruct (decide (k = name)) as [->|Hne].
    + split; [intros _; apply list_elem_of_here | eauto].
    + rewrite IH. split; [by apply list_elem_of_further|].
      by intros [?|?]%elem_of_cons.
Qed.

(** X19. [get_provider] with a name succeeds exactly for the names
    [get_available_providers] lists, compared as they are written (no case
    folding); any other name raises a [ValueError], and so nothing is
    returned for it. *)
Theorem get_provider_succeeds_iff_available m name :
  name ≠ [] →
  ((∃ P, get_provider m (Some name) = Ok P) ↔
   name ∈ get_available_providers m) ∧
  (name ∉ get_available_providers m →
   ∃ msg, get_provider m (Some name) = Raise (Exn ValueError msg)).
Proof.
  intros Hne. destruct name as [|c s]; [done|].
  unfold get_provider, get_available_providers.
  pose proof (dict_get_is_Some (providers m) (c :: s)) as Hiff.
  destruct (dict_get (providers m) (c :: s)) as [P|].
  - split; [|intros Hnot; exfalso; apply Hnot, Hiff; eauto].
    split; [intros _; apply Hiff; eauto | eauto].
  - split; [|eauto].
    split; [by intros [P HP] | intros Hin; apply Hiff in Hin; by destruct Hin].
Qed.

Lemma get_provider_succeeds_iff_available_witness :
  ∃ msg, get_provider sample_manager (Some (lit "Gemini"))
         = Raise (Exn ValueError msg).
Proof.
  destruct (get_provider_succeeds_iff_available sample_manager (lit "Gemini"))
    as [_ Hraise].
  - discriminate.
  - apply Hraise. intros Hin. apply list_elem_of_In in Hin. simpl in Hin.
    destruct Hin as [Hin|[]]. discriminate Hin.
Defined.

(** ** Start times of a transcript *)

Lemma dict_get_setitem {V} (d : list (str * V)) key v :
  dict_get (dict_setitem d key v) key = Some v.
Proof.
  induction d as [|[k x] rest IH]; simpl.
  - by rewrite decide_True.
  - destruct (decide (k = key)) as [->|Hne]; simpl.
    + by rewrite decide_True.
    + by rewrite decide_False.
Qed.

Lemma dict_get_setitem_ne {V} (d : list (str * V)) key v other :
  other ≠ key → dict_get (dict_setitem d key v) other = dict_get d other.
Proof.
  intros Hother. induction d as [|[k x] rest IH]; simpl.
  - by rewrite decide_False.
  - destruct (decide (k = key)) as [->|Hne]; simpl.
    + by rewrite !decide_False.
    + destruct (decide (k = other)); [done | exact IH].
Qed.

Lemma dict_setitem_again {V} (d : list (str * V)) key v v' :
  dict_setitem (dict_setitem d key v) key v' = dict_setitem d key v'.
Proof.
  induction d as [|[k x] rest IH]; simpl.
  - by rewrite decide_True.
  - destruct (decide (k = key)) as [->|Hne]; simpl.
    + by rewrite decide_True.
    + by rewrite decide_False, IH.
Qed.

Lemma dict_get_set {V} (d : list (str * V)) key v other :
  dict_get (dict_set d key v) other
  = if decide (other = key)
    then match dict_get d key with Some _ => Some v | None => None end
    else dict_get d other.
Proof.
  induction d as [|[k x] rest IH]; simpl.
  - by case_decide.
  - destruct (decide (k = key)) as [->|Hne]; simpl;
      destruct (decide (other = key)) as [->|Hne']; simpl;
      repeat (case_decide; simplify_eq; simpl); try done.
    all: rewrite IH; repeat (case_decide; simplify_eq; simpl); try done.
Qed.

Lemma dict_set_again {V} (d : list (str * V)) key v v' :
  dict_set (dict_set d key v) key v' = dict_set d key v'.
Proof.
  induction d as [|[k x] rest IH]; simpl; [done|].
  destruct (decide (k = key)) as [->|Hne]; simpl.
  - by rewrite decide_True.
  - by rewrite decide_False, IH.
Qed.

Lemma stamp_items_spec index items items' :
  stamp_items index items = Some items' →
  length items' = length items ∧
  ∀ j, j < length items →
    ∃ fields, items !! j = Some (JObj fields) ∧
      items' !! j
      = Some (JObj (dict_setitem fields START_TIME_FIELD
                      (JNum (Z.of_nat (index + j) * START_TIME_INCREMENT)))).
Proof.
  revert index items'. induction items as [|item rest IH]; intros index items'.
  - intros [= <-]. split; [done|]. simpl. lia.
  - simpl. destruct item as [| | | | |fields]; try done.
    destruct (stamp_items (S index) rest) as [rest'|] eqn:Hrest; [|done].
    intros [= <-]. destruct (IH _ _ Hrest) as [Hlen Hitems].
    split; [simpl; by rewrite Hlen|].
    intros [|j] Hj; simpl.
    + exists fields. by rewrite Nat.add_0_r.
    + destruct (Hitems j) as (f & Hf & Hf'); [simpl in Hj; lia|].
      exists f. split; [done|]. rewrite Hf'.
      by replace (S index + j) with (index + S j) by lia.
Qed.

Lemma stamp_items_again index items items' :
  stamp_items index items = Some items' →
  stamp_items index items' = Some items'.
Proof.
  revert index items'. induction items as [|item rest IH]; intros index items'.
  - by intros [= <-].
  - simpl. destruct item as [| | | | |fields]; try done.
    destruct (stamp_items (S index) rest) as [rest'|] eqn:Hrest; [|done].
    intros [= <-]. simpl. rewrite (IH _ _ Hrest). by rewrite dict_setitem_again.
Qed.

(** X20. When [update_data] rewrites a document, the document is an object
    whose transcript field is an array of objects; in the new document the
    item at position i has its start time set to 1000 * i and its other
    fields as before, the array has the same length, and the other members
    of the document, and the order of all members, are unchanged. *)
Theorem update_data_stamps data data' :
  update_data data = Updated data' →
  ∃ members members' items items',
    data = JObj members ∧ data' = JObj members' ∧
    dict_get members TRANSCRIPT_FIELD = Some (JArr items) ∧
    dict_get members' TRANSCRIPT_FIELD = Some (JArr items') ∧
    map fst members' = map fst members ∧
    (∀ k, k ≠ TRANSCRIPT_FIELD → dict_get members' k = dict_get members k) ∧
    length items' = length items ∧
    ∀ i, i < length items →
      ∃ fields fields',
        items !! i = Some (JObj fields) ∧
        items' !! i = Some (JObj fields') ∧
        dict_get fields' START_TIME_FIELD = Some (JNum (1000 * Z.of_nat i)) ∧
        ∀ k, k ≠ START_TIME_FIELD → dict_get fields' k = dict_get fields k.
Proof.
  unfold update_data.
  destruct data as [| | | s |items0|members]; try done.
  - by destruct (PyStr.contains _ _).
  - by destruct (existsb _ _).
  - destruct (dict_get members TRANSCRIPT_FIELD) as [[| | | | items|]|] eqn:Hget;
      try done.
    destruct (stamp_items 0 items) as [items'|] eqn:Hstamp; [|done].
    intros [= <-].
    destruct (stamp_items_spec _ _ _ Hstamp) as [Hlen Hitems].
    exists members, (dict_set members TRANSCRIPT_FIELD (JArr items')),
      items, items'.
    split; [done|]. split; [done|]. split; [done|].
    split; [by rewrite dict_get_set, decide_True, Hget|].
    split; [apply dict_set_names|].
    split; [intros k Hk; by rewrite dict_get_set, decide_False|].
    split; [done|].
    intros i Hi. destruct (Hitems i Hi) as (fields & Hf & Hf').
    exists fields, (dict_setitem fields START_TIME_FIELD
                      (JNum (Z.of_nat (0 + i) * START_TIME_INCREMENT))).
    split; [done|]. split; [done|].
    split; [rewrite dict_get_setitem; do 2 f_equal; unfold START_TIME_INCREMENT;
            simpl; lia|].
    intros k Hk. by apply dict_get_setitem_ne.
Qed.

Lemma update_data_stamps_witness :
  ∃ members', update_data sample_transcript = Updated (JObj members') ∧
    map fst members' = [lit "title"; lit "transcript"].
Proof.
  destruct (update_data sample_transcript) as [data'| |] eqn:Hup;
    [|discriminate Hup|discriminate Hup].
  destruct (update_data_stamps sample_transcript data' Hup)
    as (members & members' & items & items' & Hd & -> & _ & _ & Hnames & _).
  injection Hd as <-. exists members'. split; [reflexivity | exact Hnames].
Defined.

(** X21. Updating the start times a second time changes nothing: a
    document that [update_data] has produced is rewritten to itself. *)
Theorem update_data_idempotent data data' :
  update_data data = Updated data' → update_data data' = Updated data'.
Proof.
  unfold update_data at 1.
  destruct data as [| | | s |items0|members]; try done.
  - by destruct (PyStr.contains _ _).
  - by destruct (existsb _ _).
  - destruct (dict_get members TRANSCRIPT_FIELD) as [[| | | | items|]|] eqn:Hget;
      try done.
    destruct (stamp_items 0 items) as [items'|] eqn:Hstamp; [|done].
    intros [= <-]. unfold update_data.
    rewrite dict_get_set, decide_True, Hget by done. simpl.
    rewrite (stamp_items_again _ _ _ Hstamp). by rewrite dict_set_again.
Qed.

Lemma update_data_idempotent_witness :
  ∃ data', update_data sample_transcript = Updated data' ∧
           update_data data' = Updated data'.
Proof.
  destruct (update_data sample_transcript) as [data'| |] eqn:Hup;
    [|discriminate Hup|discriminate Hup].
  exists data'. split; [reflexivity|].
  exact (update_data_idempotent sample_transcript data' Hup).
Defined.

(** X22. [update_json_files] neither creates nor removes a file, touches
    only the files it was given, and leaves a file as it is when the file
    does not decode or its document is not rewritten by [update_data]. *)
Theorem update_json_files_touches_only_transcripts
    (load : str → option json) (dumps : json → str) files fs path :
  let fs' := update_json_files load dumps files fs in
  (is_Some (fs' !! path) ↔ is_Some (fs !! path)) ∧
  (path ∉ files → fs' !! path = fs !! path) ∧
  (∀ text, fs !! path = Some text →
     (∀ data data', load text = Some data → update_data data ≠ Updated data') →
     fs' !! path = Some text).
Proof.
  intros fs'. subst fs'. unfold update_json_files.
  revert fs. induction files as [|file rest IH]; intros fs; simpl.
  { split; [done|]. split; [done|]. by intros text ->. }
  assert (Hstep :
    (is_Some (update_file load dumps fs file !! path) ↔ is_Some (fs !! path)) ∧
    (path ≠ file → update_file load dumps fs file !! path = fs !! path) ∧
    (∀ text, fs !! path = Some text →
       (∀ data data', load text = Some data → update_data data ≠ Updated data') →
       update_file load dumps fs file !! path = Some text)).
  { unfold update_file.
    destruct (fs !! file) as [text0|] eqn:Hfile; [|by split; [|split; [|eauto]]].
    destruct (load text0) as [data|] eqn:Hload; [|by split; [|split; [|eauto]]].
    destruct (update_data data) as [data'| |] eqn:Hup;
      try by split; [|split; [|eauto]].
    split; [|split].
    - destruct (decide (file = path)) as [<-|Hne].
      + rewrite lookup_insert_eq, Hfile. split; eauto.
      + by rewrite lookup_insert_ne.
    - intros Hne. by rewrite lookup_insert_ne.
    - intros text Htext Hnot. destruct (decide (file = path)) as [<-|Hne].
      + rewrite Hfile in Htext. injection Htext as ->.
        by destruct (Hnot data data' Hload).
      + by rewrite lookup_insert_ne. }
  destruct Hstep as (Hdom & Hother & Hsame).
  destruct (IH (update_file load dumps fs file)) as (IHdom & IHother & IHsame).
  split; [by rewrite IHdom|]. split.
  - intros Hnot. rewrite IHother, Hother; [done| |].
    + intros ->. apply Hnot, list_elem_of_here.
    + intros Hin. by apply Hnot, list_elem_of_further.
  - intros text Htext Hnot. apply IHsame; [|done]. by apply Hsame.
Qed.

(** ** The brace span *)

Lemma after_first_none c s : after_first c s = None ↔ c ∉ s.
Proof.
  induction s as [|x s IH]; simpl.
  - split; [intros _; apply not_elem_of_nil | done].
  - destruct (Ascii.eqb_spec x c) as [->|Hne].
    + split; [done|]. intros Hnot. exfalso. apply Hnot, list_elem_of_here.
    + rewrite IH. split.
      * intros Hnot [->|Hin]%elem_of_cons; done.
      * intros Hnot Hin. apply Hnot. by apply list_elem_of_further.
Qed.

Lemma first_split_suffix (c : ascii) before tail pre rest :
  before ++ c :: tail = pre ++ c :: rest → c ∉ pre → ∃ x, rest = x ++ tail.
Proof.
  revert pre. induction before as [|b before IH]; intros [|p pre] Heq Hpre.
  - injection Heq as <-. by exists [].
  - injection Heq as <- _. exfalso. apply Hpre, list_elem_of_here.
  - injection Heq as -> <-. exists (before ++ [c]). by rewrite <- app_assoc.
  - injection Heq as <- Heq. apply (IH pre Heq).
    intros Hin. by apply Hpre, list_elem_of_further.
Qed.

(** X23. The regular expression of the third attempt matches exactly when
    the text has a closing brace somewhere after its first opening brace;
    a text without such a pair gives no match. *)
Theorem search_braces_finds_pair text :
  (∃ matched, search_braces text = Some matched) ↔
  (∃ before inside after, text = before ++ lbrace :: inside ++ rbrace :: after).
Proof.
  unfold search_braces. split.
  - intros [matched Hm].
    destruct (after_first lbrace text) as [rest|] eqn:Hopen; [|done].
    destruct (after_first rbrace (rev rest)) as [inner|] eqn:Hclose; [|done].
    apply after_first_split in Hopen as (before & -> & _).
    apply after_first_split in Hclose as (tail & Hrev & _).
    apply (f_equal (@rev ascii)) in Hrev. rewrite rev_involutive in Hrev.
    exists before, (rev inner), (rev tail).
    rewrite Hrev, rev_app_distr. simpl. by rewrite <- app_assoc.
  - intros (before & inside & after & ->).
    destruct (after_first lbrace _) as [rest|] eqn:Hopen.
    + apply after_first_split in Hopen as (pre & Heq & Hpre).
      destruct (first_split_suffix _ _ _ _ _ Heq Hpre) as [x ->].
      destruct (after_first rbrace _) as [inner|] eqn:Hclose; [eauto|].
      apply after_first_none in Hclose. exfalso. apply Hclose.
      apply list_elem_of_In. rewrite <- in_rev. apply list_elem_of_In.
      apply elem_of_app. right. apply elem_of_app. right.
      apply list_elem_of_here.
    + apply after_first_none in Hopen. exfalso. apply Hopen.
      apply elem_of_app. right. apply list_elem_of_here.
Qed.

(** ** What the attempts of one call send *)

Lemma build_request_index P b i prompt sys temperature max_tokens :
  build_request P (set_index b i) prompt sys temperature max_tokens
  = build_request P b prompt sys temperature max_tokens.
Proof. reflexivity. Qed.

Lemma loop_requests backend rnd P prompt sys temperature max_tokens
    todo a b n key req :
  EvCall n key req ∈ (attempt_loop backend rnd P prompt sys temperature
                        max_tokens todo a b).2 →
  req = build_request P b prompt sys temperature max_tokens ∧ key ∈ api_keys b.
Proof.
  revert a b. induction todo as [|todo IH]; intros a b.
  { simpl. intros [[=]|Hin%elem_of_nil]%elem_of_cons. done. }
  cbn [attempt_loop].
  destruct (get_next_key b) as [[api_key b1]|e] eqn:Hkey;
    [|by intros ?%elem_of_nil].
  apply get_next_key_state in Hkey as (Hk & -> & _).
  rewrite build_request_index.
  assert (Hhere : api_key ∈ api_keys b) by (by eapply list_elem_of_lookup_2).
  destruct (backend a api_key _) as [[|ch text] ti to tt|msg]; simpl;
    try destruct (is_retryable _ _); simpl.
  all: try (intros [[= <- <- <-]|[[=]|Hin%elem_of_nil]%elem_of_cons]%elem_of_cons;
            done).
  all: specialize (IH (S a) (set_index b ((current_key_index b + 1)
                                           mod length (api_keys b))));
    destruct (attempt_loop _ _ _ _ _ _ _ todo (S a) _) as [[r b2] evs];
    simpl in *;
    intros [[= <- <- <-]|[[=]|[[=]|Hin]%elem_of_cons]%elem_of_cons]%elem_of_cons;
    [done | by apply IH].
Qed.

(** X24. Every attempt of one [generate] call sends the same request: the
    model of the provider, the prompt, the temperature and the token budget
    as they were passed in; only the key, which is one of the provider's
    keys, changes from one attempt to the next. *)
Theorem attempts_resend_the_same_request backend rnd P prompt sys temperature
    max_tokens n key req :
  EvCall n key req ∈ (generate backend rnd P prompt sys temperature max_tokens).2 →
  req = build_request P (base P) prompt sys temperature max_tokens ∧
  key ∈ api_keys (base P) ∧
  match req with
  | GenerateContent model contents t budget =>
      model = model_name (base P) ∧ contents = full_prompt sys prompt ∧
      t = temperature ∧ budget = max_tokens
  | ChatCompletion model messages t budget =>
      model = model_name (base P) ∧
      last messages = Some (lit "user", prompt) ∧
      t = temperature ∧ budget = max_tokens
  end.
Proof.
  rewrite generate_events. intros Hin.
  apply loop_requests in Hin as [-> Hkey].
  split; [done|]. split; [done|].
  unfold build_request. destruct (kind P); [done|].
  split; [done|]. split; [|done].
  by destruct sys as [[|c s]|].
Qed.

Lemma attempts_resend_the_same_request_witness :
  let P := OpenAIProvider default_retry_config [lit "k0"; lit "k1"] (lit "m")
             None in
  lit "k1" ∈ api_keys (base P).
Proof.
  intros P.
  destruct (attempts_resend_the_same_request flaky_backend (fun _ => 0%Q) P
              (lit "hello") None (1 # 5) 100 2 (lit "k1")
              (build_request P (base P) (lit "hello") None (1 # 5) 100))
    as (_ & Hkey & _).
  - apply list_elem_of_In. vm_compute. tauto.
  - exact Hkey.
Defined.
